(** * KraftKit compose-to-unikernel orchestration core

    A shallow embedding of the parts of KraftKit that the specification
    speaks about: the progress tree scheduler, the compose project
    (address assignment and dependency ordering), the OCI manifest
    assembler, the tar-to-CPIO packer and the per-service loop of
    [kraft compose create].

    Go maps whose iteration order the code depends on are association
    lists: the order of the list is the order in which the runtime
    happens to range over the map, and every statement quantifies over
    it.  Maps that are only looked up and inserted into are [gmap]s. *)

From stdpp Require Import gmap strings list fin_maps sorting pretty.
From Stdlib Require Import ZArith Lia Ascii.

Local Open Scope string_scope.
Local Open Scope nat_scope.
Local Open Scope list_scope.

(** ** Progress tree: [tui/processtree/processtree.go] *)

Module ProcessTree.

Inductive SpinnerProcessStatus :=
  | StatusPending
  | StatusRunning
  | StatusRunningChild
  | StatusRunningButAChildHasFailed
  | StatusFailed
  | StatusFailedChild
  | StatusSuccess.

#[export] Instance SpinnerProcessStatus_eq_dec : EqDecision SpinnerProcessStatus.
Proof. solve_decision. Defined.

(** The fields of [ProcessTreeItem] that scheduling reads.  An item is
    identified by its position in the tree; the labels tell items apart
    in the examples. *)
#[warnings="-register-all"]
Inductive ProcessTreeItem :=
  NewProcessTreeItem {
    textLeft : string;
    status : SpinnerProcessStatus;
    children : list ProcessTreeItem
  }.

(** The loop "Determine the status of immediate children": the pair is
    [(completed, failed)]. *)
Definition countChild (acc : nat * nat) (child : ProcessTreeItem) : nat * nat :=
  let '(completed, failed) := acc in
  if bool_decide (status child = StatusFailed)
     || bool_decide (status child = StatusFailedChild)
  then (completed, S failed)
  else if bool_decide (status child = StatusSuccess)
  then (S completed, failed)
  else (completed, failed).

Definition countChildren (ch : list ProcessTreeItem) : nat * nat :=
  fold_left countChild ch (0, 0).

(** One iteration of the [for _, item := range tree] loop of
    [getNextReadyChildren]; [items] is the slice accumulated so far. *)
Fixpoint nextReadyItem (parallel : bool) (item : ProcessTreeItem)
    (items : list ProcessTreeItem) {struct item} : list ProcessTreeItem :=
  match item with
  | NewProcessTreeItem _ st ch =>
    let hasChildren := negb (length ch =? 0) in
    let subprocesses :=
      if hasChildren then
        (fix range (tree acc : list ProcessTreeItem) :=
           match tree with
           | [] => acc
           | c :: tree' => range tree' (nextReadyItem parallel c acc)
           end) ch []
      else [] in
    let items1 :=
      if hasChildren then
        if parallel then items ++ subprocesses
        else match subprocesses with
             | s :: _ => items ++ [s]
             | [] => items
             end
      else items in
    let '(completed, failed) :=
      if hasChildren then countChildren ch else (0, 0) in
    if (length subprocesses =? 0)
       && (failed =? 0)
       && (parallel || ((length items1 =? 0) && negb parallel))
       && (completed =? length ch)
       && (bool_decide (st = StatusPending)
           || bool_decide (st = StatusRunningChild))
    then items1 ++ [item]
    else items1
  end.

Definition rangeTree (parallel : bool) (tree acc : list ProcessTreeItem)
    : list ProcessTreeItem :=
  fold_left (fun acc item => nextReadyItem parallel item acc) tree acc.

Definition getNextReadyChildren (parallel : bool) (tree : list ProcessTreeItem)
    : list ProcessTreeItem :=
  rangeTree parallel tree [].

(** What the scheduler promises about an item it hands out. *)
Definition readyToRun (item : ProcessTreeItem) : Prop :=
  Forall (fun c => status c = StatusSuccess) (children item)
  /\ (status item = StatusPending \/ status item = StatusRunningChild).

Definition noFailedChild (item : ProcessTreeItem) : Prop :=
  Forall (fun c => status c <> StatusFailed /\ status c <> StatusFailedChild)
         (children item).

Lemma ProcessTreeItem_nested_ind (P : ProcessTreeItem -> Prop) :
  (forall t st ch, Forall P ch -> P (NewProcessTreeItem t st ch)) ->
  forall item, P item.
Proof.
  intros step. fix IH 1. intros [t st ch]. apply step.
  induction ch as [|c ch IHch]; constructor; [apply IH | exact IHch].
Qed.

Lemma nextReadyItem_unfold parallel t st ch items :
  nextReadyItem parallel (NewProcessTreeItem t st ch) items =
    let hasChildren := negb (length ch =? 0) in
    let subprocesses :=
      if hasChildren then rangeTree parallel ch [] else [] in
    let items1 :=
      if hasChildren then
        if parallel then items ++ subprocesses
        else match subprocesses with
             | s :: _ => items ++ [s]
             | [] => items
             end
      else items in
    let '(completed, failed) :=
      if hasChildren then countChildren ch else (0, 0) in
    if (length subprocesses =? 0)
       && (failed =? 0)
       && (parallel || ((length items1 =? 0) && negb parallel))
       && (completed =? length ch)
       && (bool_decide (st = StatusPending)
           || bool_decide (st = StatusRunningChild))
    then items1 ++ [NewProcessTreeItem t st ch]
    else items1.
Proof.
  assert (Hrange : forall tree acc,
    (fix range (tree acc : list ProcessTreeItem) :=
       match tree with
       | [] => acc
       | c :: tree' => range tree' (nextReadyItem parallel c acc)
       end) tree acc = rangeTree parallel tree acc).
  { induction tree as [|c tree IHt]; intros acc; [reflexivity|].
    cbn. apply IHt. }
  cbn -[rangeTree countChildren]. rewrite Hrange. reflexivity.
Qed.

Lemma countChild_bounds ch : forall c0 f0 c f,
  fold_left countChild ch (c0, f0) = (c, f) ->
  c0 <= c /\ f0 <= f /\ c + f <= c0 + f0 + length ch.
Proof.
  induction ch as [|x ch IH]; intros c0 f0 c f H.
  - cbn in H. injection H as <- <-. cbn. lia.
  - change (fold_left countChild ch (countChild (c0, f0) x) = (c, f)) in H.
    unfold countChild at 2 in H.
    destruct (bool_decide (status x = StatusFailed)
              || bool_decide (status x = StatusFailedChild));
      [|destruct (bool_decide (status x = StatusSuccess))];
      apply IH in H; cbn; lia.
Qed.

Lemma countChild_all ch : forall c0 f0 c,
  fold_left countChild ch (c0, f0) = (c, f0) ->
  c = c0 + length ch ->
  Forall (fun x => status x = StatusSuccess) ch.
Proof.
  induction ch as [|x ch IH]; intros c0 f0 c H Hc; [constructor|].
  change (fold_left countChild ch (countChild (c0, f0) x) = (c, f0)) in H.
  unfold countChild at 2 in H.
  destruct (bool_decide (status x = StatusFailed)
            || bool_decide (status x = StatusFailedChild)) eqn:Hf.
  { apply countChild_bounds in H. lia. }
  destruct (bool_decide (status x = StatusSuccess)) eqn:Hs.
  - constructor; [by apply bool_decide_eq_true in Hs|].
    eapply IH; [exact H|]. cbn in Hc. lia.
  - apply countChild_bounds in H. cbn in Hc. lia.
Qed.

Lemma countChildren_ready ch c f :
  countChildren ch = (c, f) -> f = 0 -> c = length ch ->
  Forall (fun x => status x = StatusSuccess) ch.
Proof.
  unfold countChildren. intros H -> Hc. eapply countChild_all; eauto.
Qed.

Lemma success_not_failed ch :
  Forall (fun x => status x = StatusSuccess) ch ->
  Forall (fun c => status c <> StatusFailed /\ status c <> StatusFailedChild) ch.
Proof.
  intros H. eapply Forall_impl; [exact H|].
  intros x Hx. cbn in Hx. rewrite Hx. split; discriminate.
Qed.

Lemma rangeTree_Forall (Q : ProcessTreeItem -> Prop) parallel tree :
  Forall (fun item => forall items, Forall Q items ->
            Forall Q (nextReadyItem parallel item items)) tree ->
  forall acc, Forall Q acc -> Forall Q (rangeTree parallel tree acc).
Proof.
  unfold rangeTree. induction 1 as [|item tree Hitem _ IH]; intros acc Hacc;
    cbn; [exact Hacc|]. apply IH, Hitem, Hacc.
Qed.

Lemma nextReadyItem_sound parallel item :
  forall items,
    Forall (fun i => readyToRun i /\ noFailedChild i) items ->
    Forall (fun i => readyToRun i /\ noFailedChild i)
           (nextReadyItem parallel item items).
Proof.
  induction item as [t st ch IHch] using ProcessTreeItem_nested_ind.
  intros items Hitems. rewrite nextReadyItem_unfold. cbv zeta.
  set (Q := fun i => readyToRun i /\ noFailedChild i) in *.
  assert (Hsub : Forall Q (rangeTree parallel ch [])).
  { apply rangeTree_Forall; [exact IHch|constructor]. }
  set (sub := if negb (length ch =? 0) then rangeTree parallel ch [] else []).
  assert (Hsub' : Forall Q sub).
  { subst sub. destruct (negb (length ch =? 0)); [exact Hsub|constructor]. }
  set (items1 := if negb (length ch =? 0) then _ else items).
  assert (Hitems1 : Forall Q items1).
  { subst items1. destruct (negb (length ch =? 0)); [|exact Hitems].
    destruct parallel.
    - apply Forall_app; split; assumption.
    - destruct sub as [|s sub']; [exact Hitems|].
      apply Forall_app; split; [exact Hitems|].
      constructor; [|constructor]. by apply Forall_cons in Hsub' as [? _]. }
  destruct (if negb (length ch =? 0) then countChildren ch else (0, 0))
    as [completed failed] eqn:Hcount.
  match goal with |- Forall Q (if ?b then _ else _) => destruct b eqn:Hcond end;
    [|exact Hitems1].
  apply Forall_app; split; [exact Hitems1|]. constructor; [|constructor].
  repeat (apply andb_prop in Hcond as [Hcond ?]).
  assert (Hall : Forall (fun x => status x = StatusSuccess) ch).
  { destruct ch as [|c ch']; [constructor|]. cbn [length Nat.eqb negb] in Hcount.
    eapply countChildren_ready; [exact Hcount| |];
      match goal with
      | H : (_ =? _) = true |- _ => apply Nat.eqb_eq in H; exact H
      end. }
  split; [split|]; cbn.
  - exact Hall.
  - match goal with
    | H : _ || _ = true |- _ =>
        apply orb_prop in H as [H|H]; apply bool_decide_eq_true in H; auto
    end.
  - by apply success_not_failed.
Qed.

(** C8.  Every item that [getNextReadyChildren] returns (in parallel or
    in serial mode, at any depth of the tree) has all of its children in
    [StatusSuccess] and is itself [StatusPending] or [StatusRunningChild];
    in particular none of its children is [StatusFailed] or
    [StatusFailedChild]. *)
Theorem getNextReadyChildren_ready (parallel : bool)
    (tree : list ProcessTreeItem) (item : ProcessTreeItem) :
  item ∈ getNextReadyChildren parallel tree ->
  readyToRun item /\ noFailedChild item.
Proof.
  intros Hin.
  assert (H : Forall (fun i => readyToRun i /\ noFailedChild i)
                     (getNextReadyChildren parallel tree)).
  { apply rangeTree_Forall; [|constructor].
    apply Forall_forall. intros i _. apply nextReadyItem_sound. }
  rewrite Forall_forall in H. by apply H.
Qed.

Definition leaf (name : string) (st : SpinnerProcessStatus) : ProcessTreeItem :=
  NewProcessTreeItem name st [].

Definition doneTree : ProcessTreeItem :=
  NewProcessTreeItem "root" StatusRunningChild
    [leaf "a" StatusSuccess; leaf "b" StatusSuccess].

Lemma getNextReadyChildren_ready_witness :
  doneTree ∈ getNextReadyChildren true [doneTree]
  /\ readyToRun doneTree /\ noFailedChild doneTree.
Proof.
  assert (Hin : doneTree ∈ getNextReadyChildren true [doneTree]).
  { vm_compute. apply list_elem_of_here. }
  split; [exact Hin|].
  exact (getNextReadyChildren_ready true [doneTree] doneTree Hin).
Defined.

(** A parent with a failed child is held back while the pending sibling
    is handed out. *)
Example failed_child_blocks_parent :
  getNextReadyChildren true
    [NewProcessTreeItem "root" StatusPending
       [leaf "a" StatusFailed; leaf "b" StatusPending]]
  = [leaf "b" StatusPending].
Proof. reflexivity. Qed.

(** *** Serial mode and fresh trees *)

(** Every item of the tree is [StatusPending], as [NewProcessTreeItem]
    leaves it. *)
Fixpoint fresh (item : ProcessTreeItem) : bool :=
  match item with
  | NewProcessTreeItem _ st ch =>
      bool_decide (st = StatusPending) && forallb fresh ch
  end.

(** The items without children, left to right. *)
Fixpoint leaves (item : ProcessTreeItem) : list ProcessTreeItem :=
  match item with
  | NewProcessTreeItem _ _ ch =>
      match ch with
      | [] => [item]
      | _ :: _ => concat (map leaves ch)
      end
  end.

Lemma leaves_nonempty item : leaves item <> [].
Proof.
  induction item as [t st ch IHch] using ProcessTreeItem_nested_ind.
  destruct ch as [|c ch]; [discriminate|].
  cbn. apply Forall_cons in IHch as [Hc _].
  destruct (leaves c); [done|discriminate].
Qed.

Lemma countChild_pending ch : forall acc,
  forallb fresh ch = true ->
  fold_left countChild ch acc = acc.
Proof.
  induction ch as [|c ch IH]; intros [completed failed] Hfresh; [reflexivity|].
  cbn in Hfresh. apply andb_prop in Hfresh as [Hc Hch].
  destruct c as [t st ch']. cbn in Hc. apply andb_prop in Hc as [Hst _].
  apply bool_decide_eq_true in Hst. subst st.
  cbn. by apply IH.
Qed.

Lemma rangeTree_app parallel tree :
  Forall (fun item => forall items,
            nextReadyItem parallel item items = items ++ leaves item) tree ->
  forall acc, rangeTree parallel tree acc = acc ++ concat (map leaves tree).
Proof.
  unfold rangeTree.
  induction 1 as [|item tree Hitem _ IH]; intros acc; cbn.
  - by rewrite app_nil_r.
  - by rewrite IH, Hitem, <- app_assoc.
Qed.

Lemma nextReadyItem_fresh item :
  fresh item = true ->
  forall items, nextReadyItem true item items = items ++ leaves item.
Proof.
  induction item as [t st ch IHch] using ProcessTreeItem_nested_ind.
  intros Hfresh items. rewrite nextReadyItem_unfold. cbv zeta.
  cbn in Hfresh. apply andb_prop in Hfresh as [Hst Hch].
  apply bool_decide_eq_true in Hst. subst st.
  destruct ch as [|c ch]; [reflexivity|].
  cbn [length Nat.eqb negb].
  assert (Hsub : rangeTree true (c :: ch) [] = concat (map leaves (c :: ch))).
  { rewrite rangeTree_app; [reflexivity|].
    rewrite forallb_forall in Hch. rewrite Forall_forall in IHch |- *.
    intros x Hx. apply IHch; [exact Hx|].
    apply Hch. by apply list_elem_of_In. }
  rewrite Hsub.
  unfold countChildren. rewrite countChild_pending by exact Hch.
  assert (Hne : concat (map leaves (c :: ch)) <> []).
  { cbn. pose proof (leaves_nonempty c). destruct (leaves c); [done|discriminate]. }
  change (leaves (NewProcessTreeItem t StatusPending (c :: ch)))
    with (concat (map leaves (c :: ch))).
  destruct (concat (map leaves (c :: ch))) as [|l ls]; [done|].
  reflexivity.
Qed.

(** X1.  On a tree in which every item, at every depth, is
    [StatusPending] (the state in which [NewProcessTreeItem] creates
    it), [getNextReadyChildren] in parallel mode returns exactly the
    items without children, from left to right: no item that has
    children is started before them. *)
Theorem getNextReadyChildren_fresh (tree : list ProcessTreeItem) :
  forallb fresh tree = true ->
  getNextReadyChildren true tree = concat (map leaves tree).
Proof.
  intros Hfresh. unfold getNextReadyChildren.
  rewrite rangeTree_app; [reflexivity|].
  rewrite forallb_forall in Hfresh. apply Forall_forall.
  intros item Hin. apply nextReadyItem_fresh, Hfresh. by apply list_elem_of_In.
Qed.

Lemma nextReadyItem_serial item items :
  length (nextReadyItem false item items) <= S (length items)
  /\ (items <> [] -> children item = [] -> nextReadyItem false item items = items).
Proof.
  destruct item as [t st ch]. rewrite nextReadyItem_unfold. cbv zeta.
  destruct ch as [|c ch].
  - cbn. destruct items as [|i items]; cbn.
    + split; [|done]. destruct (_ || _); cbn; lia.
    + split; [lia|done].
  - cbn [length Nat.eqb negb orb andb]. split; [|done].
    destruct (rangeTree false (c :: ch) []) as [|s sub].
    + destruct (countChildren (c :: ch)) as [completed failed].
      match goal with |- context [if ?b then _ else _] => destruct b end;
        [rewrite length_app; cbn|]; lia.
    + destruct (countChildren (c :: ch)) as [completed failed].
      cbn. rewrite length_app. cbn. lia.
Qed.

Lemma rangeTree_serial_length tree : forall acc,
  length (rangeTree false tree acc) <= length acc + length tree.
Proof.
  unfold rangeTree.
  induction tree as [|item tree IH]; intros acc; cbn; [lia|].
  etrans; [apply IH|]. pose proof (nextReadyItem_serial item acc) as [H _]. lia.
Qed.

Lemma rangeTree_serial_leaves tree :
  Forall (fun item => children item = []) tree ->
  forall acc, acc <> [] -> rangeTree false tree acc = acc.
Proof.
  unfold rangeTree.
  induction 1 as [|item tree Hitem _ IH]; intros acc Hacc; [reflexivity|].
  cbn. pose proof (nextReadyItem_serial item acc) as [_ H].
  rewrite H by done. by apply IH.
Qed.

(** X2.  In serial mode [getNextReadyChildren] returns at most one item
    for each top-level item of the tree it is given, and at most one
    item altogether when none of the top-level items has children. *)
Theorem getNextReadyChildren_serial (tree : list ProcessTreeItem) :
  length (getNextReadyChildren false tree) <= length tree
  /\ (Forall (fun item => children item = []) tree ->
      length (getNextReadyChildren false tree) <= 1).
Proof.
  unfold getNextReadyChildren.
  split; [apply (rangeTree_serial_length tree [])|].
  induction 1 as [|item tree Hitem Hleaves IH]; [cbn; lia|].
  change (rangeTree false (item :: tree) [])
    with (rangeTree false tree (nextReadyItem false item [])).
  pose proof (nextReadyItem_serial item []) as [H1 _].
  destruct (nextReadyItem false item []) as [|i rest] eqn:Hi; [exact IH|].
  rewrite rangeTree_serial_leaves by done. exact H1.
Qed.

(** *** Walking the tree: [traverseTreeAndCall] and [NewProcessTree] *)

(** One iteration of the loop of [traverseTreeAndCall]: the children
    first, then the callback on the item itself.  The callback works on
    a state [S] (the variables it captures) and may return an error. *)
Fixpoint traverseItem {S E} (callback : ProcessTreeItem -> S -> S * option E)
    (child : ProcessTreeItem) (s : S) {struct child} : S * option E :=
  match child with
  | NewProcessTreeItem _ _ ch =>
      let '(s1, err) :=
        if 0 <? length ch then
          (fix range (items : list ProcessTreeItem) (s : S) : S * option E :=
             match items with
             | [] => (s, None)
             | c :: items' =>
                 match traverseItem callback c s with
                 | (s', Some err) => (s', Some err)
                 | (s', None) => range items' s'
                 end
             end) ch s
        else (s, None) in
      match err with
      | Some err => (s1, Some err)
      | None => callback child s1
      end
  end.

Fixpoint traverseTreeAndCall {S E}
    (callback : ProcessTreeItem -> S -> S * option E)
    (items : list ProcessTreeItem) (s : S) : S * option E :=
  match items with
  | [] => (s, None)
  | child :: items' =>
      match traverseItem callback child s with
      | (s', Some err) => (s', Some err)
      | (s', None) => traverseTreeAndCall callback items' s'
      end
  end.

(** Calling the callback on the items of a list, one after the other,
    up to the first error. *)
Fixpoint callEach {S E} (callback : ProcessTreeItem -> S -> S * option E)
    (items : list ProcessTreeItem) (s : S) : S * option E :=
  match items with
  | [] => (s, None)
  | item :: items' =>
      match callback item s with
      | (s', Some err) => (s', Some err)
      | (s', None) => callEach callback items' s'
      end
  end.

(** The items of a tree, every item after all of its descendants. *)
Fixpoint postorder (item : ProcessTreeItem) : list ProcessTreeItem :=
  match item with
  | NewProcessTreeItem _ _ ch => concat (map postorder ch) ++ [item]
  end.

Lemma callEach_app {S E} (callback : ProcessTreeItem -> S -> S * option E)
    l1 l2 s :
  callEach callback (l1 ++ l2) s =
    match callEach callback l1 s with
    | (s', Some err) => (s', Some err)
    | (s', None) => callEach callback l2 s'
    end.
Proof.
  revert s. induction l1 as [|x l1 IH]; intros s; cbn; [reflexivity|].
  destruct (callback x s) as [s' [err|]]; [reflexivity|apply IH].
Qed.

Lemma traverseItem_unfold {S E}
    (callback : ProcessTreeItem -> S -> S * option E) t st ch s :
  traverseItem callback (NewProcessTreeItem t st ch) s =
    match traverseTreeAndCall callback ch s with
    | (s1, Some err) => (s1, Some err)
    | (s1, None) => callback (NewProcessTreeItem t st ch) s1
    end.
Proof.
  assert (Hrange : forall items s0,
    (fix range (items : list ProcessTreeItem) (s : S) : S * option E :=
       match items with
       | [] => (s, None)
       | c :: items' =>
           match traverseItem callback c s with
           | (s', Some err) => (s', Some err)
           | (s', None) => range items' s'
           end
       end) items s0 = traverseTreeAndCall callback items s0).
  { induction items as [|x items IH]; intros s0; [reflexivity|].
    cbn. destruct (traverseItem callback x s0) as [s' [err|]];
      [reflexivity|apply IH]. }
  cbn [traverseItem]. rewrite Hrange.
  destruct ch as [|c ch]; [reflexivity|].
  cbn [length Nat.ltb Nat.leb].
  by destruct (traverseTreeAndCall callback (c :: ch) s) as [s1 [err|]].
Qed.

Lemma traverseItem_postorder {S E}
    (callback : ProcessTreeItem -> S -> S * option E) item :
  forall s, traverseItem callback item s = callEach callback (postorder item) s.
Proof.
  induction item as [t st ch IHch] using ProcessTreeItem_nested_ind.
  intros s. rewrite traverseItem_unfold.
  change (postorder (NewProcessTreeItem t st ch))
    with (concat (map postorder ch) ++ [NewProcessTreeItem t st ch]).
  rewrite callEach_app.
  assert (Hch : forall s0, traverseTreeAndCall callback ch s0
                           = callEach callback (concat (map postorder ch)) s0).
  { induction IHch as [|c ch Hc _ IH]; intros s0; [reflexivity|].
    cbn. rewrite callEach_app, Hc.
    destruct (callEach callback (postorder c) s0) as [s' [err|]];
      [reflexivity|apply IH]. }
  rewrite Hch.
  destruct (callEach callback (concat (map postorder ch)) s) as [s1 [err|]];
    [reflexivity|].
  cbn. by destruct (callback (NewProcessTreeItem t st ch) s1) as [s2 [err|]].
Qed.

(** X3.  [traverseTreeAndCall] calls the callback on the items of the
    tree in post-order (every item after all of its descendants, the
    top-level items from left to right), stops at the first call that
    returns an error and returns that error. *)
Theorem traverseTreeAndCall_postorder {S E}
    (callback : ProcessTreeItem -> S -> S * option E)
    (items : list ProcessTreeItem) (s : S) :
  traverseTreeAndCall callback items s
  = callEach callback (concat (map postorder items)) s.
Proof.
  revert s. induction items as [|child items IH]; intros s; [reflexivity|].
  cbn. rewrite callEach_app, traverseItem_postorder.
  destruct (callEach callback (postorder child) s) as [s' [err|]];
    [reflexivity|apply IH].
Qed.

(** The fields of [ProcessTree] that [NewProcessTree] sets or reads. *)
Record ProcessTree := {
  tree : list ProcessTreeItem;
  parallel : bool;
  norender : bool;
  failFast : bool;
  hideError : bool;
  finished : nat;
  total : nat
}.

Definition withTotal (pt : ProcessTree) (n : nat) : ProcessTree :=
  {| tree := tree pt; parallel := parallel pt; norender := norender pt;
     failFast := failFast pt; hideError := hideError pt;
     finished := finished pt; total := n |}.

(** A [ProcessTreeOption] changes the tree under construction or fails. *)
Definition ProcessTreeOption : Type := ProcessTree -> ProcessTree + string.

Fixpoint applyOptions (opts : list ProcessTreeOption) (pt : ProcessTree)
    : ProcessTree + string :=
  match opts with
  | [] => inl pt
  | opt :: opts' =>
      match opt pt with
      | inr err => inr err
      | inl pt' => applyOptions opts' pt'
      end
  end.

Section NewProcessTree.

(** [kamino.Clone] of the logger and of the IO streams: whether the
    clone made for the [n]-th item fails is up to the environment. *)
Context (cloneLogger cloneStreams : nat -> option string).

(** The callback that [NewProcessTree] hands to [traverseTreeAndCall];
    the state is the captured counter [total]. *)
Definition prepareItem (pt : ProcessTree) (item : ProcessTreeItem)
    (total : nat) : nat * option string :=
  let total := S total in
  if norender pt then (total, None)
  else match cloneLogger total with
       | Some err => (total, Some err)
       | None =>
           match cloneStreams total with
           | Some err => (total, Some err)
           | None => (total, None)
           end
       end.

Definition NewProcessTree (opts : list ProcessTreeOption)
    (items : list ProcessTreeItem) : ProcessTree + string :=
  if length items =? 0 then
    inr "cannot instantiate process tree without sub processes"
  else
    let pt := {| tree := items; parallel := false; norender := false;
                 failFast := false; hideError := false;
                 finished := 0; total := 0 |} in
    match applyOptions opts pt with
    | inr err => inr err
    | inl pt =>
        (* the error of the traversal is dropped *)
        let '(total, _) := traverseTreeAndCall (prepareItem pt) items 0 in
        inl (withTotal pt total)
    end.

Lemma callEach_prepareItem pt l : forall n,
  n <= (callEach (prepareItem pt) l n).1 <= n + length l
  /\ (l <> [] -> n < (callEach (prepareItem pt) l n).1)
  /\ (norender pt = true -> (callEach (prepareItem pt) l n).1 = n + length l).
Proof.
  induction l as [|x l IH]; intros n; [cbn; split; [lia|done]|].
  cbn [callEach length].
  destruct (IH (S n)) as (H1 & _ & H3).
  assert (Hp : prepareItem pt x n = (S n, None)
               \/ exists err, prepareItem pt x n = (S n, Some err)
                               /\ norender pt = false).
  { unfold prepareItem. destruct (norender pt); [by left|].
    destruct (cloneLogger (S n)); [right; eauto|].
    destruct (cloneStreams (S n)); [right; eauto|by left]. }
  destruct Hp as [-> | (err & -> & Hnr)]; cbn [fst].
  - split; [lia|]. split; [lia|]. intros Hnr. rewrite H3 by done. lia.
  - split; [lia|]. split; [lia|]. congruence.
Qed.

End NewProcessTree.

(** X4.  [NewProcessTree] only returns a tree when it was given at least
    one item; the [total] it records is at least one and at most the
    number of items at all depths, and it is exactly that number when
    rendering is off (the callback then cannot fail).  An error of the
    callback is dropped: it only ends the count early. *)
Theorem NewProcessTree_total cloneLogger cloneStreams
    (opts : list ProcessTreeOption) (items : list ProcessTreeItem)
    (pt : ProcessTree) :
  NewProcessTree cloneLogger cloneStreams opts items = inl pt ->
  items <> []
  /\ 1 <= total pt <= length (concat (map postorder items))
  /\ (norender pt = true -> total pt = length (concat (map postorder items))).
Proof.
  unfold NewProcessTree. intros Hnew.
  destruct items as [|item items]; [discriminate|].
  cbn [length Nat.eqb] in Hnew.
  destruct (applyOptions opts _) as [pt0|err]; [|discriminate].
  destruct (traverseTreeAndCall _ _ 0) as [n err] eqn:Hwalk.
  injection Hnew as <-. cbn [total norender withTotal].
  assert (Hpost : forall l s,
    traverseTreeAndCall (prepareItem cloneLogger cloneStreams pt0) l s
    = callEach (prepareItem cloneLogger cloneStreams pt0)
        (concat (map postorder l)) s).
  { induction l as [|c l IH]; intros s; [reflexivity|].
    cbn. rewrite callEach_app, traverseItem_postorder.
    destruct (callEach _ (postorder c) s) as [s' [e|]]; [reflexivity|apply IH]. }
  rewrite Hpost in Hwalk.
  pose proof (callEach_prepareItem cloneLogger cloneStreams pt0
                (concat (map postorder (item :: items))) 0) as H.
  rewrite Hwalk in H. cbn [fst] in H.
  destruct H as (H1 & H2 & H3).
  split; [done|]. split; [|exact H3].
  split; [|lia]. apply Nat.le_succ_l, H2.
  cbn. destruct item as [t st ch]. cbn.
  destruct (concat (map postorder ch)); cbn; discriminate.
Qed.

Definition pendingTree : ProcessTreeItem :=
  NewProcessTreeItem "root" StatusPending
    [leaf "a" StatusPending;
     NewProcessTreeItem "b" StatusPending [leaf "c" StatusPending]].

Lemma getNextReadyChildren_fresh_witness :
  getNextReadyChildren true [pendingTree]
  = [leaf "a" StatusPending; leaf "c" StatusPending].
Proof.
  exact (getNextReadyChildren_fresh [pendingTree] eq_refl).
Defined.

Lemma getNextReadyChildren_serial_witness :
  length (getNextReadyChildren false
            [leaf "a" StatusPending; leaf "b" StatusPending]) <= 1.
Proof.
  apply (getNextReadyChildren_serial
           [leaf "a" StatusPending; leaf "b" StatusPending]).
  repeat constructor.
Defined.

(** Serial mode can still hand out several items at once: one for each
    top-level item that has a ready descendant. *)
Example getNextReadyChildren_serial_two :
  getNextReadyChildren false
    [NewProcessTreeItem "x" StatusPending [leaf "a" StatusPending];
     NewProcessTreeItem "y" StatusPending [leaf "b" StatusPending]]
  = [leaf "a" StatusPending; leaf "b" StatusPending].
Proof. reflexivity. Qed.

(** The option that turns rendering off. *)
Definition WithRenderer (render : bool) : ProcessTreeOption :=
  fun pt =>
    inl {| tree := tree pt; parallel := parallel pt; norender := negb render;
           failFast := failFast pt; hideError := hideError pt;
           finished := finished pt; total := total pt |}.

Definition neverFails : nat -> option string := fun _ => None.

Definition pendingProcessTree : ProcessTree :=
  {| tree := [pendingTree]; parallel := false; norender := true;
     failFast := false; hideError := false; finished := 0; total := 4 |}.

Lemma NewProcessTree_total_witness :
  [pendingTree] <> []
  /\ 1 <= total pendingProcessTree <= 4
  /\ (norender pendingProcessTree = true -> total pendingProcessTree = 4).
Proof.
  exact (NewProcessTree_total neverFails neverFails [WithRenderer false]
           [pendingTree] pendingProcessTree eq_refl).
Defined.

End ProcessTree.

(** ** What the code needs of Go's [net] package *)

Module Net.

Local Open Scope Z_scope.

(** An IPv4 address is its 32-bit big-endian value. *)
Definition IP := Z.

(** [net.IPNet] for IPv4: the network number and the number of leading
    one bits of the mask ([net.CIDRMask ones 32]). *)
Record IPNet := { netIP : IP; ones : Z }.

Definition CIDRMask (n : Z) : Z := Z.shiftl (Z.ones n) (32 - n).

(** [IPNet.Contains]: the address and the network number agree under
    the mask. *)
Definition Contains (n : IPNet) (ip : IP) : bool :=
  Z.land ip (CIDRMask (ones n)) =? Z.land (netIP n) (CIDRMask (ones n)).

(** Modelled from the spec: [iputils.IncreaseIP] is not among the
    sources; the specification describes it as the increment of the
    4-byte representation in which the overflow of a byte carries into
    the next one, which on the 32-bit value is the successor modulo
    2^32.  The caller uses the value it returns. *)
Definition IncreaseIP (ip : IP) : IP := (ip + 1) mod 2 ^ 32.

(** The conversions between addresses and text.  The allocator never
    inspects the text; it only uses it as a key. *)
Class Text := {
  ParseCIDR : string -> option (IP * IPNet);
  ParseIP : string -> option IP;
  IP_String : IP -> string
}.

(** *** Dotted-decimal text, the IPv4 fragment of the package *)

Definition digitOf (c : Ascii.ascii) : option Z :=
  let n := Z.of_N (Ascii.N_of_ascii c) in
  if (48 <=? n) && (n <=? 57) then Some (n - 48) else None.

Fixpoint dtoi (s : string) (acc : Z) : option Z :=
  match s with
  | EmptyString => Some acc
  | String c s' =>
      match digitOf c with
      | Some d => dtoi s' (10 * acc + d)
      | None => None
      end
  end.

(** A decimal field: digits only, no leading zero, at most [max]. *)
Definition parseField (max : Z) (leadingZero : bool) (s : string) : option Z :=
  match s with
  | EmptyString => None
  | String c s' =>
      if negb leadingZero && Ascii.eqb c "0"%char && negb (String.eqb s' "")
      then None
      else if (3 <? Z.of_nat (String.length s))%Z then None
      else match dtoi s 0 with
           | Some n => if n <=? max then Some n else None
           | None => None
           end
  end.

(** [strings.Split s sep] for a one-character separator. *)
Fixpoint splitOn (sep : Ascii.ascii) (s : string) : list string :=
  match s with
  | EmptyString => [EmptyString]
  | String c s' =>
      if Ascii.eqb c sep then EmptyString :: splitOn sep s'
      else match splitOn sep s' with
           | w :: ws => String c w :: ws
           | [] => [String c EmptyString]
           end
  end.

Definition parseIPv4 (s : string) : option IP :=
  match splitOn "."%char s with
  | [a; b; c; d] =>
      a ← parseField 255 false a;
      b ← parseField 255 false b;
      c ← parseField 255 false c;
      d ← parseField 255 false d;
      Some (Z.lor (Z.shiftl a 24) (Z.lor (Z.shiftl b 16) (Z.lor (Z.shiftl c 8) d)))
  | _ => None
  end.

Definition parseCIDRv4 (s : string) : option (IP * IPNet) :=
  match splitOn "/"%char s with
  | [addr; mask] =>
      ip ← parseIPv4 addr;
      n ← parseField 32 true mask;
      Some (ip, {| netIP := Z.land ip (CIDRMask n); ones := n |})
  | _ => None
  end.

Definition octet (ip : IP) (i : Z) : string :=
  pretty (Z.land (Z.shiftr ip (8 * i)) 255).

Definition stringIPv4 (ip : IP) : string :=
  octet ip 3 +:+ "." +:+ octet ip 2 +:+ "." +:+ octet ip 1 +:+ "." +:+ octet ip 0.

Definition ipv4Text : Text :=
  {| ParseCIDR := parseCIDRv4; ParseIP := parseIPv4; IP_String := stringIPv4 |}.

Example parseCIDR_24 :
  parseCIDRv4 "10.0.0.7/24" = Some (167772167, {| netIP := 167772160; ones := 24 |}).
Proof. vm_compute. reflexivity. Qed.

Example stringIPv4_gw : stringIPv4 167772161 = "10.0.0.1".
Proof. vm_compute. reflexivity. Qed.

Example contains_24 :
  Contains {| netIP := 167772160; ones := 24 |} 167772415 = true
  /\ Contains {| netIP := 167772160; ones := 24 |} 167772416 = false.
Proof. split; reflexivity. Qed.

End Net.

(** ** Compose projects: address assignment and dependency ordering *)

Module Compose.

Import Net.

(** *** The compose-go project tree, as far as the code reads it *)

Record ServiceDependency := { Required : bool }.

Record ServiceNetworkConfig := { Ipv4Address : string }.

(** [Networks] is [map[string]*ServiceNetworkConfig]: the list order is
    the order of one [range], a [None] entry is a nil pointer, and the
    nil map is the empty list.  [DependsOn] is
    [map[string]ServiceDependency]. *)
Record ServiceConfig := {
  Name : string;
  Networks : list (string * option ServiceNetworkConfig);
  DependsOn : list (string * ServiceDependency)
}.

Record IPAMPool := { Subnet : string; Gateway : string }.

Record NetworkConfig := {
  NetworkName : string;
  External : bool;
  Ipam_Config : list IPAMPool
}.

(** [types.Services] maps a service name to the service of that name, so
    the list holds the services and the key is the [Name] field. *)
Definition Services := list ServiceConfig.

Record Project := {
  ProjectServices : Services;
  ProjectNetworks : list (string * NetworkConfig)
}.

(** *** Maps as association lists *)

Fixpoint alookup {V} (k : string) (m : list (string * V)) : option V :=
  match m with
  | [] => None
  | (k', v) :: m' => if String.eqb k' k then Some v else alookup k m'
  end.

(** [m[k] = v] for a key that is present. *)
Fixpoint aupdate {V} (k : string) (v : V) (m : list (string * V))
    : list (string * V) :=
  match m with
  | [] => []
  | (k', v') :: m' =>
      if String.eqb k' k then (k', v) :: m' else (k', v') :: aupdate k v m'
  end.

Fixpoint getService (name : string) (services : Services) : option ServiceConfig :=
  match services with
  | [] => None
  | s :: services' =>
      if String.eqb (Name s) name then Some s else getService name services'
  end.

Fixpoint setService (s : ServiceConfig) (services : Services) : Services :=
  match services with
  | [] => []
  | s' :: services' =>
      if String.eqb (Name s') (Name s) then s :: services'
      else s' :: setService s services'
  end.

(** *** What a Go call can do *)

Inductive outcome (A : Type) :=
  | Ok (a : A)
  | Err (msg : string)
  | Panic (msg : string)
  | Hang.
Arguments Ok {A} a.
Arguments Err {A} msg.
Arguments Panic {A} msg.
Arguments Hang {A}.

#[export] Instance outcome_ret : MRet outcome := fun A a => Ok a.
#[export] Instance outcome_bind : MBind outcome := fun A B f m =>
  match m with
  | Ok a => f a
  | Err msg => Err msg
  | Panic msg => Panic msg
  | Hang => Hang
  end.

(** A [for ... range] loop whose body can return or panic. *)
Fixpoint rangeM {A S} (body : S -> A -> outcome S) (l : list A) (s : S)
    : outcome S :=
  match l with
  | [] => Ok s
  | a :: l' => s' ← body s a; rangeM body l' s'
  end.

Definition nilMapPanic : string := "assignment to entry in nil map".

(** *** [Project.AssignIPs] *)

Section AssignIPs.

Context {text : Text}.

(** [usedAddresses]: a missing key reads as the nil inner map. *)
Abbreviation usedMap := (gmap string (gset string)).

Definition countSlash (s : string) : nat := length (splitOn "/"%char s).

(** "Join all the IPAM configs together". *)
Definition joinConfig (ipamConfig config : IPAMPool) : IPAMPool :=
  {| Subnet := if String.eqb (Subnet config) "" then Subnet ipamConfig
               else Subnet config;
     Gateway := if String.eqb (Gateway config) "" then Gateway ipamConfig
                else Gateway config |}.

Definition setConfig0 (network : NetworkConfig) (ipamConfig : IPAMPool)
    : NetworkConfig :=
  {| NetworkName := NetworkName network;
     External := External network;
     Ipam_Config := ipamConfig :: tail (Ipam_Config network) |}.

(** The body of the first loop, over [project.Networks]. *)
Definition reserveNetwork
    (st : usedMap * list (string * NetworkConfig))
    (entry : string * NetworkConfig)
    : outcome (usedMap * list (string * NetworkConfig)) :=
  let '(usedAddresses, networks) := st in
  let '(i, network) := entry in
  match Ipam_Config network with
  | [] => Ok st
  | config0 :: configs =>
    if External network then Ok st else
    let ipamConfig := fold_left joinConfig configs config0 in
    if String.eqb (Subnet ipamConfig) "" then
      Err ("network " +:+ NetworkName network +:+ " has no subnet specified")
    else if negb (countSlash (Subnet ipamConfig) =? 2) then
      Err ("network " +:+ NetworkName network +:+ " has an invalid subnet specified")
    else
      match ParseCIDR (Subnet ipamConfig) with
      | None =>
          Err ("failed to parse " +:+ NetworkName network +:+ " network subnet")
      | Some (subnetIP, subnetMask) =>
          gateway ←
            (if String.eqb (Gateway ipamConfig) "" then Ok (IP_String subnetIP)
             else match ParseIP (Gateway ipamConfig) with
                  | None =>
                      Err ("failed to parse " +:+ NetworkName network
                           +:+ " network gateway")
                  | Some gatewayIP =>
                      if negb (Contains subnetMask gatewayIP) then
                        Err ("network " +:+ NetworkName network
                             +:+ " gateway is not within the subnet")
                      else Ok (Gateway ipamConfig)
                  end);
          let ipamConfig :=
            {| Subnet := Subnet ipamConfig; Gateway := gateway |} in
          Ok (<[i := {[gateway; IP_String (netIP subnetMask)]}]> usedAddresses,
              aupdate i (setConfig0 network ipamConfig) networks)
      end
  end.

(** The body of the inner loop of "Mark used IPs for services with
    static IPs". *)
Definition reserveStatic (networks : list (string * NetworkConfig))
    (service : ServiceConfig) (usedAddresses : usedMap)
    (entry : string * option ServiceNetworkConfig) : outcome usedMap :=
  let '(name, network) := entry in
  match alookup name networks with
  | None =>
      Err ("service " +:+ Name service +:+ " references non-existent network "
           +:+ name)
  | Some projectNetwork =>
      match network with
      | Some cfg =>
          if String.eqb (Ipv4Address cfg) "" then Ok usedAddresses
          else if length (Ipam_Config projectNetwork) =? 0 then
            Err ("cannot assign IP address to service " +:+ Name service
                 +:+ " on network " +:+ name +:+ " without IPAM config")
          else
            match usedAddresses !! name with
            | None => Panic nilMapPanic
            | Some used =>
                Ok (<[name := {[Ipv4Address cfg]} ∪ used]> usedAddresses)
            end
      | None => Ok usedAddresses
      end
  end.

Definition reserveStatics (networks : list (string * NetworkConfig))
    (usedAddresses : usedMap) (service : ServiceConfig) : outcome usedMap :=
  rangeM (reserveStatic networks service) (Networks service) usedAddresses.

(** The scan [for _, exists := usedAddresses[name][ip.String()];
    subnet.Contains(ip) && exists; ...].  The set is not written during
    the scan, so a scan that has seen more addresses than the set has
    members without leaving it has gone once around the address space
    and never stops: that is [None] (see [scanFree_returns]). *)
Fixpoint scanFree (fuel : nat) (used : option (gset string)) (subnet : IPNet)
    (ip : IP) : option IP :=
  match fuel with
  | O => None
  | S fuel' =>
      let exists_ :=
        match used with
        | Some u => bool_decide (IP_String ip ∈ u)
        | None => false
        end in
      if Contains subnet ip && exists_
      then scanFree fuel' used subnet (IncreaseIP ip)
      else Some ip
  end.

Definition scanFuel (used : option (gset string)) : nat :=
  match used with
  | Some u => S (size u)
  | None => 1
  end.

(** The body of the loop over [service.Networks] inside the function
    given to [WithServicesTransform]; it returns the attachment that
    [service.Networks[name]] then points to. *)
Definition assignNetwork (networks : list (string * NetworkConfig))
    (usedAddresses : usedMap) (name : string)
    (network : option ServiceNetworkConfig)
    : outcome (usedMap * option ServiceNetworkConfig) :=
  let network := default {| Ipv4Address := "" |} network in
  let configs :=
    match alookup name networks with
    | Some projectNetwork => Ipam_Config projectNetwork
    | None => []
    end in
  match configs with
  | [] => Ok (usedAddresses, Some network)
  | config0 :: _ =>
    if negb (String.eqb (Ipv4Address network) "") then
      Ok (usedAddresses, Some network)
    else
      match ParseCIDR (Subnet config0) with
      | None => Err ("invalid CIDR address: " +:+ Subnet config0)
      | Some (_, subnet) =>
          let used := usedAddresses !! name in
          match scanFree (scanFuel used) used subnet (netIP subnet) with
          | None => Hang
          | Some ip =>
              if negb (Contains subnet ip) then
                Err ("not enough free IP addresses in network " +:+ name)
              else
                match used with
                | None => Panic nilMapPanic
                | Some u =>
                    Ok (<[name := {[IP_String ip]} ∪ u]> usedAddresses,
                        Some {| Ipv4Address := IP_String ip |})
                end
          end
      end
  end.

Definition setNetworks (service : ServiceConfig)
    (nets : list (string * option ServiceNetworkConfig)) : ServiceConfig :=
  {| Name := Name service; Networks := nets; DependsOn := DependsOn service |}.

(** One run of that loop body for the attachment of service [svc] to
    network [name].  The bodies run under goroutines, one per service;
    what one body does to [usedAddresses] it does while holding the
    mutex, so a run of the pass is a sequence of bodies. *)
Definition assignAttachment (networks : list (string * NetworkConfig))
    (st : usedMap * Services) (key : string * string)
    : outcome (usedMap * Services) :=
  let '(usedAddresses, services) := st in
  let '(svc, name) := key in
  match getService svc services with
  | None => Ok st
  | Some service =>
      match alookup name (Networks service) with
      | None => Ok st
      | Some network =>
          '(usedAddresses', network') ←
            assignNetwork networks usedAddresses name network;
          Ok (usedAddresses',
              setService
                (setNetworks service (aupdate name network' (Networks service)))
                services)
      end
  end.

(** The attachments in the order in which a sequential run of the
    services visits them. *)
Definition attachments (services : Services) : list (string * string) :=
  s ← services; (fun entry => (Name s, entry.1)) <$> Networks s.

(** [AssignIPs]; [schedule] is the order in which the bodies of the
    parallel pass take the mutex. *)
Definition AssignIPs (schedule : list (string * string)) (project : Project)
    : outcome Project :=
  '(usedAddresses, networks) ←
    rangeM reserveNetwork (ProjectNetworks project)
           (∅, ProjectNetworks project);
  usedAddresses ←
    rangeM (reserveStatics networks) (ProjectServices project) usedAddresses;
  '(_, services) ←
    rangeM (assignAttachment networks) schedule
           (usedAddresses, ProjectServices project);
  Ok {| ProjectServices := services; ProjectNetworks := networks |}.

End AssignIPs.

(** *** Reading the result of [AssignIPs] *)

Definition addressOf (network : option ServiceNetworkConfig) : string :=
  match network with
  | Some cfg => Ipv4Address cfg
  | None => ""
  end.

(** The address that service [svc] holds on network [name]: [None] when
    there is no such attachment, the empty string when the attachment
    has no address. *)
Definition attachedAddress (services : Services) (svc name : string)
    : option string :=
  service ← getService svc services;
  addressOf <$> alookup name (Networks service).

(** The claim that no two attachments to one network hold the same
    address. *)
Definition distinctAddresses (services : Services) : Prop :=
  forall svc svc' name addr,
    svc <> svc' -> addr <> "" ->
    attachedAddress services svc name = Some addr ->
    attachedAddress services svc' name <> Some addr.

Section assoc.

Context {V : Type}.
Implicit Types (m : list (string * V)) (k : string) (v : V).

Lemma alookup_elem m k v : (k, v) ∈ m -> is_Some (alookup k m).
Proof.
  induction m as [|[k' v'] m IH]; intros Hin; [by apply elem_of_nil in Hin|].
  cbn. destruct (String.eqb_spec k' k); [by eexists|].
  apply elem_of_cons in Hin as [Heq|Hin]; [congruence|by apply IH].
Qed.

Lemma alookup_Some m k v : alookup k m = Some v -> (k, v) ∈ m.
Proof.
  induction m as [|[k' v'] m IH]; cbn; [discriminate|].
  destruct (String.eqb_spec k' k) as [-> |Hne].
  - intros [= ->]. apply list_elem_of_here.
  - intros H. apply list_elem_of_further, IH, H.
Qed.

Lemma alookup_aupdate_eq m k v :
  is_Some (alookup k m) -> alookup k (aupdate k v m) = Some v.
Proof.
  induction m as [|[k' v'] m IH]; cbn; [by intros [? ?]|].
  destruct (String.eqb_spec k' k) as [-> |Hne]; cbn.
  - by rewrite String.eqb_refl.
  - intros H. destruct (String.eqb_spec k' k); [done|by apply IH].
Qed.

Lemma alookup_aupdate_ne m k k' v :
  k <> k' -> alookup k' (aupdate k v m) = alookup k' m.
Proof.
  intros Hne. induction m as [|[k0 v0] m IH]; cbn; [done|].
  destruct (String.eqb_spec k0 k) as [-> |Hne0]; cbn.
  - by destruct (String.eqb_spec k k').
  - destruct (String.eqb_spec k0 k'); [done|exact IH].
Qed.

Lemma alookup_aupdate_is_Some m k k' v :
  is_Some (alookup k' m) -> is_Some (alookup k' (aupdate k v m)).
Proof.
  intros H. destruct (decide (k = k')) as [-> |Hne].
  - rewrite alookup_aupdate_eq; [by eexists|done].
  - by rewrite alookup_aupdate_ne.
Qed.

End assoc.

Lemma getService_Name services svc s :
  getService svc services = Some s -> Name s = svc.
Proof.
  induction services as [|s' services IH]; cbn; [discriminate|].
  destruct (String.eqb_spec (Name s') svc); [by intros [= <-]|exact IH].
Qed.

Lemma getService_elem services svc s :
  getService svc services = Some s -> s ∈ services.
Proof.
  induction services as [|s' services IH]; cbn; [discriminate|].
  destruct (String.eqb_spec (Name s') svc).
  - intros [= <-]. apply list_elem_of_here.
  - intros H. apply list_elem_of_further, IH, H.
Qed.

Lemma getService_setService_eq services s :
  is_Some (getService (Name s) services) ->
  getService (Name s) (setService s services) = Some s.
Proof.
  induction services as [|s' services IH]; cbn; [by intros [? ?]|].
  destruct (String.eqb_spec (Name s') (Name s)) as [Heq|Hne]; cbn.
  - by rewrite String.eqb_refl.
  - intros H. destruct (String.eqb_spec (Name s') (Name s)); [done|by apply IH].
Qed.

Lemma getService_setService_ne services s svc :
  Name s <> svc ->
  getService svc (setService s services) = getService svc services.
Proof.
  intros Hne. induction services as [|s' services IH]; cbn; [done|].
  destruct (String.eqb_spec (Name s') (Name s)) as [Heq|Hne']; cbn.
  - destruct (String.eqb_spec (Name s) svc); [done|].
    destruct (String.eqb_spec (Name s') svc); [congruence|done].
  - destruct (String.eqb_spec (Name s') svc); [done|exact IH].
Qed.

(** Writing one attachment changes what that attachment reads as and
    nothing else. *)
Lemma attachedAddress_set services service name network svc' name' old :
  getService (Name service) services = Some service ->
  alookup name (Networks service) = Some old ->
  attachedAddress
    (setService
       (setNetworks service (aupdate name network (Networks service)))
       services) svc' name'
  = if decide (svc' = Name service /\ name' = name)
    then Some (addressOf network)
    else attachedAddress services svc' name'.
Proof.
  intros Hget Hnet. unfold attachedAddress.
  set (service' := setNetworks service _).
  assert (Hname : Name service' = Name service) by reflexivity.
  destruct (decide (svc' = Name service)) as [-> |Hsvc].
  - rewrite <- Hname at 1.
    rewrite getService_setService_eq; [|rewrite Hname, Hget; by eexists].
    rewrite Hget. cbn.
    destruct (decide (name' = name)) as [-> |Hn].
    + rewrite decide_True by done.
      rewrite alookup_aupdate_eq; [done|by eexists].
    + rewrite decide_False by (intros [_ ?]; done).
      rewrite alookup_aupdate_ne; [done|congruence].
  - rewrite decide_False by (intros [? _]; done).
    rewrite getService_setService_ne; [done|by rewrite Hname].
Qed.

(** *** Loops that keep an invariant *)

Lemma rangeM_inv {A S} (body : S -> A -> outcome S) (I : S -> Prop) l :
  (forall s a s', a ∈ l -> I s -> body s a = Ok s' -> I s') ->
  forall s s', I s -> rangeM body l s = Ok s' -> I s'.
Proof.
  induction l as [|a l IH]; intros Hbody s s' Hs; cbn.
  - by intros [= <-].
  - destruct (body s a) as [s1| | |] eqn:Hb; cbn; try discriminate.
    apply IH.
    + intros s0 a0 s0' Hin. apply Hbody. by apply list_elem_of_further.
    + eapply Hbody; [apply list_elem_of_here|exact Hs|exact Hb].
Qed.

Lemma rangeM_collect {A S} (body : S -> A -> outcome S)
    (le : S -> S -> Prop) (Q : A -> S -> Prop) :
  (forall s, le s s) ->
  (forall s1 s2 s3, le s1 s2 -> le s2 s3 -> le s1 s3) ->
  (forall a s s', le s s' -> Q a s -> Q a s') ->
  (forall s a s', body s a = Ok s' -> le s s' /\ Q a s') ->
  forall l s s', rangeM body l s = Ok s' ->
    le s s' /\ forall a, a ∈ l -> Q a s'.
Proof.
  intros Hrefl Htrans Hmono Hbody.
  induction l as [|a l IH]; intros s s'; cbn.
  - intros [= <-]. split; [apply Hrefl|]. intros a Hin.
    by apply elem_of_nil in Hin.
  - destruct (body s a) as [s1| | |] eqn:Hb; cbn; try discriminate.
    intros Hrest. apply Hbody in Hb as [Hle HQ].
    apply IH in Hrest as [Hle' Hall]. split; [by eapply Htrans|].
    intros a0 Hin. apply elem_of_cons in Hin as [-> |Hin]; [|by apply Hall].
    by eapply Hmono.
Qed.

Section AssignIPs_correct.

Context {text : Text}.

Implicit Types (usedAddresses : gmap string (gset string)).
Implicit Types (networks : list (string * NetworkConfig)).
Implicit Types (services : Services).

(** Every inner map that exists belongs to a network that is not
    external, whose first IPAM pool parses, and holds the gateway and
    the network address of that pool. *)
Definition reservedOk networks usedAddresses : Prop :=
  forall name u, usedAddresses !! name = Some u ->
    exists network cfg rest subnetIP subnet,
      alookup name networks = Some network
      /\ External network = false
      /\ Ipam_Config network = cfg :: rest
      /\ ParseCIDR (Subnet cfg) = Some (subnetIP, subnet)
      /\ Gateway cfg ∈ u
      /\ IP_String (netIP subnet) ∈ u.

(** The inner maps only grow, and none appears or disappears. *)
Definition usedLe usedAddresses usedAddresses' : Prop :=
  forall name,
    match usedAddresses !! name, usedAddresses' !! name with
    | Some u, Some u' => u ⊆ u'
    | None, None => True
    | _, _ => False
    end.

Lemma usedLe_refl usedAddresses : usedLe usedAddresses usedAddresses.
Proof. intros name. by destruct (usedAddresses !! name). Qed.

Lemma usedLe_trans u1 u2 u3 : usedLe u1 u2 -> usedLe u2 u3 -> usedLe u1 u3.
Proof.
  intros H12 H23 name. specialize (H12 name). specialize (H23 name).
  destruct (u1 !! name), (u2 !! name), (u3 !! name); try done. set_solver.
Qed.

Lemma usedLe_insert usedAddresses name u x :
  usedAddresses !! name = Some u ->
  usedLe usedAddresses (<[name := {[x]} ∪ u]> usedAddresses).
Proof.
  intros Hu name'. destruct (decide (name = name')) as [<-|Hne].
  - rewrite lookup_insert_eq, Hu. set_solver.
  - rewrite lookup_insert_ne by done. by destruct (usedAddresses !! name').
Qed.

Lemma reservedOk_le networks usedAddresses usedAddresses' :
  usedLe usedAddresses usedAddresses' ->
  reservedOk networks usedAddresses -> reservedOk networks usedAddresses'.
Proof.
  intros Hle Hok name u' Hu'. specialize (Hle name). rewrite Hu' in Hle.
  destruct (usedAddresses !! name) as [u|] eqn:Hu; [|done].
  destruct (Hok name u Hu)
    as (nw & cfg & rest & sip & subnet & H1 & H2 & H3 & H4 & H5 & H6).
  exists nw, cfg, rest, sip, subnet.
  repeat split; try done; by apply Hle.
Qed.

Lemma reserveNetwork_ok usedAddresses networks i network usedAddresses' networks' :
  reserveNetwork (usedAddresses, networks) (i, network)
    = Ok (usedAddresses', networks') ->
  is_Some (alookup i networks) ->
  reservedOk networks usedAddresses ->
  reservedOk networks' usedAddresses'
  /\ (forall k, is_Some (alookup k networks) -> is_Some (alookup k networks')).
Proof.
  unfold reserveNetwork. intros H Hi Hok.
  destruct (Ipam_Config network) as [|config0 configs] eqn:Hcfg;
    [by injection H as <- <-|].
  destruct (External network) eqn:Hext; [by injection H as <- <-|].
  set (joined := fold_left joinConfig configs config0) in *.
  destruct (String.eqb (Subnet joined) ""); [discriminate|].
  destruct (negb (countSlash (Subnet joined) =? 2)); [discriminate|].
  destruct (ParseCIDR (Subnet joined)) as [[subnetIP subnetMask]|] eqn:Hparse;
    [|discriminate].
  match type of H with
  | mbind _ ?g = _ => destruct g as [gateway| | |] eqn:Hgw; try discriminate
  end.
  cbn in H. injection H as <- <-. split.
  - intros name u Hu. destruct (decide (i = name)) as [<-|Hne].
    + rewrite lookup_insert_eq in Hu. injection Hu as <-.
      exists (setConfig0 network {| Subnet := Subnet joined; Gateway := gateway |}),
        {| Subnet := Subnet joined; Gateway := gateway |},
        (tail (Ipam_Config network)), subnetIP, subnetMask.
      rewrite alookup_aupdate_eq by done. cbn.
      repeat split; [done|done|set_solver..].
    + rewrite lookup_insert_ne in Hu by done.
      rewrite alookup_aupdate_ne by done. by apply Hok.
  - intros k. apply alookup_aupdate_is_Some.
Qed.

Lemma reserveNetworks_ok l : forall usedAddresses networks usedAddresses' networks',
  rangeM reserveNetwork l (usedAddresses, networks)
    = Ok (usedAddresses', networks') ->
  (forall i network, (i, network) ∈ l -> is_Some (alookup i networks)) ->
  reservedOk networks usedAddresses ->
  reservedOk networks' usedAddresses'.
Proof.
  intros usedAddresses networks usedAddresses' networks' Hrun Hkeys Hok.
  pose (I := fun st : gmap string (gset string) * list (string * NetworkConfig) =>
    reservedOk st.2 st.1
    /\ forall i network, (i, network) ∈ l -> is_Some (alookup i st.2)).
  assert (HI : I (usedAddresses', networks')).
  { refine (rangeM_inv reserveNetwork I l _ (usedAddresses, networks) _ _ Hrun);
      [|split; [exact Hok|exact Hkeys]].
    intros [u n] [i network] [u' n'] Hin [Hok0 Hkeys0] Hbody. cbn in *.
    apply reserveNetwork_ok in Hbody as [Hok1 Hkeys1];
      [|by eapply Hkeys0|exact Hok0].
    split; [exact Hok1|]. intros i0 nw0 Hin0. eapply Hkeys1, Hkeys0, Hin0. }
  apply HI.
Qed.

Definition extNet : NetworkConfig :=
  {| NetworkName := "ext"; External := true;
     Ipam_Config := [{| Subnet := "10.0.0.0/24"; Gateway := "" |}] |}.

Definition web (net : option ServiceNetworkConfig) : ServiceConfig :=
  {| Name := "web"; Networks := [("ext", net)]; DependsOn := [] |}.

Definition extProject (net : option ServiceNetworkConfig) : Project :=
  {| ProjectServices := [web net]; ProjectNetworks := [("ext", extNet)] |}.

(** After the pass over the static addresses every address that an
    attachment holds is in the inner map of its network. *)
Definition heldReserved usedAddresses services : Prop :=
  forall svc name addr,
    attachedAddress services svc name = Some addr -> addr <> "" ->
    exists u, usedAddresses !! name = Some u /\ addr ∈ u.

Definition entryReserved (entry : string * option ServiceNetworkConfig)
    usedAddresses : Prop :=
  addressOf entry.2 <> "" ->
  exists u, usedAddresses !! entry.1 = Some u /\ addressOf entry.2 ∈ u.

Lemma entryReserved_le entry usedAddresses usedAddresses' :
  usedLe usedAddresses usedAddresses' ->
  entryReserved entry usedAddresses -> entryReserved entry usedAddresses'.
Proof.
  intros Hle Hres Hne. destruct (Hres Hne) as (u & Hu & Hin).
  specialize (Hle entry.1). rewrite Hu in Hle.
  destruct (usedAddresses' !! entry.1) as [u'|]; [|done].
  exists u'. split; [done|by apply Hle].
Qed.

Lemma reserveStatic_ok networks service usedAddresses entry usedAddresses' :
  reserveStatic networks service usedAddresses entry = Ok usedAddresses' ->
  usedLe usedAddresses usedAddresses' /\ entryReserved entry usedAddresses'.
Proof.
  unfold reserveStatic, entryReserved. destruct entry as [name network]. cbn.
  destruct (alookup name networks) as [projectNetwork|]; [|discriminate].
  destruct network as [cfg|]; cbn.
  - destruct (String.eqb_spec (Ipv4Address cfg) "") as [Heq|Hne].
    { intros [= <-]. split; [apply usedLe_refl|done]. }
    destruct (length (Ipam_Config projectNetwork) =? 0); [discriminate|].
    destruct (usedAddresses !! name) as [u|] eqn:Hu; [|discriminate].
    intros [= <-]. split; [by apply usedLe_insert|].
    intros _. eexists. rewrite lookup_insert_eq. split; [done|set_solver].
  - intros [= <-]. split; [apply usedLe_refl|done].
Qed.

Lemma reserveStatics_ok networks services usedAddresses usedAddresses' :
  rangeM (reserveStatics networks) services usedAddresses = Ok usedAddresses' ->
  usedLe usedAddresses usedAddresses' /\ heldReserved usedAddresses' services.
Proof.
  intros Hrun.
  apply (rangeM_collect _ usedLe
           (fun service u => forall entry, entry ∈ Networks service ->
                               entryReserved entry u)) in Hrun.
  - destruct Hrun as [Hle Hall]. split; [exact Hle|].
    intros svc name addr Hatt Hne. unfold attachedAddress in Hatt.
    destruct (getService svc services) as [service|] eqn:Hget; [|discriminate].
    cbn in Hatt.
    destruct (alookup name (Networks service)) as [network|] eqn:Hnet;
      [|discriminate].
    injection Hatt as <-.
    apply (Hall service (getService_elem _ _ _ Hget) (name, network)); [|done].
    by apply alookup_Some.
  - apply usedLe_refl.
  - apply usedLe_trans.
  - intros service u u' Hle Hs entry Hin. eapply entryReserved_le; eauto.
  - intros u service u' Hbody. unfold reserveStatics in Hbody.
    apply (rangeM_collect _ usedLe entryReserved) in Hbody; [done|..].
    + apply usedLe_refl.
    + apply usedLe_trans.
    + intros entry ? ?. apply entryReserved_le.
    + intros ? ? ?. apply reserveStatic_ok.
Qed.

(** The scan stops inside the subnet only on an address that is free. *)
Lemma scanFree_free fuel u subnet : forall ip0 ip,
  scanFree fuel (Some u) subnet ip0 = Some ip ->
  Contains subnet ip = true -> IP_String ip ∉ u.
Proof.
  induction fuel as [|fuel IH]; intros ip0 ip; cbn; [discriminate|].
  destruct (Contains subnet ip0) eqn:Hc; cbn.
  - destruct (bool_decide (IP_String ip0 ∈ u)) eqn:Hin; [apply IH|].
    intros [= <-] _. by apply bool_decide_eq_false in Hin.
  - intros [= <-]. congruence.
Qed.

(** A scan that gives up has found the text of every address it looked
    at in the set. *)
Lemma scanFree_None fuel u subnet : forall ip0,
  scanFree fuel (Some u) subnet ip0 = None ->
  forall k, (k < fuel)%nat -> IP_String (Nat.iter k IncreaseIP ip0) ∈ u.
Proof.
  induction fuel as [|fuel IH]; intros ip0 Hscan k Hk; [lia|]. cbn in Hscan.
  destruct (Contains subnet ip0); cbn in Hscan; [|done].
  destruct (bool_decide (IP_String ip0 ∈ u)) eqn:Hin; [|done].
  apply bool_decide_eq_true in Hin. destruct k as [|k]; [done|].
  rewrite Nat.iter_succ_r. apply IH; [done|lia].
Qed.

Lemma IncreaseIP_iter k (ip : IP) :
  (0 <= ip < 2 ^ 32)%Z ->
  Nat.iter k IncreaseIP ip = ((ip + Z.of_nat k) mod 2 ^ 32)%Z.
Proof.
  intros Hip. induction k as [|k IH].
  - cbn. rewrite Z.add_0_r, Z.mod_small; lia.
  - rewrite Nat.iter_succ, IH. unfold IncreaseIP.
    rewrite Zplus_mod_idemp_l. f_equal. lia.
Qed.

Lemma mod_32_inj (a b : Z) :
  (0 <= a)%Z -> (a <= b)%Z -> (b - a < 2 ^ 32)%Z ->
  (a mod 2 ^ 32 = b mod 2 ^ 32)%Z -> a = b.
Proof.
  intros Ha Hab Hlt Hmod.
  assert (Hdiv : ((b - a) mod 2 ^ 32 = 0)%Z).
  { rewrite Zminus_mod, Hmod, Z.sub_diag. reflexivity. }
  rewrite Z.mod_small in Hdiv by lia. lia.
Qed.

(** The scan returns: when the text of an address determines the
    address and fewer than 2^32 texts are reserved, the bound on the
    number of steps is not reached. *)
Lemma scanFree_returns u subnet ip0 :
  (forall a b : IP, (0 <= a < 2 ^ 32)%Z -> (0 <= b < 2 ^ 32)%Z ->
     IP_String a = IP_String b -> a = b) ->
  (Z.of_nat (size u) < 2 ^ 32)%Z ->
  (0 <= ip0 < 2 ^ 32)%Z ->
  is_Some (scanFree (scanFuel (Some u)) (Some u) subnet ip0).
Proof.
  intros Hinj Hsize Hip.
  destruct (scanFree _ _ _ _) as [ip|] eqn:Hscan; [by eexists|]. exfalso.
  pose proof (scanFree_None _ _ _ _ Hscan) as Hall. cbn in Hall.
  set (l := (fun k => IP_String (Nat.iter k IncreaseIP ip0)) <$> seq 0 (S (size u))).
  assert (Hnodup : NoDup l).
  { apply NoDup_fmap_2_strong; [|apply NoDup_seq].
    intros j k [_ Hj]%elem_of_seq [_ Hk]%elem_of_seq Heq.
    rewrite !IncreaseIP_iter in Heq by done.
    apply Hinj in Heq; [|by apply Z.mod_pos_bound..].
    destruct (decide (j <= k)%nat).
    - apply mod_32_inj in Heq; lia.
    - symmetry in Heq. apply mod_32_inj in Heq; lia. }
  assert (Hsub : list_to_set (C := gset string) l ⊆ u).
  { intros x Hx. apply elem_of_list_to_set in Hx.
    apply list_elem_of_fmap in Hx as (k & -> & [_ Hk]%elem_of_seq).
    apply Hall. lia. }
  apply subseteq_size in Hsub. rewrite size_list_to_set in Hsub by done.
  subst l. rewrite length_fmap, length_seq in Hsub. lia.
Qed.

(** An address that the pass hands out: it is the text of an address
    in the subnet of the first IPAM pool of its network, which is not
    external, and that text is neither the text recorded as the gateway
    of that pool nor the text of the network address. *)
Definition withinSubnet networks (name addr : string) : Prop :=
  exists network cfg rest subnetIP subnet ip,
    alookup name networks = Some network
    /\ External network = false
    /\ Ipam_Config network = cfg :: rest
    /\ ParseCIDR (Subnet cfg) = Some (subnetIP, subnet)
    /\ Contains subnet ip = true
    /\ addr = IP_String ip
    /\ addr <> Gateway cfg
    /\ addr <> IP_String (netIP subnet).

Lemma assignNetwork_ok networks usedAddresses name network usedAddresses' network' :
  assignNetwork networks usedAddresses name network
    = Ok (usedAddresses', network') ->
  reservedOk networks usedAddresses ->
  (usedAddresses' = usedAddresses /\ addressOf network' = addressOf network)
  \/ (exists u addr,
        usedAddresses !! name = Some u
        /\ (addr ∉ u)
        /\ withinSubnet networks name addr
        /\ usedAddresses' = <[name := {[addr]} ∪ u]> usedAddresses
        /\ network' = Some {| Ipv4Address := addr |}).
Proof.
  unfold assignNetwork. intros H Hok.
  set (nw := default {| Ipv4Address := "" |} network) in *.
  assert (Hnw : addressOf (Some nw) = addressOf network) by (by destruct network).
  destruct (alookup name networks) as [projectNetwork|] eqn:Hlook;
    [|injection H as <- <-; by left].
  destruct (Ipam_Config projectNetwork) as [|config0 rest] eqn:Hcfg;
    [injection H as <- <-; by left|].
  destruct (negb (String.eqb (Ipv4Address nw) "")); [injection H as <- <-; by left|].
  destruct (ParseCIDR (Subnet config0)) as [[sip subnet]|] eqn:Hparse;
    [|discriminate].
  destruct (scanFree _ _ subnet (netIP subnet)) as [ip|] eqn:Hscan; [|discriminate].
  destruct (Contains subnet ip) eqn:Hc; [|discriminate]. cbn in H.
  destruct (usedAddresses !! name) as [u|] eqn:Hu; [|discriminate].
  injection H as <- <-. right. exists u, (IP_String ip).
  assert (Hfree : IP_String ip ∉ u) by (eapply scanFree_free; eauto).
  destruct (Hok name u Hu)
    as (nw' & cfg' & rest' & sip' & subnet' & H1 & H2 & H3 & H4 & H5 & H6).
  rewrite Hlook in H1. injection H1 as <-. rewrite Hcfg in H3.
  injection H3 as <- <-. rewrite Hparse in H4. injection H4 as <- <-.
  repeat split; try done.
  exists projectNetwork, config0, rest, sip, subnet, ip.
  repeat split; try done; intros Heq; rewrite Heq in Hfree; done.
Qed.

(** What holds of the attachments that had no address in [services0]
    and hold one now. *)
Definition assignedOk networks services0 services : Prop :=
  forall svc name addr,
    attachedAddress services0 svc name = Some "" ->
    attachedAddress services svc name = Some addr -> addr <> "" ->
    withinSubnet networks name addr
    /\ forall svc' addr', svc' <> svc ->
         attachedAddress services svc' name = Some addr' -> addr' <> addr.

Definition passInv networks services0
    (st : gmap string (gset string) * Services) : Prop :=
  reservedOk networks st.1
  /\ heldReserved st.1 st.2
  /\ assignedOk networks services0 st.2.

Lemma attachedAddress_same services service name network old :
  getService (Name service) services = Some service ->
  alookup name (Networks service) = Some old ->
  addressOf network = addressOf old ->
  forall svc' name',
    attachedAddress
      (setService
         (setNetworks service (aupdate name network (Networks service)))
         services) svc' name'
    = attachedAddress services svc' name'.
Proof.
  intros Hget Hnet Hsame svc' name'.
  rewrite (attachedAddress_set _ _ _ _ _ _ old) by done.
  case_decide as Hd; [|done]. destruct Hd as [-> ->].
  unfold attachedAddress. rewrite Hget. cbn. rewrite Hnet. cbn. congruence.
Qed.

Lemma assignAttachment_ok networks services0 st key st' :
  assignAttachment networks st key = Ok st' ->
  passInv networks services0 st -> passInv networks services0 st'.
Proof.
  destruct st as [usedAddresses services], key as [svc name].
  unfold assignAttachment. intros H (Hres & Hheld & Hass).
  destruct (getService svc services) as [service|] eqn:Hget;
    [|by injection H as <-].
  destruct (alookup name (Networks service)) as [network|] eqn:Hnet;
    [|by injection H as <-].
  destruct (assignNetwork networks usedAddresses name network)
    as [[usedAddresses' network']| | |] eqn:Hbody; try discriminate.
  cbn in H. injection H as <-. cbn in *.
  pose proof (getService_Name _ _ _ Hget) as Hname. subst svc.
  destruct (assignNetwork_ok _ _ _ _ _ _ Hbody Hres)
    as [[-> Hsame]|(u & addr & Hu & Hfree & Hin & -> & ->)].
  { (* the attachment keeps its address *)
    pose proof (attachedAddress_same _ _ _ _ _ Hget Hnet Hsame) as Hsame'.
    split; [done|]. split.
    - intros svc' name' addr'. rewrite Hsame'. apply Hheld.
    - intros svc' name' addr' H0. rewrite Hsame'. intros H1 Hne.
      destruct (Hass _ _ _ H0 H1 Hne) as [Hw Hd]. split; [done|].
      intros svc2 addr2. rewrite Hsame'. by apply Hd. }
  (* the attachment receives [addr] *)
  pose proof (attachedAddress_set services service name
                (Some {| Ipv4Address := addr |})) as Hset.
  assert (Hother : forall svc' name' addr',
    attachedAddress services svc' name' = Some addr' -> addr' <> "" ->
    name' = name -> addr' <> addr).
  { intros svc' name' addr' Hatt Hne -> ->.
    destruct (Hheld _ _ _ Hatt Hne) as (u' & Hu' & Hin').
    rewrite Hu in Hu'. by injection Hu' as <-. }
  split; [|split]; cbn.
  - eapply reservedOk_le; [by apply usedLe_insert|done].
  - intros svc' name' addr'. rewrite (Hset svc' name' network Hget Hnet).
    case_decide as Hd.
    + destruct Hd as [-> ->]. intros [= <-] _. eexists.
      rewrite lookup_insert_eq. split; [done|set_solver].
    + intros Hatt Hne. destruct (Hheld _ _ _ Hatt Hne) as (u' & Hu' & Hin').
      destruct (decide (name = name')) as [<-|Hnn].
      * rewrite Hu in Hu'. injection Hu' as <-. eexists.
        rewrite lookup_insert_eq. split; [done|set_solver].
      * exists u'. by rewrite lookup_insert_ne.
  - intros svc1 name1 addr1 H0. rewrite (Hset svc1 name1 network Hget Hnet).
    case_decide as Hd.
    + destruct Hd as [-> ->]. intros [= <-] Hne. split; [done|].
      intros svc' addr' Hsvc'. rewrite (Hset svc' name network Hget Hnet).
      rewrite decide_False by (intros [? _]; done).
      intros Hatt. destruct (decide (addr' = "")) as [-> |Hne']; [done|].
      by eapply Hother.
    + intros H1 Hne. destruct (Hass _ _ _ H0 H1 Hne) as [Hw Hd']. split; [done|].
      intros svc' addr' Hsvc'. rewrite (Hset svc' name1 network Hget Hnet).
      case_decide as Hd2.
      * destruct Hd2 as [-> ->]. intros [= <-]. intros Heq.
        eapply Hother; [exact H1|done|done|done].
      * by apply Hd'.
Qed.


(** The static pass writes into the inner map of a network that the
    first loop skipped. *)
Lemma reserveStatic_nil_map networks service usedAddresses name cfg network :
  alookup name networks = Some network ->
  Ipv4Address cfg <> "" ->
  Ipam_Config network <> [] ->
  usedAddresses !! name = None ->
  reserveStatic networks service usedAddresses (name, Some cfg)
    = Panic nilMapPanic.
Proof.
  intros Hlook Haddr Hcfg Hnil. unfold reserveStatic. rewrite Hlook.
  destruct (String.eqb_spec (Ipv4Address cfg) ""); [done|].
  destruct (Ipam_Config network); [done|]. cbn. by rewrite Hnil.
Qed.

End AssignIPs_correct.

(** *** [ServicesOrderedByDependencies] and [ServicesReversedByDependencies] *)

(** The value of [project.Services[name]]: the zero [ServiceConfig] for
    a name that is not a key. *)
Definition zeroService : ServiceConfig :=
  {| Name := ""; Networks := []; DependsOn := [] |}.

Definition projectService (project : Project) (name : string) : ServiceConfig :=
  default zeroService (getService name (ProjectServices project)).

(** The closure state: the set [added] and the slice built so far. *)
Record walk := { added : gset string; ordered : list ServiceConfig }.

Definition mark (name : string) (w : walk) : walk :=
  {| added := {[name]} ∪ added w; ordered := ordered w |}.

Definition push (service : ServiceConfig) (w : walk) : walk :=
  {| added := added w; ordered := ordered w ++ [service] |}.

(** A [range] loop whose body may exceed the depth bound. *)
Fixpoint rangeO {A S} (body : S -> A -> option S) (l : list A) (s : S)
    : option S :=
  match l with
  | [] => Some s
  | a :: l' => s' ← body s a; rangeO body l' s'
  end.

Definition hasService (services : Services) (name : string) : bool :=
  bool_decide (is_Some (getService name services)).

(** [addDependenciesRecursevly]; [depth] bounds the nesting of the calls
    and [None] says that the bound was hit. *)
Fixpoint addDependenciesRecursevly (project : Project) (services : Services)
    (expand : bool) (depth : nat) (service : ServiceConfig) (w : walk)
    : option walk :=
  match depth with
  | O => None
  | S depth' =>
      w' ← rangeO
             (fun w (entry : string * ServiceDependency) =>
                let '(name, dependency) := entry in
                if negb (hasService services name) && negb expand then Some w
                else if negb (bool_decide (name ∈ added w))
                        && Required dependency
                then addDependenciesRecursevly project services expand depth'
                       (projectService project name) w
                else Some w)
             (DependsOn service) (mark (Name service) w);
      Some (push service w')
  end.

(** No call nests deeper than this (see [walkFrom_total]). *)
Definition depthBound (project : Project) : nat :=
  2 + length (ProjectServices project).

Definition ServicesOrderedByDependencies (project : Project)
    (services : Services) (expand : bool) : option (list ServiceConfig) :=
  ordered <$>
    rangeO
      (fun w service =>
         if bool_decide (Name service ∈ added w) then Some w
         else addDependenciesRecursevly project services expand
                (depthBound project) service w)
      services {| added := ∅; ordered := [] |}.

(** compose-go's [ServiceConfig.GetDependents]: the services of the
    project that have this one among the keys of their [DependsOn]. *)
Definition GetDependents (service : ServiceConfig) (project : Project)
    : list string :=
  s ← ProjectServices project;
  (fun _ => Name s)
    <$> filter (fun entry => entry.1 = Name service) (DependsOn s).

(** [project.Services[name].DependsOn[service.Name].Required]. *)
Definition requiredBy (project : Project) (name : string)
    (service : ServiceConfig) : bool :=
  match alookup (Name service) (DependsOn (projectService project name)) with
  | Some dependency => Required dependency
  | None => false
  end.

Fixpoint addDependantsRecursevly (project : Project) (services : Services)
    (expand : bool) (depth : nat) (service : ServiceConfig) (w : walk)
    : option walk :=
  match depth with
  | O => None
  | S depth' =>
      w' ← rangeO
             (fun w name =>
                if negb (hasService services name) && negb expand then Some w
                else if negb (bool_decide (name ∈ added w))
                        && requiredBy project name service
                then addDependantsRecursevly project services expand depth'
                       (projectService project name) w
                else Some w)
             (GetDependents service project) (mark (Name service) w);
      Some (push service w')
  end.

Definition ServicesReversedByDependencies (project : Project)
    (services : Services) (expand : bool) : option (list ServiceConfig) :=
  ordered <$>
    rangeO
      (fun w service =>
         if bool_decide (Name service ∈ added w) then Some w
         else addDependantsRecursevly project services expand
                (depthBound project) service w)
      services {| added := ∅; ordered := [] |}.

(** Both closures are one traversal: mark, visit the unmarked
    successors, append.  [edges] lists the successors that pass the
    tests that do not look at [added]. *)
Fixpoint walkFrom (project : Project) (edges : ServiceConfig -> list string)
    (depth : nat) (service : ServiceConfig) (w : walk) : option walk :=
  match depth with
  | O => None
  | S depth' =>
      w' ← rangeO
             (fun w name =>
                if bool_decide (name ∈ added w) then Some w
                else walkFrom project edges depth'
                       (projectService project name) w)
             (edges service) (mark (Name service) w);
      Some (push service w')
  end.

Definition walkAll (project : Project) (edges : ServiceConfig -> list string)
    (services : Services) : option walk :=
  rangeO
    (fun w service =>
       if bool_decide (Name service ∈ added w) then Some w
       else walkFrom project edges (depthBound project) service w)
    services {| added := ∅; ordered := [] |}.

Definition dependencyEdges (services : Services) (expand : bool)
    (service : ServiceConfig) : list string :=
  fst <$> filter (fun entry : string * ServiceDependency =>
                    (hasService services entry.1 || expand)
                    && Required entry.2 = true)
                 (DependsOn service).

Definition dependantEdges (project : Project) (services : Services)
    (expand : bool) (service : ServiceConfig) : list string :=
  filter (fun name => (hasService services name || expand)
                      && requiredBy project name service = true)
         (GetDependents service project).

Definition webDb : Project :=
  {| ProjectServices :=
       [ {| Name := "web"; Networks := [];
            DependsOn := [("db", {| Required := true |})] |};
         {| Name := "db"; Networks := []; DependsOn := [] |} ];
     ProjectNetworks := [] |}.

Definition names (l : list ServiceConfig) : list string := Name <$> l.

Example webDb_ordered :
  names <$> ServicesOrderedByDependencies webDb (ProjectServices webDb) false
  = Some ["db"; "web"].
Proof. vm_compute. reflexivity. Qed.

Example webDb_reversed :
  names <$> ServicesReversedByDependencies webDb (ProjectServices webDb) false
  = Some ["web"; "db"].
Proof. vm_compute. reflexivity. Qed.

Lemma rangeO_ext {A S} (f g : S -> A -> option S) l :
  (forall s a, a ∈ l -> f s a = g s a) -> forall s, rangeO f l s = rangeO g l s.
Proof.
  induction l as [|a l IH]; intros Hfg s; [done|]. cbn.
  rewrite Hfg by apply list_elem_of_here.
  destruct (g s a) as [s'|]; [|done]. cbn. apply IH.
  intros s0 a0 Hin. apply Hfg. by apply list_elem_of_further.
Qed.

Lemma addDependenciesRecursevly_walk project services expand depth :
  forall service w,
    addDependenciesRecursevly project services expand depth service w
    = walkFrom project (dependencyEdges services expand) depth service w.
Proof.
  induction depth as [|depth IH]; intros service w; [done|]. cbn.
  f_equal. unfold dependencyEdges. generalize (mark (Name service) w).
  induction (DependsOn service) as [|[name dependency] l IHl]; intros w0;
    [done|].
  rewrite filter_cons. cbn [rangeO fst snd].
  destruct (hasService services name), expand, (Required dependency); cbn;
    rewrite ?decide_True by done; rewrite ?decide_False by done; cbn;
    try apply IHl.
  all: destruct (bool_decide (name ∈ added w0)); cbn; try apply IHl.
  all: rewrite IH; destruct (walkFrom _ _ _ _ _); cbn; [apply IHl|done].
Qed.

Lemma addDependantsRecursevly_walk project services expand depth :
  forall service w,
    addDependantsRecursevly project services expand depth service w
    = walkFrom project (dependantEdges project services expand) depth service w.
Proof.
  induction depth as [|depth IH]; intros service w; [done|]. cbn.
  f_equal. unfold dependantEdges. generalize (mark (Name service) w).
  induction (GetDependents service project) as [|name l IHl]; intros w0;
    [done|].
  rewrite filter_cons. cbn [rangeO].
  destruct (hasService services name), expand,
    (requiredBy project name service); cbn;
    rewrite ?decide_True by done; rewrite ?decide_False by done; cbn;
    try apply IHl.
  all: destruct (bool_decide (name ∈ added w0)); cbn; try apply IHl.
  all: rewrite IH; destruct (walkFrom _ _ _ _ _); cbn; [apply IHl|done].
Qed.

Lemma ServicesOrderedByDependencies_walk project services expand :
  ServicesOrderedByDependencies project services expand
  = ordered <$> walkAll project (dependencyEdges services expand) services.
Proof.
  unfold ServicesOrderedByDependencies, walkAll. f_equal.
  apply rangeO_ext. intros w service _.
  by rewrite addDependenciesRecursevly_walk.
Qed.

Lemma ServicesReversedByDependencies_walk project services expand :
  ServicesReversedByDependencies project services expand
  = ordered <$> walkAll project (dependantEdges project services expand) services.
Proof.
  unfold ServicesReversedByDependencies, walkAll. f_equal.
  apply rangeO_ext. intros w service _.
  by rewrite addDependantsRecursevly_walk.
Qed.

(** *** The traversal returns *)

Section walk_total.

Context (project : Project) (edges : ServiceConfig -> list string).

(** A successor that is not a service of the project is visited as the
    zero service, which has no successors of its own. *)
Hypothesis edges_missing : forall service name,
  name ∈ edges service ->
  getService name (ProjectServices project) = None ->
  edges zeroService = [].

(** The services of the project that are not marked yet. *)
Definition unvisited (w : walk) : nat :=
  length (filter (fun s => Name s ∉ added w) (ProjectServices project)).

Lemma filter_length_le {A} (P Q : A -> Prop)
    `{!forall x, Decision (P x)} `{!forall x, Decision (Q x)} (l : list A) :
  (forall x, P x -> Q x) -> length (filter P l) <= length (filter Q l).
Proof.
  intros HPQ. induction l as [|x l IH]; [done|]. rewrite !filter_cons.
  destruct (decide (P x)) as [HP|HP].
  - rewrite decide_True by auto. cbn. lia.
  - destruct (decide (Q x)); cbn; lia.
Qed.

Lemma filter_length_lt {A} (P Q : A -> Prop)
    `{!forall x, Decision (P x)} `{!forall x, Decision (Q x)} (l : list A) x :
  (forall y, P y -> Q y) -> x ∈ l -> Q x -> ~ P x ->
  length (filter P l) < length (filter Q l).
Proof.
  intros HPQ Hin HQ HP. induction l as [|y l IH]; [by apply elem_of_nil in Hin|].
  rewrite !filter_cons. apply elem_of_cons in Hin as [<-|Hin].
  - rewrite decide_False, decide_True by done. cbn.
    pose proof (filter_length_le P Q l HPQ). lia.
  - specialize (IH Hin). destruct (decide (P y)) as [HPy|HPy].
    + rewrite decide_True by auto. cbn. lia.
    + destruct (decide (Q y)); cbn; lia.
Qed.

Lemma unvisited_le w : unvisited w <= length (ProjectServices project).
Proof. apply length_filter. Qed.

Lemma unvisited_mono w w' : added w ⊆ added w' -> unvisited w' <= unvisited w.
Proof. intros Hsub. apply filter_length_le. set_solver. Qed.

Lemma unvisited_mark w name s :
  getService name (ProjectServices project) = Some s ->
  name ∉ added w ->
  unvisited (mark name w) < unvisited w.
Proof.
  intros Hget Hnew. pose proof (getService_Name _ _ _ Hget) as Hname.
  apply (filter_length_lt _ _ _ s); [|by eapply getService_elem|..];
    cbn; set_solver.
Qed.

Lemma walkFrom_total depth : forall service w,
  unvisited (mark (Name service) w) + 2 <= depth
  \/ (edges service = [] /\ 1 <= depth) ->
  exists w', walkFrom project edges depth service w = Some w'
             /\ added (mark (Name service) w) ⊆ added w'.
Proof.
  induction depth as [|depth IH]; intros service w Hdepth; [lia|]. cbn.
  destruct Hdepth as [Hdepth|[Hnil _]]; [|rewrite Hnil; cbn; by eexists].
  assert (Hloop : forall l w0,
    (forall name, name ∈ l -> name ∈ edges service) ->
    added (mark (Name service) w) ⊆ added w0 ->
    exists w1,
      rangeO (fun w name =>
                if bool_decide (name ∈ added w) then Some w
                else walkFrom project edges depth (projectService project name) w)
             l w0 = Some w1
      /\ added w0 ⊆ added w1).
  { induction l as [|name l IHl]; intros w0 Hl Hsub; [by eexists|]. cbn.
    assert (Hstep : exists w1,
      (if bool_decide (name ∈ added w0) then Some w0
       else walkFrom project edges depth (projectService project name) w0)
      = Some w1 /\ added w0 ⊆ added w1).
    { destruct (bool_decide (name ∈ added w0)) eqn:Hseen; [by eexists|].
      apply bool_decide_eq_false in Hseen.
      destruct (IH (projectService project name) w0) as (w1 & Hw1 & Hsub1).
      - unfold projectService.
        destruct (getService name (ProjectServices project)) as [s'|] eqn:Hget.
        + left. change (default zeroService (Some s')) with s'.
          rewrite (getService_Name _ _ _ Hget).
          pose proof (unvisited_mark _ _ _ Hget Hseen).
          pose proof (unvisited_mono _ _ Hsub). lia.
        + right. split; [|lia]. eapply edges_missing; [|exact Hget].
          apply Hl, list_elem_of_here.
      - exists w1. split; [done|]. cbn in Hsub1. set_solver. }
    destruct Hstep as (w1 & -> & Hsub1). cbn.
    destruct (IHl w1) as (w2 & Hw2 & Hsub2).
    - intros n Hn. by apply Hl, list_elem_of_further.
    - by etrans.
    - exists w2. split; [done|by etrans]. }
  destruct (Hloop (edges service) (mark (Name service) w))
    as (w1 & -> & Hsub); [done..|].
  cbn. eexists. split; [done|]. cbn. exact Hsub.
Qed.

Lemma walkAll_total services :
  exists w, walkAll project edges services = Some w.
Proof.
  unfold walkAll. generalize {| added := ∅; ordered := [] |}.
  induction services as [|service services IH]; intros w; [by eexists|].
  cbn [rangeO].
  destruct (bool_decide (Name service ∈ added w)); [apply IH|].
  destruct (walkFrom_total (depthBound project) service w) as (w' & -> & _);
    [|apply IH].
  left. pose proof (unvisited_le (mark (Name service) w)).
  unfold depthBound. lia.
Qed.

End walk_total.

(** *** The traversal of an acyclic project is a topological order *)

(** [a] has [b] among its successors. *)
Definition edge (project : Project) (edges : ServiceConfig -> list string)
    (a b : string) : Prop :=
  exists s, s ∈ ProjectServices project /\ Name s = a /\ b ∈ edges s.

(** [x] can be reached from one of [services]. *)
Definition reachable (project : Project) (edges : ServiceConfig -> list string)
    (services : Services) (x : string) : Prop :=
  exists s, s ∈ services /\ rtc (edge project edges) (Name s) x.

(** Every successor of an element stands before it. *)
Definition successorsFirst (edges : ServiceConfig -> list string)
    (l : list ServiceConfig) : Prop :=
  forall i a b, l !! i = Some a -> b ∈ edges a -> b ∈ names (take i l).

Lemma names_inj (l : Services) a b :
  NoDup (names l) -> a ∈ l -> b ∈ l -> Name a = Name b -> a = b.
Proof.
  unfold names. induction l as [|s l IH]; intros Hnd Ha Hb Heq;
    [by apply elem_of_nil in Ha|].
  rewrite fmap_cons in Hnd. apply NoDup_cons in Hnd as [Hs Hnd].
  apply elem_of_cons in Ha as [-> |Ha]; apply elem_of_cons in Hb as [-> |Hb].
  - done.
  - exfalso. apply Hs. rewrite Heq. by apply list_elem_of_fmap_2.
  - exfalso. apply Hs. rewrite <- Heq. by apply list_elem_of_fmap_2.
  - by apply IH.
Qed.

Section walk_correct.

Context (project : Project) (edges : ServiceConfig -> list string)
        (services : Services).

Hypothesis names_unique : NoDup (names (ProjectServices project)).
Hypothesis edges_exist : forall s name,
  s ∈ ProjectServices project -> name ∈ edges s ->
  is_Some (getService name (ProjectServices project)).
Hypothesis services_sub : forall s, s ∈ services -> s ∈ ProjectServices project.
Hypothesis acyclic : forall a, ~ tc (edge project edges) a a.

(** [stack] holds the services whose visit has begun and not ended. *)
Record walkInv (stack : list string) (w : walk) : Prop := {
  inv_added : forall x, x ∈ added w -> x ∈ names (ordered w) \/ x ∈ stack;
  inv_first : successorsFirst edges (ordered w);
  inv_reach : forall a, a ∈ ordered w ->
    a ∈ ProjectServices project /\ reachable project edges services (Name a);
  inv_nodup : NoDup (names (ordered w));
  inv_ordered : forall x, x ∈ names (ordered w) -> x ∈ added w;
  inv_stack : forall x, x ∈ stack -> x ∈ added w /\ x ∉ names (ordered w)
}.

Lemma walkInv_mark stack w name :
  name ∉ added w -> walkInv stack w -> walkInv (name :: stack) (mark name w).
Proof.
  intros Hnew [H1 H2 H3 H4 H5 H6]. split; cbn; try done.
  - intros x [->%elem_of_singleton|Hx]%elem_of_union.
    + right. apply list_elem_of_here.
    + destruct (H1 x Hx); [by left|right; by apply list_elem_of_further].
  - intros x Hx. apply elem_of_union. right. by apply H5.
  - intros x [-> |Hx]%elem_of_cons.
    + split; [apply elem_of_union; left; by apply elem_of_singleton|].
      intros Hin. by apply Hnew, H5.
    + destruct (H6 x Hx). split; [apply elem_of_union; by right|done].
Qed.

Lemma walkInv_push stack w service :
  service ∈ ProjectServices project ->
  reachable project edges services (Name service) ->
  (forall b, b ∈ edges service -> b ∈ names (ordered w)) ->
  (forall x, x ∈ stack -> x <> Name service) ->
  walkInv (Name service :: stack) w -> walkInv stack (push service w).
Proof.
  intros Hin Hreach Hsucc Hstack [H1 H2 H3 H4 H5 H6].
  destruct (H6 (Name service)) as [Hadded Hfresh]; [apply list_elem_of_here|].
  split; cbn; unfold names in *; rewrite ?fmap_app; cbn.
  - intros x Hx. destruct (H1 x Hx) as [Hord|[-> |Hst]%elem_of_cons].
    + left. apply elem_of_app. by left.
    + left. apply elem_of_app. right. apply list_elem_of_here.
    + by right.
  - intros i a b [ [Hi Hlook] | [-> <-] ]%lookup_snoc_Some Hb.
    + rewrite take_app_le by lia. by eapply H2.
    + rewrite take_app_length. by apply Hsucc.
  - intros a [Ha| ->%list_elem_of_singleton]%elem_of_app; [by apply H3|done].
  - apply NoDup_app. split; [done|]. split; [|apply NoDup_singleton].
    intros x Hx ->%list_elem_of_singleton. done.
  - intros x [Hx| ->%list_elem_of_singleton]%elem_of_app; [by apply H5|done].
  - intros x Hx. destruct (H6 x) as [Hxa Hxo]; [by apply list_elem_of_further|].
    split; [done|].
    intros [?| ->%list_elem_of_singleton]%elem_of_app; [done|].
    by apply (Hstack (Name service)).
Qed.

Lemma walkFrom_inv depth : forall service w w' stack,
  walkFrom project edges depth service w = Some w' ->
  service ∈ ProjectServices project ->
  Name service ∉ added w ->
  reachable project edges services (Name service) ->
  (forall x, x ∈ stack -> tc (edge project edges) x (Name service)) ->
  walkInv stack w ->
  walkInv stack w'
  /\ Name service ∈ names (ordered w')
  /\ (forall x, x ∈ names (ordered w) -> x ∈ names (ordered w')).
Proof.
  induction depth as [|depth IH]; intros service w w' stack Hrun Hin Hnew
    Hreach Hstack Hinv; [done|].
  cbn in Hrun.
  destruct (rangeO _ (edges service) (mark (Name service) w)) as [w1|] eqn:Hloop;
    [|done].
  cbn in Hrun. injection Hrun as <-.
  assert (Hedge : forall b, b ∈ edges service ->
                    edge project edges (Name service) b).
  { intros b Hb. by exists service. }
  assert (Hbody : forall l wa wb,
    rangeO (fun w name =>
              if bool_decide (name ∈ added w) then Some w
              else walkFrom project edges depth (projectService project name) w)
           l wa = Some wb ->
    (forall b, b ∈ l -> b ∈ edges service) ->
    walkInv (Name service :: stack) wa ->
    walkInv (Name service :: stack) wb
    /\ (forall x, x ∈ names (ordered wa) -> x ∈ names (ordered wb))
    /\ (forall b, b ∈ l -> b ∈ names (ordered wb))).
  { induction l as [|b l IHl]; intros wa wb Hl Hsub Hwa; cbn [rangeO] in Hl.
    { injection Hl as <-. split; [done|]. split; [done|].
      intros b Hb. by apply elem_of_nil in Hb. }
    assert (Hb : b ∈ edges service) by apply Hsub, list_elem_of_here.
    assert (Hstep : exists wm,
      rangeO (fun w name =>
                if bool_decide (name ∈ added w) then Some w
                else walkFrom project edges depth
                       (projectService project name) w) l wm = Some wb
      /\ walkInv (Name service :: stack) wm
      /\ (forall x, x ∈ names (ordered wa) -> x ∈ names (ordered wm))
      /\ b ∈ names (ordered wm)).
    { destruct (bool_decide (b ∈ added wa)) eqn:Hseen.
      - apply bool_decide_eq_true in Hseen. exists wa. cbn in Hl.
        split; [done|]. split; [done|]. split; [done|].
        destruct (inv_added _ _ Hwa b Hseen) as [?|[-> |Hst]%elem_of_cons];
          [done|exfalso..].
        + apply (acyclic (Name service)), tc_once, Hedge, Hb.
        + apply (acyclic b). eapply tc_r; [by apply Hstack|by apply Hedge].
      - apply bool_decide_eq_false in Hseen.
        destruct (edges_exist service b Hin Hb) as [sb Hsb].
        assert (Hps : projectService project b = sb)
          by (unfold projectService; by rewrite Hsb).
        rewrite Hps in Hl.
        destruct (walkFrom project edges depth sb wa) as [wm|] eqn:Hvisit;
          [|done].
        cbn in Hl. exists wm. split; [done|].
        pose proof (getService_Name _ _ _ Hsb) as Hname.
        destruct (IH sb wa wm (Name service :: stack) Hvisit)
          as (Hwm & Hbm & Hmono).
        + by eapply getService_elem.
        + by rewrite Hname.
        + destruct Hreach as (s0 & Hs0 & Hpath). exists s0. split; [done|].
          rewrite Hname. eapply rtc_r; [exact Hpath|by apply Hedge].
        + rewrite Hname. intros x [-> |Hx]%elem_of_cons.
          * by apply tc_once, Hedge.
          * eapply tc_r; [by apply Hstack|by apply Hedge].
        + done.
        + rewrite Hname in Hbm. done. }
    destruct Hstep as (wm & Hrest & Hwm & Hmono & Hbm).
    destruct (IHl wm wb Hrest) as (Hwb & Hmono' & Hall); [|done|].
    { intros b' Hb'. by apply Hsub, list_elem_of_further. }
    split; [done|]. split; [by auto|].
    intros b' [-> |Hb']%elem_of_cons; [by apply Hmono'|by apply Hall]. }
  destruct (Hbody _ _ _ Hloop) as (Hw1 & Hmono & Hall); [done|by apply walkInv_mark|].
  split; [|split].
  - apply walkInv_push; try done.
    intros x Hx ->. by apply Hnew, (inv_stack _ _ Hinv).
  - unfold names. cbn. rewrite fmap_app. apply elem_of_app. right.
    apply list_elem_of_here.
  - intros x Hx. unfold names. cbn. rewrite fmap_app. apply elem_of_app. left.
    by apply Hmono.
Qed.

Lemma walkInv_start : walkInv [] {| added := ∅; ordered := [] |}.
Proof.
  split; cbn.
  - intros x Hx. by apply not_elem_of_empty in Hx.
  - intros i a b Hi. by rewrite lookup_nil in Hi.
  - intros a Ha. by apply elem_of_nil in Ha.
  - apply NoDup_nil_2.
  - intros x Hx. by apply elem_of_nil in Hx.
  - intros x Hx. by apply elem_of_nil in Hx.
Qed.

Lemma walkAll_inv w :
  walkAll project edges services = Some w ->
  walkInv [] w /\ forall s, s ∈ services -> Name s ∈ names (ordered w).
Proof.
  unfold walkAll. intros Hrun.
  assert (Hloop : forall l w0 w1,
    rangeO (fun w service =>
              if bool_decide (Name service ∈ added w) then Some w
              else walkFrom project edges (depthBound project) service w)
           l w0 = Some w1 ->
    (forall s, s ∈ l -> s ∈ services) ->
    walkInv [] w0 ->
    walkInv [] w1
    /\ (forall x, x ∈ names (ordered w0) -> x ∈ names (ordered w1))
    /\ (forall s, s ∈ l -> Name s ∈ names (ordered w1))).
  { induction l as [|s l IHl]; intros w0 w1 Hl Hsub Hw0; cbn [rangeO] in Hl.
    { injection Hl as <-. split; [done|]. split; [done|].
      intros s Hs. by apply elem_of_nil in Hs. }
    assert (Hs : s ∈ services) by apply Hsub, list_elem_of_here.
    assert (Hstep : exists wm,
      rangeO (fun w service =>
                if bool_decide (Name service ∈ added w) then Some w
                else walkFrom project edges (depthBound project) service w)
             l wm = Some w1
      /\ walkInv [] wm
      /\ (forall x, x ∈ names (ordered w0) -> x ∈ names (ordered wm))
      /\ Name s ∈ names (ordered wm)).
    { destruct (bool_decide (Name s ∈ added w0)) eqn:Hseen.
      - apply bool_decide_eq_true in Hseen. exists w0.
        split; [done|]. split; [done|]. split; [done|].
        destruct (inv_added _ _ Hw0 _ Hseen) as [?|Hnil]; [done|].
        by apply elem_of_nil in Hnil.
      - apply bool_decide_eq_false in Hseen.
        destruct (walkFrom project edges (depthBound project) s w0)
          as [wm|] eqn:Hvisit; [|done].
        exists wm. split; [done|].
        destruct (walkFrom_inv _ _ _ _ [] Hvisit) as (Hwm & Hsm & Hmono);
          try done.
        + by apply services_sub.
        + exists s. split; [done|]. apply rtc_refl.
        + intros x Hx. by apply elem_of_nil in Hx. }
    destruct Hstep as (wm & Hrest & Hwm & Hmono & Hsm).
    destruct (IHl wm w1 Hrest) as (Hw1 & Hmono' & Hall); [|done|].
    { intros s' Hs'. by apply Hsub, list_elem_of_further. }
    split; [done|]. split; [by auto|].
    intros s' [-> |Hs']%elem_of_cons; [by apply Hmono'|by apply Hall]. }
  destruct (Hloop _ _ _ Hrun) as (Hw & _ & Hall); [done|apply walkInv_start|].
  by split.
Qed.

(** The traversal returns the services that can be reached, each once,
    every one after its successors. *)
Lemma walkAll_topological w :
  walkAll project edges services = Some w ->
  successorsFirst edges (ordered w)
  /\ NoDup (names (ordered w))
  /\ (forall x, x ∈ names (ordered w) <-> reachable project edges services x).
Proof.
  intros Hrun. destruct (walkAll_inv w Hrun) as [Hinv Hall].
  split; [apply Hinv|]. split; [apply Hinv|]. intros x. split.
  - intros (a & -> & Ha)%list_elem_of_fmap. by apply (inv_reach _ _ Hinv).
  - intros (s & Hs & Hpath). revert x Hpath.
    apply (rtc_ind_r (fun x => x ∈ names (ordered w)) (Name s)).
    + by apply Hall.
    + intros y z Hy Hyz IH. destruct Hyz as (sy & Hsy & <- & Hz).
      apply list_elem_of_fmap in IH as (a & Hname & Ha).
      assert (a = sy) as ->.
      { apply (names_inj (ProjectServices project));
          [done|by apply (inv_reach _ _ Hinv)|done|done]. }
      apply list_elem_of_lookup in Ha as [i Hi].
      pose proof (inv_first _ _ Hinv i sy z Hi Hz) as Hbefore.
      unfold names in *. rewrite fmap_take in Hbefore.
      by eapply subseteq_take.
Qed.

End walk_correct.

(** *** Every service that was asked for is in the result *)

Lemma names_push service w :
  names (ordered (push service w)) = names (ordered w) ++ [Name service].
Proof. unfold names. cbn. by rewrite fmap_app. Qed.

Section walk_covers.

Context (project : Project) (edges : ServiceConfig -> list string).

(** What is marked is in the result or still being visited. *)
Definition covered (stack : list string) (w : walk) : Prop :=
  forall x, x ∈ added w -> x ∈ names (ordered w) \/ x ∈ stack.

Lemma walkFrom_covers depth : forall service w w' stack,
  walkFrom project edges depth service w = Some w' ->
  covered stack w ->
  covered stack w' /\ Name service ∈ names (ordered w')
  /\ (forall x, x ∈ names (ordered w) -> x ∈ names (ordered w')).
Proof.
  induction depth as [|depth IH]; intros service w w' stack Hrun Hcov; [done|].
  cbn in Hrun.
  destruct (rangeO _ (edges service) (mark (Name service) w)) as [w1|] eqn:Hloop;
    [|done].
  cbn in Hrun. injection Hrun as <-.
  assert (Hbody : forall l wa wb,
    rangeO (fun w name =>
              if bool_decide (name ∈ added w) then Some w
              else walkFrom project edges depth (projectService project name) w)
           l wa = Some wb ->
    covered (Name service :: stack) wa ->
    covered (Name service :: stack) wb
    /\ (forall x, x ∈ names (ordered wa) -> x ∈ names (ordered wb))).
  { induction l as [|b l IHl]; intros wa wb Hl Hwa; cbn [rangeO] in Hl.
    { by injection Hl as <-. }
    destruct (bool_decide (b ∈ added wa)); [by apply IHl|].
    destruct (walkFrom project edges depth (projectService project b) wa)
      as [wm|] eqn:Hvisit; [|done].
    destruct (IH _ _ _ _ Hvisit Hwa) as (Hwm & _ & Hmono).
    destruct (IHl wm wb Hl Hwm) as [Hwb Hmono']. split; [done|by auto]. }
  destruct (Hbody _ _ _ Hloop) as [Hw1 Hmono].
  { intros x [->%elem_of_singleton|Hx]%elem_of_union.
    - right. apply list_elem_of_here.
    - destruct (Hcov x Hx); [by left|right; by apply list_elem_of_further]. }
  split; [|split].
  - intros x Hx. rewrite names_push.
    destruct (Hw1 x Hx) as [Hord|[-> |Hst]%elem_of_cons].
    + left. apply elem_of_app. by left.
    + left. apply elem_of_app. right. apply list_elem_of_here.
    + by right.
  - rewrite names_push. apply elem_of_app. right. apply list_elem_of_here.
  - intros x Hx. rewrite names_push. apply elem_of_app. left. by apply Hmono.
Qed.

Lemma walkAll_covers services w :
  walkAll project edges services = Some w ->
  forall s, s ∈ services -> Name s ∈ names (ordered w).
Proof.
  unfold walkAll.
  assert (Hloop : forall l w0 w1,
    rangeO (fun w service =>
              if bool_decide (Name service ∈ added w) then Some w
              else walkFrom project edges (depthBound project) service w)
           l w0 = Some w1 ->
    covered [] w0 ->
    covered [] w1
    /\ (forall x, x ∈ names (ordered w0) -> x ∈ names (ordered w1))
    /\ (forall s, s ∈ l -> Name s ∈ names (ordered w1))).
  { induction l as [|s l IHl]; intros w0 w1 Hl Hw0; cbn [rangeO] in Hl.
    { injection Hl as <-. split; [done|]. split; [done|].
      intros s Hs. by apply elem_of_nil in Hs. }
    destruct (bool_decide (Name s ∈ added w0)) eqn:Hseen.
    - apply bool_decide_eq_true in Hseen.
      destruct (IHl w0 w1 Hl Hw0) as (Hw1 & Hmono & Hall).
      split; [done|]. split; [done|].
      intros s' [-> |Hs']%elem_of_cons; [|by apply Hall].
      apply Hmono. destruct (Hw0 _ Hseen) as [?|Hnil]; [done|].
      by apply elem_of_nil in Hnil.
    - destruct (walkFrom project edges (depthBound project) s w0)
        as [wm|] eqn:Hvisit; [|done].
      destruct (walkFrom_covers _ _ _ _ _ Hvisit Hw0) as (Hwm & Hsm & Hmono).
      destruct (IHl wm w1 Hl Hwm) as (Hw1 & Hmono' & Hall).
      split; [done|]. split; [by auto|].
      intros s' [-> |Hs']%elem_of_cons; [by apply Hmono'|by apply Hall]. }
  intros Hrun. eapply Hloop; [exact Hrun|].
  intros x Hx. by apply not_elem_of_empty in Hx.
Qed.

End walk_covers.

Lemma getService_is_Some services s :
  s ∈ services -> is_Some (getService (Name s) services).
Proof.
  induction services as [|s' services IH]; intros Hin;
    [by apply elem_of_nil in Hin|]. cbn.
  destruct (String.eqb_spec (Name s') (Name s)); [by eexists|].
  apply elem_of_cons in Hin as [-> |Hin]; [done|by apply IH].
Qed.

Lemma dependencyEdges_missing project services expand service name :
  name ∈ dependencyEdges services expand service ->
  getService name (ProjectServices project) = None ->
  dependencyEdges services expand zeroService = [].
Proof. done. Qed.

Lemma dependantEdges_missing project services expand service name :
  name ∈ dependantEdges project services expand service ->
  getService name (ProjectServices project) = None ->
  dependantEdges project services expand zeroService = [].
Proof.
  unfold dependantEdges, GetDependents.
  intros [_ Hin]%list_elem_of_filter Hnone. exfalso.
  apply list_elem_of_bind in Hin as (s & Hin & Hs).
  apply list_elem_of_fmap in Hin as (entry & -> & _).
  apply getService_is_Some in Hs. rewrite Hnone in Hs. by destruct Hs.
Qed.

(** [a] depends on [b], and [b] is required. *)
Definition requires (project : Project) (a b : string) : Prop :=
  exists s dependency,
    s ∈ ProjectServices project /\ Name s = a
    /\ (b, dependency) ∈ DependsOn s /\ Required dependency = true.

(** C5 as the specification words it: on a project whose required
    edges contain a cycle no ordering is returned. *)
Definition cycleIsReported (project : Project) (services : Services)
    (expand : bool) : Prop :=
  (exists a, tc (requires project) a a) ->
  forall l, ServicesOrderedByDependencies project services expand <> Some l.

Definition knot : Project :=
  {| ProjectServices :=
       [ {| Name := "a"; Networks := [];
            DependsOn := [("b", {| Required := true |})] |};
         {| Name := "b"; Networks := [];
            DependsOn := [("a", {| Required := true |})] |} ];
     ProjectNetworks := [] |}.

Example knot_ordered :
  names <$> ServicesOrderedByDependencies knot (ProjectServices knot) true
  = Some ["b"; "a"].
Proof. vm_compute. reflexivity. Qed.

(** The two services depend on each other and are ordered all the
    same: the edge back to the service being visited is skipped. *)
Lemma cycle_is_not_reported :
  ~ cycleIsReported knot (ProjectServices knot) true.
Proof.
  intros Hclaim. eapply Hclaim; [|vm_compute; reflexivity].
  exists "a". eapply tc_l; [|apply tc_once].
  - eexists _, _. split; [apply list_elem_of_here|]. split; [done|].
    split; [apply list_elem_of_here|done].
  - eexists _, _. split; [apply list_elem_of_further, list_elem_of_here|].
    split; [done|]. split; [apply list_elem_of_here|done].
Qed.

(** C5, as the code has it.  The two orderings have no error result:
    for every project, every set of services and either value of
    [expand], with or without a cycle among the required edges, both
    return a list, and every service that was asked for is in it. *)
Theorem orderings_always_return (project : Project) (services : Services)
    (expand : bool) :
  exists l l',
    ServicesOrderedByDependencies project services expand = Some l
    /\ ServicesReversedByDependencies project services expand = Some l'
    /\ forall s, s ∈ services -> Name s ∈ names l /\ Name s ∈ names l'.
Proof.
  rewrite ServicesOrderedByDependencies_walk, ServicesReversedByDependencies_walk.
  destruct (walkAll_total project (dependencyEdges services expand)
              (dependencyEdges_missing project services expand) services)
    as [w Hw].
  destruct (walkAll_total project (dependantEdges project services expand)
              (dependantEdges_missing project services expand) services)
    as [w' Hw'].
  exists (ordered w), (ordered w'). rewrite Hw, Hw'.
  split; [done|]. split; [done|]. intros s Hs. split.
  - by eapply walkAll_covers.
  - by eapply walkAll_covers.
Qed.

(** *** The forward ordering with [expand] set *)

Lemma dependencyEdges_expand services s b :
  b ∈ dependencyEdges services true s
  <-> exists dependency,
        (b, dependency) ∈ DependsOn s /\ Required dependency = true.
Proof.
  unfold dependencyEdges. rewrite list_elem_of_fmap. split.
  - intros ([name dependency] & -> & [Hp Hin]%list_elem_of_filter).
    exists dependency. split; [done|]. cbn in Hp.
    by apply andb_prop in Hp as [_ ?].
  - intros (dependency & Hin & Hreq). exists (b, dependency). split; [done|].
    apply list_elem_of_filter. split; [|done]. cbn.
    rewrite Hreq. by rewrite orb_true_r.
Qed.

Lemma edge_requires project services a b :
  edge project (dependencyEdges services true) a b <-> requires project a b.
Proof.
  unfold edge, requires. split.
  - intros (s & Hs & Hname & (dependency & Hin & Hreq)%dependencyEdges_expand).
    by exists s, dependency.
  - intros (s & dependency & Hs & Hname & Hin & Hreq). exists s.
    split; [done|]. split; [done|]. apply dependencyEdges_expand.
    by exists dependency.
Qed.

Lemma tc_impl {A} (R1 R2 : relation A) x y :
  (forall a b, R1 a b -> R2 a b) -> tc R1 x y -> tc R2 x y.
Proof.
  intros Hsub. induction 1 as [a b Hab|a b c Hab _ IH].
  - by apply tc_once, Hsub.
  - eapply tc_l; [by apply Hsub|exact IH].
Qed.

Definition dbWeb : Services := reverse (ProjectServices webDb).

(** C6.  On a project whose service names are distinct, whose required
    dependencies are services of the project and form no cycle, and for
    a set of its services: the ordering with [expand] set lists every
    service after all the services it requires, and lists exactly the
    services that can be reached from the set along required edges.
    And the project in which [web] depends on [db] is ordered
    [db, web], and reversed [web, db], without [expand], in whichever
    order the map of the two services is ranged over. *)
Theorem ServicesOrderedByDependencies_topological :
  (forall (project : Project) (services : Services),
     NoDup (names (ProjectServices project)) ->
     (forall s, s ∈ services -> s ∈ ProjectServices project) ->
     (forall s name dependency,
        s ∈ ProjectServices project -> (name, dependency) ∈ DependsOn s ->
        Required dependency = true ->
        is_Some (getService name (ProjectServices project))) ->
     (forall a, ~ tc (requires project) a a) ->
     exists l,
       ServicesOrderedByDependencies project services true = Some l
       /\ (forall l1 a l2 b dependency,
             l = l1 ++ a :: l2 -> (b, dependency) ∈ DependsOn a ->
             Required dependency = true -> b ∈ names l1)
       /\ (forall x, x ∈ names l <->
             exists s, s ∈ services /\ rtc (requires project) (Name s) x))
  /\ names <$> ServicesOrderedByDependencies webDb (ProjectServices webDb) false
     = Some ["db"; "web"]
  /\ names <$> ServicesOrderedByDependencies webDb dbWeb false
     = Some ["db"; "web"]
  /\ names <$> ServicesReversedByDependencies webDb (ProjectServices webDb) false
     = Some ["web"; "db"]
  /\ names <$> ServicesReversedByDependencies webDb dbWeb false
     = Some ["web"; "db"].
Proof.
  split; [|repeat split; vm_compute; reflexivity].
  intros project services Hnames Hsub Hexist Hacyclic.
  rewrite ServicesOrderedByDependencies_walk.
  set (edges := dependencyEdges services true).
  destruct (walkAll_total project edges
              (dependencyEdges_missing project services true) services)
    as [w Hw].
  exists (ordered w). rewrite Hw. split; [done|].
  destruct (walkAll_topological project edges services) with (w := w)
    as (Hfirst & _ & Hreach); try done.
  { intros s name Hs (dependency & Hin & Hreq)%dependencyEdges_expand.
    by eapply Hexist. }
  { intros a Hcycle. apply (Hacyclic a). eapply tc_impl; [|exact Hcycle].
    intros x y. apply edge_requires. }
  split.
  - intros l1 a l2 b dependency Hl Hin Hreq.
    assert (Hb : b ∈ edges a) by (apply dependencyEdges_expand; eauto).
    assert (Hi : ordered w !! length l1 = Some a)
      by (rewrite Hl; apply list_lookup_middle; done).
    specialize (Hfirst _ _ _ Hi Hb).
    by rewrite Hl, take_app_length in Hfirst.
  - intros x. rewrite Hreach. unfold reachable. split.
    + intros (s & Hs & Hpath). exists s. split; [done|].
      eapply rtc_subrel; [|exact Hpath]. intros a b. apply edge_requires.
    + intros (s & Hs & Hpath). exists s. split; [done|].
      eapply rtc_subrel; [|exact Hpath]. intros a b. apply edge_requires.
Qed.

Lemma webDb_acyclic a : ~ tc (requires webDb) a a.
Proof.
  assert (Hstep : forall x y, requires webDb x y -> x = "web" /\ y = "db").
  { intros x y (s & dependency & Hs & <- & Hin & _). cbn in Hs.
    apply elem_of_cons in Hs as [-> |Hs].
    - cbn in Hin. apply list_elem_of_singleton in Hin. by injection Hin as -> _.
    - apply list_elem_of_singleton in Hs as ->. cbn in Hin.
      by apply elem_of_nil in Hin. }
  assert (Hend : forall x y, tc (requires webDb) x y -> y = "db").
  { induction 1 as [x y Hxy|x y z Hxy _ IH]; [by apply Hstep in Hxy as [_ ?]|done]. }
  intros Hcycle. pose proof (Hend _ _ Hcycle) as ->.
  inversion Hcycle as [x y Hxy|x y z Hxy _]; subst;
    by apply Hstep in Hxy as [? _].
Defined.

Lemma ServicesOrderedByDependencies_topological_witness :
  exists l,
    ServicesOrderedByDependencies webDb (ProjectServices webDb) true = Some l
    /\ (forall l1 a l2 b dependency,
          l = l1 ++ a :: l2 -> (b, dependency) ∈ DependsOn a ->
          Required dependency = true -> b ∈ names l1)
    /\ (forall x, x ∈ names l <->
          exists s, s ∈ ProjectServices webDb
                    /\ rtc (requires webDb) (Name s) x).
Proof.
  apply (proj1 ServicesOrderedByDependencies_topological webDb
           (ProjectServices webDb)).
  - compute_done.
  - intros s Hs. exact Hs.
  - intros s name dependency Hs Hin _. cbn in Hs.
    apply elem_of_cons in Hs as [-> |Hs].
    + cbn in Hin. apply list_elem_of_singleton in Hin. injection Hin as -> _.
      vm_compute. by eexists.
    + apply list_elem_of_singleton in Hs as ->. cbn in Hin.
      by apply elem_of_nil in Hin.
  - exact webDb_acyclic.
Defined.

(** C6 as the specification words it, for every project with acyclic
    required dependencies and every subset of its services: the
    ordering with [expand] set lists every required dependency before
    the service that has it, and lists exactly the transitive closure
    of the set under required edges. *)
Definition orderingIsClosure (project : Project) (services : Services) : Prop :=
  (forall s, s ∈ services -> s ∈ ProjectServices project) ->
  (forall a, ~ tc (requires project) a a) ->
  exists l,
    ServicesOrderedByDependencies project services true = Some l
    /\ (forall l1 a l2 b dependency,
          l = l1 ++ a :: l2 -> (b, dependency) ∈ DependsOn a ->
          Required dependency = true -> b ∈ names l1)
    /\ (forall x, x ∈ names l <->
          exists s, s ∈ services /\ rtc (requires project) (Name s) x).

(** A service whose required dependency is not a service of the
    project. *)
Definition ghost : Project :=
  {| ProjectServices :=
       [ {| Name := "a"; Networks := [];
            DependsOn := [("ghost", {| Required := true |})] |} ];
     ProjectNetworks := [] |}.

Example ghost_ordered :
  names <$> ServicesOrderedByDependencies ghost (ProjectServices ghost) true
  = Some [""; "a"].
Proof. vm_compute. reflexivity. Qed.

(** The dependency is looked up in the map of the services, reads as
    the zero service and is listed under the empty name: the name that
    [a] requires is not in the list. *)
Lemma ghost_dependency : ~ orderingIsClosure ghost (ProjectServices ghost).
Proof.
  intros Hclaim.
  assert (Hstep : forall x y, requires ghost x y -> x = "a" /\ y = "ghost").
  { intros x y (s & dependency & Hs & <- & Hin & _). cbn in Hs.
    apply list_elem_of_singleton in Hs as ->. cbn in Hin.
    apply list_elem_of_singleton in Hin. by injection Hin as -> _. }
  destruct Hclaim as (l & Hl & Hfirst & _).
  - intros s Hs. exact Hs.
  - assert (Hend : forall x y, tc (requires ghost) x y -> y = "ghost").
    { induction 1 as [x y Hxy|x y z Hxy _ IH];
        [by apply Hstep in Hxy as [_ ?]|done]. }
    intros a Hcycle. pose proof (Hend _ _ Hcycle) as ->.
    inversion Hcycle as [x y Hxy|x y z Hxy _]; subst;
      by apply Hstep in Hxy as [? _].
  - vm_compute in Hl. injection Hl as <-.
    specialize (Hfirst [zeroService]
                  {| Name := "a"; Networks := [];
                     DependsOn := [("ghost", {| Required := true |})] |}
                  [] "ghost" {| Required := true |} eq_refl).
    cbn in Hfirst.
    assert (Hin : "ghost" ∈ [""]) by (apply Hfirst; [apply list_elem_of_here|done]).
    apply list_elem_of_singleton in Hin. discriminate.
Qed.

Definition staticAddress (addr : string) : option ServiceNetworkConfig :=
  Some {| Ipv4Address := addr |}.

(** C10.  A project with an external network that carries an IPAM pool
    and a service attached to it: with a static address the pass over
    the static addresses panics, without one the assignment pass
    panics; both write into the inner map that was never made. *)
Theorem AssignIPs_external_ipam_panics :
  AssignIPs (text := ipv4Text) [("web", "ext")]
            (extProject (staticAddress "10.0.0.5")) = Panic nilMapPanic
  /\ AssignIPs (text := ipv4Text) [("web", "ext")] (extProject None)
     = Panic nilMapPanic.
Proof. split; vm_compute; reflexivity. Qed.

Definition lan : NetworkConfig :=
  {| NetworkName := "lan"; External := false;
     Ipam_Config := [{| Subnet := "10.0.0.0/24"; Gateway := "10.0.0.254" |}] |}.

Definition onLan (name : string) (net : option ServiceNetworkConfig)
    : ServiceConfig :=
  {| Name := name; Networks := [("lan", net)]; DependsOn := [] |}.

Definition lanProject (a b : option ServiceNetworkConfig) : Project :=
  {| ProjectServices := [onLan "a" a; onLan "b" b];
     ProjectNetworks := [("lan", lan)] |}.

Definition lanSchedule : list (string * string) := [("b", "lan"); ("a", "lan")].

Example AssignIPs_lan :
  AssignIPs (text := ipv4Text) lanSchedule (lanProject None None)
  = Ok (lanProject (staticAddress "10.0.0.2") (staticAddress "10.0.0.1")).
Proof. vm_compute. reflexivity. Qed.


(** C4 as the specification words its middle part: after a run without
    error no two attachments to one network hold the same address. *)
Definition AssignIPs_keeps_addresses_distinct
    (schedule : list (string * string)) (project : Project) : Prop :=
  forall project',
    AssignIPs (text := ipv4Text) schedule project = Ok project' ->
    distinctAddresses (ProjectServices project').


(** [net.ParseIP] also reads the IPv4-mapped spelling [::ffff:a.b.c.d]
    of an address, and [String] prints such an address in dotted
    form. *)
Definition parseIPMapped (s : string) : option IP :=
  if String.prefix "::ffff:" s
  then parseIPv4 (String.substring 7 (String.length s - 7) s)
  else parseIPv4 s.

Definition mappedText : Text :=
  {| ParseCIDR := parseCIDRv4; ParseIP := parseIPMapped;
     IP_String := stringIPv4 |}.

Definition mappedLan : NetworkConfig :=
  {| NetworkName := "lan"; External := false;
     Ipam_Config :=
       [{| Subnet := "10.0.0.0/24"; Gateway := "::ffff:10.0.0.1" |}] |}.

Definition mappedProject (a : option ServiceNetworkConfig) : Project :=
  {| ProjectServices := [onLan "a" a];
     ProjectNetworks := [("lan", mappedLan)] |}.

(** The gateway is reserved under the text that the project gives for
    it and the scan looks for the text that [String] prints: a gateway
    in another spelling is handed out to a service. *)
Lemma AssignIPs_gateway_spelling :
  AssignIPs (text := mappedText) [("a", "lan")] (mappedProject None)
  = Ok (mappedProject (staticAddress "10.0.0.1"))
  /\ parseIPMapped "::ffff:10.0.0.1" = parseIPMapped "10.0.0.1".
Proof. split; vm_compute; reflexivity. Qed.

(** *** What [AssignIPs] leaves as it was *)

Section AssignIPs_keeps.

Context {text : Text}.

Lemma assignNetwork_keeps networks usedAddresses name network usedAddresses' network' :
  assignNetwork networks usedAddresses name network
    = Ok (usedAddresses', network') ->
  addressOf network <> "" -> addressOf network' = addressOf network.
Proof.
  unfold assignNetwork. intros H Hne.
  set (nw := default {| Ipv4Address := "" |} network) in *.
  assert (Hnw : addressOf (Some nw) = addressOf network) by (by destruct network).
  destruct (alookup name networks) as [projectNetwork|];
    [|by injection H as <- <-].
  destruct (Ipam_Config projectNetwork) as [|config0 rest];
    [by injection H as <- <-|].
  destruct (String.eqb_spec (Ipv4Address nw) "") as [Heq|Hneq]; cbn in H;
    [|by injection H as <- <-].
  cbn in Hnw. congruence.
Qed.

Lemma names_setService service services :
  names (setService service services) = names services.
Proof.
  unfold names. induction services as [|s services IH]; [done|]. cbn.
  destruct (String.eqb_spec (Name s) (Name service)) as [Heq|Hne]; cbn.
  - by rewrite Heq.
  - by rewrite IH.
Qed.

(** What one body of the parallel pass keeps of the services it was
    given: the services and their attachments, and every address that
    was set. *)
Definition keeps (services0 services : Services) : Prop :=
  names services = names services0
  /\ (forall svc name,
        attachedAddress services0 svc name = None
        <-> attachedAddress services svc name = None)
  /\ (forall svc name addr,
        attachedAddress services0 svc name = Some addr -> addr <> "" ->
        attachedAddress services svc name = Some addr).

Lemma assignAttachment_keeps networks services0 st key st' :
  assignAttachment networks st key = Ok st' ->
  keeps services0 st.2 -> keeps services0 st'.2.
Proof.
  destruct st as [usedAddresses services], key as [svc name].
  unfold assignAttachment. intros H (Hnames & Hnone & Hkeep).
  destruct (getService svc services) as [service|] eqn:Hget;
    [|by injection H as <-].
  destruct (alookup name (Networks service)) as [network|] eqn:Hnet;
    [|by injection H as <-].
  destruct (assignNetwork networks usedAddresses name network)
    as [[usedAddresses' network']| | |] eqn:Hbody; try discriminate.
  cbn in H. injection H as <-. cbn [snd] in *.
  pose proof (getService_Name _ _ _ Hget) as Hname. subst svc.
  pose proof (attachedAddress_set services service name network') as Hset.
  assert (Hold : attachedAddress services (Name service) name
                 = Some (addressOf network)).
  { unfold attachedAddress. rewrite Hget. cbn. by rewrite Hnet. }
  split; [by rewrite names_setService|]. split.
  - intros svc' name'. rewrite (Hset svc' name' network Hget Hnet).
    case_decide as Hd; [|apply Hnone].
    destruct Hd as [-> ->]. split; [|done].
    intros H0. apply Hnone in H0. by rewrite Hold in H0.
  - intros svc' name' addr H0 Hne.
    rewrite (Hset svc' name' network Hget Hnet).
    case_decide as Hd; [|by apply Hkeep].
    destruct Hd as [-> ->]. pose proof (Hkeep _ _ _ H0 Hne) as H1.
    rewrite Hold in H1. injection H1 as H1.
    rewrite (assignNetwork_keeps _ _ _ _ _ _ Hbody); congruence.
Qed.

(** X19.  A run of [AssignIPs] that returns without error, under every
    order of the parallel pass, keeps the services and their attachments
    as they were (none is added, dropped or renamed) and keeps every
    address that an attachment already had: only attachments without an
    address are written. *)
Theorem AssignIPs_keeps_addresses schedule project project' :
  AssignIPs schedule project = Ok project' ->
  names (ProjectServices project') = names (ProjectServices project)
  /\ (forall svc name,
        attachedAddress (ProjectServices project) svc name = None
        <-> attachedAddress (ProjectServices project') svc name = None)
  /\ (forall svc name addr,
        attachedAddress (ProjectServices project) svc name = Some addr ->
        addr <> "" ->
        attachedAddress (ProjectServices project') svc name = Some addr).
Proof.
  intros H. unfold AssignIPs in H.
  destruct (rangeM reserveNetwork _ _) as [[used1 networks]| | |] eqn:H1;
    try discriminate. cbn in H.
  destruct (rangeM (reserveStatics networks) _ _) as [used2| | |] eqn:H2;
    try discriminate. cbn in H.
  destruct (rangeM (assignAttachment networks) _ _) as [[used3 services]| | |]
    eqn:H3; try discriminate. cbn in H. injection H as <-. cbn.
  change (keeps (ProjectServices project) (used3, services).2).
  refine (rangeM_inv _ (fun st => keeps (ProjectServices project) st.2)
            schedule _ (used2, ProjectServices project) _ _ H3).
  - intros st key st' _ Hst Hbody. by eapply assignAttachment_keeps.
  - by split.
Qed.

Lemma reserveStatics_exist networks services usedAddresses usedAddresses' :
  rangeM (reserveStatics networks) services usedAddresses = Ok usedAddresses' ->
  forall s entry, s ∈ services -> entry ∈ Networks s ->
    is_Some (alookup entry.1 networks).
Proof.
  intros Hrun s entry Hs Hentry.
  apply (rangeM_collect _ (fun _ _ => True)
           (fun service _ => forall entry, entry ∈ Networks service ->
                               is_Some (alookup entry.1 networks))) in Hrun;
    try done.
  - destruct Hrun as [_ Hall]. by apply (Hall s).
  - intros u service u' Hbody. split; [done|]. unfold reserveStatics in Hbody.
    apply (rangeM_collect _ (fun _ _ => True)
             (fun entry _ => is_Some (alookup entry.1 networks))) in Hbody;
      try done.
    + by destruct Hbody.
    + intros u0 [name network] u1. unfold reserveStatic. cbn.
      destruct (alookup name networks); [by eexists|discriminate].
Qed.

(** X20.  When [AssignIPs] returns without error, every network that a
    service of the project is attached to is a network of the project,
    and every attachment that holds an address afterwards, static or
    assigned, is on a network that is not external and whose first IPAM
    pool (after the join) has a subnet that parses. *)
Theorem AssignIPs_attachments schedule project project' :
  AssignIPs schedule project = Ok project' ->
  (forall s name cfg,
     s ∈ ProjectServices project -> (name, cfg) ∈ Networks s ->
     is_Some (alookup name (ProjectNetworks project')))
  /\ (forall svc name addr,
        attachedAddress (ProjectServices project') svc name = Some addr ->
        addr <> "" ->
        exists network cfg rest subnetIP subnet,
          alookup name (ProjectNetworks project') = Some network
          /\ External network = false
          /\ Ipam_Config network = cfg :: rest
          /\ ParseCIDR (Subnet cfg) = Some (subnetIP, subnet)).
Proof.
  intros H. unfold AssignIPs in H.
  destruct (rangeM reserveNetwork _ _) as [[used1 networks]| | |] eqn:H1;
    try discriminate. cbn in H.
  destruct (rangeM (reserveStatics networks) _ _) as [used2| | |] eqn:H2;
    try discriminate. cbn in H.
  destruct (rangeM (assignAttachment networks) _ _) as [[used3 services]| | |]
    eqn:H3; try discriminate. cbn in H. injection H as <-. cbn.
  split.
  - intros s name cfg Hs Hin.
    apply (reserveStatics_exist _ _ _ _ H2 s (name, cfg) Hs Hin).
  - apply reserveNetworks_ok in H1;
      [|intros i nw Hin; by eapply alookup_elem
       |intros name u Hu; by simplify_map_eq].
    pose proof H2 as H2'. apply reserveStatics_ok in H2' as [Hle Hheld].
    assert (Hinv : passInv networks (ProjectServices project) (used3, services)).
    { refine (rangeM_inv _ (passInv networks (ProjectServices project)) schedule
                _ (used2, ProjectServices project) _ _ H3).
      - intros st key st' _ Hst Hbody. by eapply assignAttachment_ok.
      - split; [by eapply reservedOk_le|]. split; [done|].
        intros svc name addr Hempty Hatt Hne.
        change (attachedAddress (ProjectServices project) svc name = Some addr)
          in Hatt.
        congruence. }
    destruct Hinv as (Hres & Hheld' & _). cbn in Hres, Hheld'.
    intros svc name addr Hatt Hne.
    destruct (Hheld' _ _ _ Hatt Hne) as (u & Hu & _).
    destruct (Hres name u Hu)
      as (network & cfg & rest & subnetIP & subnet & Ha & Hb & Hc & Hd & _).
    by exists network, cfg, rest, subnetIP, subnet.
Qed.

Lemma rangeM_app {A S} (body : S -> A -> outcome S) l1 l2 s :
  rangeM body (l1 ++ l2) s = s' ← rangeM body l1 s; rangeM body l2 s'.
Proof.
  revert s. induction l1 as [|a l1 IH]; intros s; [done|]. cbn.
  destruct (body s a) as [s1| | |]; cbn; [apply IH|done..].
Qed.

Lemma keeps_refl services : keeps services services.
Proof. by split. Qed.

Lemma assignNetwork_addressed networks usedAddresses name network
    usedAddresses' network' projectNetwork cfg rest :
  (forall ip, IP_String ip <> "") ->
  assignNetwork networks usedAddresses name network
    = Ok (usedAddresses', network') ->
  alookup name networks = Some projectNetwork ->
  Ipam_Config projectNetwork = cfg :: rest ->
  addressOf network' <> "".
Proof.
  unfold assignNetwork. intros Htext H Hlook Hcfg.
  set (nw := default {| Ipv4Address := "" |} network) in *.
  rewrite Hlook, Hcfg in H.
  destruct (String.eqb_spec (Ipv4Address nw) "") as [Heq|Hneq]; cbn in H;
    [|by injection H as <- <-].
  destruct (ParseCIDR (Subnet cfg)) as [[sip subnet]|]; [|discriminate].
  destruct (scanFree _ _ subnet (netIP subnet)) as [ip|]; [|discriminate].
  destruct (Contains subnet ip); [|discriminate]. cbn in H.
  destruct (usedAddresses !! name) as [u|]; [|discriminate].
  injection H as <- <-. cbn. apply Htext.
Qed.

(** X21.  When [AssignIPs] returns without error, every attachment whose
    body ran and whose network has an IPAM pool holds an address
    afterwards (given that the text of an address is never empty). *)
Theorem AssignIPs_assigns schedule project project' svc name network cfg rest :
  (forall ip, IP_String ip <> "") ->
  AssignIPs schedule project = Ok project' ->
  (svc, name) ∈ schedule ->
  is_Some (attachedAddress (ProjectServices project) svc name) ->
  alookup name (ProjectNetworks project') = Some network ->
  Ipam_Config network = cfg :: rest ->
  exists addr,
    attachedAddress (ProjectServices project') svc name = Some addr
    /\ addr <> "".
Proof.
  intros Htext H Hin Hatt Hlook Hcfg. unfold AssignIPs in H.
  destruct (rangeM reserveNetwork _ _) as [[used1 networks]| | |] eqn:H1;
    try discriminate. cbn in H.
  destruct (rangeM (reserveStatics networks) _ _) as [used2| | |] eqn:H2;
    try discriminate. cbn in H.
  destruct (rangeM (assignAttachment networks) _ _) as [[used3 services]| | |]
    eqn:H3; try discriminate. cbn in H. injection H as <-. cbn in *.
  apply list_elem_of_split in Hin as (l1 & l2 & ->).
  rewrite rangeM_app in H3.
  destruct (rangeM (assignAttachment networks) l1 _) as [[u1 s1]| | |] eqn:Hl1;
    try discriminate.
  cbn [mbind outcome_bind rangeM] in H3.
  destruct (assignAttachment networks (u1, s1) (svc, name))
    as [[u2 s2]| | |] eqn:Hstep; try discriminate.
  cbn [mbind outcome_bind] in H3.
  assert (Hk1 : keeps (ProjectServices project) s1).
  { refine (rangeM_inv _ (fun st => keeps (ProjectServices project) st.2)
              l1 _ (used2, ProjectServices project) (u1, s1) _ Hl1).
    - intros st key st' _ Hst Hbody. by eapply assignAttachment_keeps.
    - apply keeps_refl. }
  assert (Hk2 : keeps s2 services).
  { refine (rangeM_inv _ (fun st => keeps s2 st.2)
              l2 _ (u2, s2) (used3, services) _ H3).
    - intros st key st' _ Hst Hbody. by eapply assignAttachment_keeps.
    - apply keeps_refl. }
  assert (Hatt1 : is_Some (attachedAddress s1 svc name)).
  { destruct Hk1 as (_ & Hnone & _).
    destruct (attachedAddress s1 svc name) eqn:E; [by eexists|].
    apply Hnone in E. rewrite E in Hatt. by destruct Hatt. }
  unfold assignAttachment in Hstep. unfold attachedAddress in Hatt1.
  destruct (getService svc s1) as [service|] eqn:Hget;
    [|by destruct Hatt1].
  cbn in Hatt1.
  destruct (alookup name (Networks service)) as [old|] eqn:Hnet;
    [|by destruct Hatt1].
  destruct (assignNetwork networks u1 name old)
    as [[u' network']| | |] eqn:Hbody; try discriminate.
  cbn in Hstep. injection Hstep as <- <-.
  pose proof (getService_Name _ _ _ Hget) as Hname. subst svc.
  pose proof (assignNetwork_addressed _ _ _ _ _ _ _ _ _
                Htext Hbody Hlook Hcfg) as Hne.
  exists (addressOf network'). split; [|exact Hne].
  destruct Hk2 as (_ & _ & Hkeep). apply Hkeep; [|exact Hne].
  rewrite (attachedAddress_set _ _ _ _ _ _ old Hget Hnet).
  rewrite decide_True; done.
Qed.

End AssignIPs_keeps.

(** *** The reverse ordering, and the orderings without [expand] *)

(** [a] has [b] as a key of its [DependsOn], and the dependency is
    required. *)
Definition dependsOn (project : Project) (a b : string) : Prop :=
  exists s dependency,
    s ∈ ProjectServices project /\ Name s = a
    /\ alookup b (DependsOn s) = Some dependency /\ Required dependency = true.

Lemma dependsOn_requires project a b :
  dependsOn project a b -> requires project a b.
Proof.
  intros (s & dependency & Hs & Hname & Hlook & Hreq).
  exists s, dependency. repeat split; try done. by apply alookup_Some.
Qed.

Lemma projectService_elem project s :
  NoDup (names (ProjectServices project)) ->
  s ∈ ProjectServices project -> projectService project (Name s) = s.
Proof.
  intros Hnd Hs. unfold projectService.
  destruct (getService_is_Some _ _ Hs) as [s' Hget]. rewrite Hget. cbn.
  apply (names_inj (ProjectServices project)); try done.
  - by eapply getService_elem.
  - by eapply getService_Name.
Qed.

Lemma dependantEdges_dependsOn project services expand sa b :
  NoDup (names (ProjectServices project)) ->
  b ∈ dependantEdges project services expand sa ->
  dependsOn project b (Name sa) /\ (hasService services b || expand = true).
Proof.
  intros Hnd. unfold dependantEdges, GetDependents.
  intros [Hp Hin]%list_elem_of_filter.
  apply andb_prop in Hp as [Hhas Hreq].
  apply list_elem_of_bind in Hin as (s & Hin & Hs).
  apply list_elem_of_fmap in Hin as (entry & -> & _).
  split; [|done]. unfold requiredBy in Hreq.
  rewrite (projectService_elem _ _ Hnd Hs) in Hreq.
  destruct (alookup (Name sa) (DependsOn s)) as [dependency|] eqn:Hlook;
    [|done].
  by exists s, dependency.
Qed.

Lemma dependsOn_dependantEdges project services sa b :
  NoDup (names (ProjectServices project)) ->
  dependsOn project b (Name sa) ->
  b ∈ dependantEdges project services true sa.
Proof.
  intros Hnd (s & dependency & Hs & <- & Hlook & Hreq).
  unfold dependantEdges. apply list_elem_of_filter. split.
  - rewrite orb_true_r. cbn. unfold requiredBy.
    rewrite (projectService_elem _ _ Hnd Hs), Hlook. done.
  - unfold GetDependents. apply list_elem_of_bind. exists s. split; [|done].
    apply list_elem_of_fmap. exists (Name sa, dependency). split; [done|].
    apply list_elem_of_filter. split; [done|]. by apply alookup_Some.
Qed.

Lemma tc_flip {A} (R : relation A) x y : tc (flip R) x y -> tc R y x.
Proof.
  induction 1 as [a b Hab|a b c Hab _ IH]; [by apply tc_once|].
  eapply tc_r; [exact IH|exact Hab].
Qed.

Lemma rtc_flip {A} (R : relation A) x y : rtc (flip R) x y -> rtc R y x.
Proof.
  induction 1 as [|a b c Hab _ IH]; [done|].
  eapply rtc_r; [exact IH|exact Hab].
Qed.

Lemma dependsOn_source project x y :
  rtc (dependsOn project) x y ->
  (exists s, s ∈ ProjectServices project /\ Name s = y) ->
  exists s, s ∈ ProjectServices project /\ Name s = x.
Proof.
  intros Hpath Hy. destruct Hpath as [|x z y Hxz _]; [done|].
  destruct Hxz as (s & _ & Hs & Hname & _). by exists s.
Qed.

Lemma dependsOn_edge project services x y :
  NoDup (names (ProjectServices project)) ->
  rtc (dependsOn project) x y ->
  (exists s, s ∈ ProjectServices project /\ Name s = y) ->
  rtc (edge project (dependantEdges project services true)) y x.
Proof.
  intros Hnd Hpath Hy. induction Hpath as [|x z y Hxz Hzy IH]; [done|].
  eapply rtc_r; [by apply IH|].
  destruct (dependsOn_source _ _ _ Hzy Hy) as (sz & Hsz & <-).
  exists sz. split; [done|]. split; [done|].
  by apply dependsOn_dependantEdges.
Qed.

(** X22.  On a project whose service names are distinct and whose
    required dependencies form no cycle, and for a set of its services:
    [ServicesReversedByDependencies] with [expand] set lists no service
    twice, lists every service after all the services that require it
    (so a service is stopped after its dependants), and lists exactly
    the services from which a service of the set can be reached along
    required dependencies. *)
Theorem ServicesReversedByDependencies_topological
    (project : Project) (services : Services) :
  NoDup (names (ProjectServices project)) ->
  (forall s, s ∈ services -> s ∈ ProjectServices project) ->
  (forall a, ~ tc (requires project) a a) ->
  exists l,
    ServicesReversedByDependencies project services true = Some l
    /\ NoDup (names l)
    /\ (forall l1 a l2 b,
          l = l1 ++ a :: l2 -> dependsOn project b (Name a) -> b ∈ names l1)
    /\ (forall x, x ∈ names l <->
          exists s, s ∈ services /\ rtc (dependsOn project) x (Name s)).
Proof.
  intros Hnames Hsub Hacyclic.
  rewrite ServicesReversedByDependencies_walk.
  set (edges := dependantEdges project services true).
  destruct (walkAll_total project edges
              (dependantEdges_missing project services true) services)
    as [w Hw].
  exists (ordered w). rewrite Hw. split; [done|].
  assert (Hedge : forall a b, edge project edges a b -> dependsOn project b a).
  { intros a b (s & Hs & <- & Hb).
    by apply dependantEdges_dependsOn in Hb as [Hb _]. }
  destruct (walkAll_topological project edges services) with (w := w)
    as (Hfirst & Hnodup & Hreach); try done.
  { intros s name Hs Hin. apply dependantEdges_dependsOn in Hin as [Hdep _];
      [|done].
    destruct Hdep as (s' & _ & Hs' & <- & _). by apply getService_is_Some. }
  { intros a Hcycle. apply (Hacyclic a).
    eapply tc_impl; [apply dependsOn_requires|].
    apply tc_flip. eapply tc_impl; [|exact Hcycle].
    intros x y. apply Hedge. }
  split; [exact Hnodup|]. split.
  - intros l1 a l2 b Hl Hdep.
    assert (Hb : b ∈ edges a) by (by apply dependsOn_dependantEdges).
    assert (Hi : ordered w !! length l1 = Some a)
      by (rewrite Hl; apply list_lookup_middle; done).
    specialize (Hfirst _ _ _ Hi Hb).
    by rewrite Hl, take_app_length in Hfirst.
  - intros x. rewrite Hreach. unfold reachable. split.
    + intros (s & Hs & Hpath). exists s. split; [done|].
      apply rtc_flip. eapply rtc_subrel; [|exact Hpath].
      intros a b. apply Hedge.
    + intros (s & Hs & Hpath). exists s. split; [done|].
      apply dependsOn_edge; [done|done|]. exists s. split; [by apply Hsub|done].
Qed.

(** X23.  Without [expand], on such a project, both orderings return the
    services they were given and no others, each once: a dependency or
    a dependant outside the given set is not pulled in. *)
Theorem orderings_without_expand (project : Project) (services : Services) :
  NoDup (names (ProjectServices project)) ->
  (forall s, s ∈ services -> s ∈ ProjectServices project) ->
  (forall a, ~ tc (requires project) a a) ->
  exists l l',
    ServicesOrderedByDependencies project services false = Some l
    /\ ServicesReversedByDependencies project services false = Some l'
    /\ NoDup (names l) /\ NoDup (names l')
    /\ forall x, (x ∈ names l <-> x ∈ names services)
                 /\ (x ∈ names l' <-> x ∈ names services).
Proof.
  intros Hnames Hsub Hacyclic.
  rewrite ServicesOrderedByDependencies_walk, ServicesReversedByDependencies_walk.
  set (edges := dependencyEdges services false).
  set (edges' := dependantEdges project services false).
  destruct (walkAll_total project edges
              (dependencyEdges_missing project services false) services)
    as [w Hw].
  destruct (walkAll_total project edges'
              (dependantEdges_missing project services false) services)
    as [w' Hw'].
  exists (ordered w), (ordered w'). rewrite Hw, Hw'.
  split; [done|]. split; [done|].
  assert (Hhas : forall name, hasService services name = true ->
                              name ∈ names services).
  { intros name Hname. apply bool_decide_eq_true in Hname as [s Hget].
    apply list_elem_of_fmap. exists s.
    split; [symmetry; by eapply getService_Name|by eapply getService_elem]. }
  assert (Hin : forall a b, edge project edges a b ->
                  requires project a b /\ b ∈ names services).
  { intros a b (s & Hs & <- & Hb). unfold edges, dependencyEdges in Hb.
    apply list_elem_of_fmap in Hb
      as ([name dependency] & -> & [Hp Hd]%list_elem_of_filter).
    cbn in Hp. apply andb_prop in Hp as [Hp Hreq]. rewrite orb_false_r in Hp.
    split; [by exists s, dependency|by apply Hhas]. }
  assert (Hin' : forall a b, edge project edges' a b ->
                   requires project b a /\ b ∈ names services).
  { intros a b (s & Hs & <- & Hb).
    apply dependantEdges_dependsOn in Hb as [Hdep Hp]; [|done].
    rewrite orb_false_r in Hp.
    split; [by apply dependsOn_requires|by apply Hhas]. }
  assert (Hstay : forall (R : relation string) s x,
            (forall a b, R a b -> b ∈ names services) ->
            s ∈ services -> rtc R (Name s) x -> x ∈ names services).
  { intros R s x HR Hs Hpath.
    assert (Hstart : Name s ∈ names services)
      by (by apply list_elem_of_fmap_2).
    clear Hs. induction Hpath as [|a b c Hab _ IH]; [done|].
    apply IH. by eapply HR. }
  destruct (walkAll_topological project edges services) with (w := w)
    as (_ & Hnodup & Hreach); try done.
  { intros s name Hs Hname.
    assert (Hedge : edge project edges (Name s) name) by (by exists s).
    apply Hin in Hedge as [_ (s' & -> & Hs')%list_elem_of_fmap].
    by apply getService_is_Some, Hsub. }
  { intros a Hcycle. apply (Hacyclic a). eapply tc_impl; [|exact Hcycle].
    intros x y Hxy. by apply Hin in Hxy as [? _]. }
  destruct (walkAll_topological project edges' services) with (w := w')
    as (_ & Hnodup' & Hreach'); try done.
  { intros s name Hs Hname.
    assert (Hedge : edge project edges' (Name s) name) by (by exists s).
    apply Hin' in Hedge as [_ (s' & -> & Hs')%list_elem_of_fmap].
    by apply getService_is_Some, Hsub. }
  { intros a Hcycle. apply (Hacyclic a). apply tc_flip.
    eapply tc_impl; [|exact Hcycle].
    intros x y Hxy. by apply Hin' in Hxy as [? _]. }
  split; [exact Hnodup|]. split; [exact Hnodup'|].
  intros x. rewrite Hreach, Hreach'. unfold reachable. split; split.
  - intros (s & Hs & Hpath). eapply (Hstay _ s); [|done|exact Hpath].
    intros a b Hab. by apply Hin in Hab as [_ ?].
  - intros (s & -> & Hs)%list_elem_of_fmap. by exists s.
  - intros (s & Hs & Hpath). eapply (Hstay _ s); [|done|exact Hpath].
    intros a b Hab. by apply Hin' in Hab as [_ ?].
  - intros (s & -> & Hs)%list_elem_of_fmap. by exists s.
Qed.

Example AssignIPs_lan_static :
  AssignIPs (text := ipv4Text) lanSchedule
            (lanProject (staticAddress "10.0.0.5") None)
  = Ok (lanProject (staticAddress "10.0.0.5") (staticAddress "10.0.0.1")).
Proof. vm_compute. reflexivity. Qed.

Lemma AssignIPs_keeps_addresses_witness :
  names (ProjectServices
           (lanProject (staticAddress "10.0.0.5") (staticAddress "10.0.0.1")))
  = names (ProjectServices (lanProject (staticAddress "10.0.0.5") None))
  /\ (forall svc name,
        attachedAddress
          (ProjectServices (lanProject (staticAddress "10.0.0.5") None))
          svc name = None
        <-> attachedAddress
              (ProjectServices
                 (lanProject (staticAddress "10.0.0.5")
                    (staticAddress "10.0.0.1"))) svc name = None)
  /\ (forall svc name addr,
        attachedAddress
          (ProjectServices (lanProject (staticAddress "10.0.0.5") None))
          svc name = Some addr ->
        addr <> "" ->
        attachedAddress
          (ProjectServices
             (lanProject (staticAddress "10.0.0.5") (staticAddress "10.0.0.1")))
          svc name = Some addr).
Proof.
  exact (AssignIPs_keeps_addresses (text := ipv4Text) lanSchedule _ _
           AssignIPs_lan_static).
Defined.

Lemma AssignIPs_attachments_witness :
  (forall s name cfg,
     s ∈ ProjectServices (lanProject (staticAddress "10.0.0.5") None) ->
     (name, cfg) ∈ Networks s ->
     is_Some (alookup name [("lan", lan)]))
  /\ (forall svc name addr,
        attachedAddress
          (ProjectServices
             (lanProject (staticAddress "10.0.0.5") (staticAddress "10.0.0.1")))
          svc name = Some addr ->
        addr <> "" ->
        exists network cfg rest subnetIP subnet,
          alookup name [("lan", lan)] = Some network
          /\ External network = false
          /\ Ipam_Config network = cfg :: rest
          /\ parseCIDRv4 (Subnet cfg) = Some (subnetIP, subnet)).
Proof.
  exact (AssignIPs_attachments (text := ipv4Text) lanSchedule _ _
           AssignIPs_lan_static).
Defined.

Lemma stringIPv4_nonempty (ip : IP) : stringIPv4 ip <> "".
Proof.
  unfold stringIPv4. destruct (octet ip 3); discriminate.
Qed.

Lemma AssignIPs_assigns_witness :
  exists addr,
    attachedAddress
      (ProjectServices
         (lanProject (staticAddress "10.0.0.5") (staticAddress "10.0.0.1")))
      "b" "lan" = Some addr
    /\ addr <> "".
Proof.
  apply (AssignIPs_assigns (text := ipv4Text) lanSchedule
           (lanProject (staticAddress "10.0.0.5") None)
           (lanProject (staticAddress "10.0.0.5") (staticAddress "10.0.0.1"))
           "b" "lan" lan {| Subnet := "10.0.0.0/24"; Gateway := "10.0.0.254" |} []).
  - exact stringIPv4_nonempty.
  - exact AssignIPs_lan_static.
  - apply list_elem_of_here.
  - vm_compute. by eexists.
  - reflexivity.
  - reflexivity.
Defined.

Lemma ServicesReversedByDependencies_topological_witness :
  exists l,
    ServicesReversedByDependencies webDb (ProjectServices webDb) true = Some l
    /\ NoDup (names l)
    /\ (forall l1 a l2 b,
          l = l1 ++ a :: l2 -> dependsOn webDb b (Name a) -> b ∈ names l1)
    /\ (forall x, x ∈ names l <->
          exists s, s ∈ ProjectServices webDb
                    /\ rtc (dependsOn webDb) x (Name s)).
Proof.
  apply (ServicesReversedByDependencies_topological webDb
           (ProjectServices webDb)).
  - compute_done.
  - intros s Hs. exact Hs.
  - exact webDb_acyclic.
Defined.

Lemma orderings_without_expand_witness :
  exists l l',
    ServicesOrderedByDependencies webDb (ProjectServices webDb) false = Some l
    /\ ServicesReversedByDependencies webDb (ProjectServices webDb) false
       = Some l'
    /\ NoDup (names l) /\ NoDup (names l')
    /\ forall x, (x ∈ names l <-> x ∈ names (ProjectServices webDb))
                 /\ (x ∈ names l' <-> x ∈ names (ProjectServices webDb)).
Proof.
  apply (orderings_without_expand webDb (ProjectServices webDb)).
  - compute_done.
  - intros s Hs. exact Hs.
  - exact webDb_acyclic.
Defined.

End Compose.

(** ** OCI manifest assembler: [oci/manifest.go] *)

Module Oci.

Local Open Scope Z_scope.

(** *** The image-spec records, as far as the code reads and writes them *)

Record Platform := {
  Architecture : string;
  OS : string;
  OSVersion : string;
  PlatformOSFeatures : list string
}.

(** The nil annotation map is the empty map.  A descriptor holds the
    entries that its map had when it was built. *)
Record Descriptor := {
  MediaType : string;
  Digest : string;
  Size : Z;
  Annotations : gmap string string;
  DescriptorPlatform : option Platform
}.

Record Blob := {
  blob_desc : Descriptor;
  blob_tmp : string;
  removeAfterSave : bool
}.

Record Layer := {
  blob : Blob;
  dst : string;
  layer_tmp : string
}.

Record RootFS := { RootFSType : string; DiffIDs : list string }.

Record Image := {
  ImageArchitecture : string;
  ImageOS : string;
  ImageOSVersion : string;
  OSFeatures : list string;
  Cmd : list string;
  Env : list string;
  Labels : gmap string string;
  ImageRootFS : RootFS
}.

Record ManifestSpec := {
  SchemaVersion : Z;
  SpecMediaType : string;
  SpecConfig : Descriptor;
  SpecLayers : list Descriptor;
  SpecAnnotations : gmap string string
}.

Record Manifest := {
  saved : bool;
  config : Image;
  manifest : option ManifestSpec;
  desc : option Descriptor;
  layers : list Layer;
  pushed : gmap string bool;
  annotations : gmap string string
}.

Record Reference := {
  RefContext : string;
  RefString : string;
  RefName : string
}.

(** *** Constants *)

Definition MediaTypeImageLayer : string := "application/vnd.oci.image.layer.v1.tar".
Definition MediaTypeImageConfig : string := "application/vnd.oci.image.config.v1+json".
Definition MediaTypeImageManifest : string := "application/vnd.oci.image.manifest.v1+json".
Definition AnnotationRefName : string := "org.opencontainers.image.ref.name".
Definition AnnotationCreated : string := "org.opencontainers.image.created".
Definition AnnotationImageName : string := "containerd.io/image.name".

(** Modelled from the spec: the well-known annotations and destinations
    are declared in a file that is not among the sources; these are the
    values of section 6 of the specification. *)
Definition AnnotationKernelPath : string := "org.unikraft.kernel.path".
Definition AnnotationKernelDbgPath : string := "org.unikraft.kernel.dbg.path".
Definition AnnotationKernelInitrdPath : string := "org.unikraft.initrd.path".
Definition WellKnownKernelPath : string := "/unikraft/bin/kernel".
Definition WellKnownKernelDbgPath : string := "/unikraft/bin/kernel.dbg".
Definition WellKnownInitrdPath : string := "/unikraft/initrd".

(** *** What the assembler calls *)

Inductive result (A : Type) :=
  | Done (a : A)
  | Fail (err : string).
Arguments Done {A} a.
Arguments Fail {A} err.

Inductive saveResult :=
  | Stored
  | ErrAlreadyExists
  | StoreFailed (err : string).

(** What [SaveDescriptor] reads the content from. *)
Inductive reader :=
  | FromBytes (data : string)
  | FromFile (path : string).

(** The storage behind [handler.Handler], the temporary files, and the
    libraries whose output the assembler only passes on. *)
Class Environment := {
  world : Type;
  DigestInfo : world -> string -> bool;
  SaveDescriptor :
    world -> string -> Descriptor -> reader -> world * saveResult;
  CreateTemp : world -> string -> world * option string;
  ReadFile : world -> string -> option string;
  Remove : world -> string -> world * bool;
  ParseReference : string -> option Reference;
  marshalImage : Image -> string;
  marshalManifest : ManifestSpec -> string;
  tarFile : string -> string -> string;
  digestFromBytes : string -> string;
  AnnotationKraftKitVersion : string;
  Version : string
}.

(** *** The feature comparator and the library calls around it *)

(** [strconv.Atoi]: an optional sign, then decimal digits, within the
    range of [int]. *)
Definition Atoi (s : string) : option Z :=
  let '(negative, digits) :=
    match s with
    | String "-"%char rest => (true, rest)
    | String "+"%char rest => (false, rest)
    | _ => (false, s)
    end in
  if String.eqb digits "" then None
  else match Net.dtoi digits 0 with
       | Some n =>
           let v := if negative then - n else n in
           if (- 2 ^ 63 <=? v) && (v <? 2 ^ 63) then Some v else None
       | None => None
       end.

(** The function given to [sort.Slice], on the elements at [i] and [j]. *)
Definition featureLess (fi fj : string) : bool :=
  match Atoi fi with
  | Some z =>
      match Atoi fj with
      | Some y => y <? z
      | None => true
      end
  | None => String.ltb fi fj
  end.

(** The inner loop of the library's insertion sort: the element [x]
    moves left past [y] while [less x y]; the part already sorted is
    given nearest first. *)
Fixpoint sink {A} (less : A -> A -> bool) (x : A) (before : list A) : list A :=
  match before with
  | [] => [x]
  | y :: before' =>
      if less x y then y :: sink less x before' else x :: before
  end.

(** [sort.Slice] as it runs on a slice of at most twelve elements, where
    the library sorts by insertion. *)
Definition sortSlice {A} (less : A -> A -> bool) (l : list A) : list A :=
  reverse (fold_left (fun before x => sink less x before) l []).

(** [slices.Compact]: the first element of every run of equal ones. *)
Fixpoint Compact (l : list string) : list string :=
  match l with
  | x :: l' =>
      match l' with
      | y :: _ => if String.eqb x y then Compact l' else x :: Compact l'
      | [] => l
      end
  | [] => []
  end.

(** What [slices.Compact] leaves in the slice it was given: the compacted
    elements, then zero values up to the old length. *)
Definition compactedInPlace (l : list string) : list string :=
  Compact l ++ replicate (length l - length (Compact l))%nat "".

(** *** The manifest and its setters *)

Definition withSaved (b : bool) (m : Manifest) : Manifest :=
  {| saved := b; config := config m; manifest := manifest m; desc := desc m;
     layers := layers m; pushed := pushed m; annotations := annotations m |}.

Definition withConfig (c : Image) (m : Manifest) : Manifest :=
  {| saved := saved m; config := c; manifest := manifest m; desc := desc m;
     layers := layers m; pushed := pushed m; annotations := annotations m |}.

Definition withManifest (spec : option ManifestSpec) (m : Manifest) : Manifest :=
  {| saved := saved m; config := config m; manifest := spec; desc := desc m;
     layers := layers m; pushed := pushed m; annotations := annotations m |}.

Definition withDesc (d : option Descriptor) (m : Manifest) : Manifest :=
  {| saved := saved m; config := config m; manifest := manifest m; desc := d;
     layers := layers m; pushed := pushed m; annotations := annotations m |}.

Definition withLayers (ls : list Layer) (m : Manifest) : Manifest :=
  {| saved := saved m; config := config m; manifest := manifest m;
     desc := desc m; layers := ls; pushed := pushed m;
     annotations := annotations m |}.

Definition withPushed (p : gmap string bool) (m : Manifest) : Manifest :=
  {| saved := saved m; config := config m; manifest := manifest m;
     desc := desc m; layers := layers m; pushed := p;
     annotations := annotations m |}.

Definition withAnnotations (a : gmap string string) (m : Manifest) : Manifest :=
  {| saved := saved m; config := config m; manifest := manifest m;
     desc := desc m; layers := layers m; pushed := pushed m; annotations := a |}.

(** The [Annotations] of the manifest that [Save] generates are the Go
    map [manifest.annotations] itself, so what is marshaled later has
    the entries of that time. *)
Definition withSpecAnnotations (a : gmap string string) (spec : ManifestSpec)
    : ManifestSpec :=
  {| SchemaVersion := SchemaVersion spec; SpecMediaType := SpecMediaType spec;
     SpecConfig := SpecConfig spec; SpecLayers := SpecLayers spec;
     SpecAnnotations := a |}.

Definition withLabels (l : gmap string string) (c : Image) : Image :=
  {| ImageArchitecture := ImageArchitecture c; ImageOS := ImageOS c;
     ImageOSVersion := ImageOSVersion c; OSFeatures := OSFeatures c;
     Cmd := Cmd c; Env := Env c; Labels := l; ImageRootFS := ImageRootFS c |}.

Definition withOSFeatures (f : list string) (c : Image) : Image :=
  {| ImageArchitecture := ImageArchitecture c; ImageOS := ImageOS c;
     ImageOSVersion := ImageOSVersion c; OSFeatures := f;
     Cmd := Cmd c; Env := Env c; Labels := Labels c;
     ImageRootFS := ImageRootFS c |}.

Definition withRootFS (r : RootFS) (c : Image) : Image :=
  {| ImageArchitecture := ImageArchitecture c; ImageOS := ImageOS c;
     ImageOSVersion := ImageOSVersion c; OSFeatures := OSFeatures c;
     Cmd := Cmd c; Env := Env c; Labels := Labels c; ImageRootFS := r |}.

Definition emptyImage : Image :=
  {| ImageArchitecture := ""; ImageOS := ""; ImageOSVersion := "";
     OSFeatures := []; Cmd := []; Env := []; Labels := ∅;
     ImageRootFS := {| RootFSType := ""; DiffIDs := [] |} |}.

Definition NewManifest : Manifest :=
  {| saved := false; config := emptyImage; manifest := None; desc := None;
     layers := []; pushed := ∅; annotations := ∅ |}.

Definition SetLabel (key val : string) (m : Manifest) : Manifest :=
  withConfig (withLabels (<[key := val]> (Labels (config m))) (config m))
             (withSaved false m).

Definition SetAnnotation (key val : string) (m : Manifest) : Manifest :=
  withAnnotations (<[key := val]> (annotations m)) (withSaved false m).

Definition SetOSFeature (feature : list string) (m : Manifest) : Manifest :=
  withConfig (withOSFeatures (OSFeatures (config m) ++ feature) (config m))
             (withSaved false m).

Definition AddLayer (layer : Layer) (m : Manifest) : Manifest * Descriptor :=
  (withLayers (layers m ++ [layer])
     (withSaved false
        (withPushed (<[Digest (blob_desc (blob layer)) := false]> (pushed m)) m)),
   blob_desc (blob layer)).

Section Assembler.

Context {env : Environment}.

(** Modelled from the spec: [NewLayerFromFile] is not among the
    sources.  It builds a fresh layer from the file at [src]: the file
    is archived under the in-image path [dst], the archive is the blob,
    and the option [WithLayerAnnotation] sets one annotation of the
    blob's descriptor. *)
Definition NewLayerFromFile (w : world) (mediaType src dst : string)
    (annotation value : string) : world * option Layer :=
  match ReadFile w src with
  | None => (w, None)
  | Some data =>
      let archive := tarFile dst data in
      match CreateTemp w archive with
      | (w', None) => (w', None)
      | (w', Some tmp) =>
          (w', Some {| blob :=
                         {| blob_desc :=
                              {| MediaType := mediaType;
                                 Digest := digestFromBytes archive;
                                 Size := Z.of_nat (String.length archive);
                                 Annotations := {[annotation := value]};
                                 DescriptorPlatform := None |};
                            blob_tmp := tmp;
                            removeAfterSave := true |};
                       dst := dst;
                       layer_tmp := tmp |})
      end
  end.

Definition hasAnnotation (key : string) (layer : Layer) : bool :=
  bool_decide (is_Some (Annotations (blob_desc (blob layer)) !! key)).

Definition removeTmp (w : world) (path : string) : world :=
  if (0 <? String.length path)%nat then (Remove w path).1 else w.

(** The loop "Remove any potential existing ..." of the three setters. *)
Fixpoint removeAnnotated (key : string) (ls : list Layer) (w : world)
    : world * list Layer :=
  match ls with
  | [] => (w, [])
  | layer :: ls' =>
      if hasAnnotation key layer
      then removeAnnotated key ls' (removeTmp w (layer_tmp layer))
      else let '(w', kept) := removeAnnotated key ls' w in
           (w', layer :: kept)
  end.

(** The body that the three setters share; they differ in the three
    constants they pass. *)
Definition setWellKnown (annotation dst value path : string)
    (m : Manifest) (w : world) : world * Manifest * result unit :=
  let '(w1, kept) := removeAnnotated annotation (layers m) w in
  let m1 := withLayers kept m in
  match NewLayerFromFile w1 MediaTypeImageLayer path dst annotation value with
  | (w2, None) => (w2, m1, Fail "could build layer from file")
  | (w2, Some layer) => (w2, (AddLayer layer m1).1, Done ())
  end.

Definition SetInitrd (path : string) :=
  setWellKnown AnnotationKernelInitrdPath WellKnownInitrdPath
               WellKnownInitrdPath path.

Definition SetKernel (path : string) :=
  setWellKnown AnnotationKernelPath WellKnownKernelPath
               WellKnownKernelPath path.

Definition SetKernelDbg (path : string) :=
  setWellKnown AnnotationKernelDbgPath WellKnownKernelPath
               WellKnownKernelDbgPath path.

(** *** [Save] *)

Definition AddBlob (w : world) (ref : string) (b : Blob)
    : world * result Descriptor :=
  if DigestInfo w (Digest (blob_desc b)) then (w, Done (blob_desc b))
  else match ReadFile w (blob_tmp b) with
       | None => (w, Fail "open: no such file")
       | Some _ =>
           match SaveDescriptor w ref (blob_desc b) (FromFile (blob_tmp b)) with
           | (w1, Stored) =>
               if removeAfterSave b then
                 match Remove w1 (blob_tmp b) with
                 | (w2, true) => (w2, Done (blob_desc b))
                 | (w2, false) => (w2, Fail "remove: no such file")
                 end
               else (w1, Done (blob_desc b))
           | (w1, ErrAlreadyExists) => (w1, Fail "already exists")
           | (w1, StoreFailed err) => (w1, Fail err)
           end
       end.

(** Modelled from the spec: [NewBlob] is not among the sources.  It
    writes the bytes to a temporary file and describes them by their
    digest, with the platform attached. *)
Definition NewBlob (w : world) (mediaType data : string) (platform : Platform)
    : world * option Blob :=
  match CreateTemp w data with
  | (w', None) => (w', None)
  | (w', Some tmp) =>
      (w', Some {| blob_desc :=
                     {| MediaType := mediaType;
                        Digest := digestFromBytes data;
                        Size := Z.of_nat (String.length data);
                        Annotations := ∅;
                        DescriptorPlatform := Some platform |};
                   blob_tmp := tmp;
                   removeAfterSave := true |})
  end.

(** The image config that [Save] hands to [json.Marshal]: the digests
    of the layers are in [RootFS], the features have been through
    [sort.Slice]. *)
Definition marshaledConfig (m : Manifest) : Image :=
  let diffIds := (fun layer => Digest (blob_desc (blob layer))) <$> layers m in
  let config1 :=
    if (0 <? length diffIds)%nat
    then withRootFS {| RootFSType := "layers"; DiffIDs := diffIds |} (config m)
    else config m in
  withOSFeatures (sortSlice featureLess (OSFeatures config1)) config1.

(** One function of the error group that pushes the layers. *)
Definition pushLayer (m : Manifest) (ref : string) (w : world) (layer : Layer)
    : world * result unit :=
  if String.eqb (blob_tmp (blob layer)) "" then (w, Done ())
  else if bool_decide (pushed m !! Digest (blob_desc (blob layer)) = Some true)
  then (w, Done ())
  else if DigestInfo w (Digest (blob_desc (blob layer))) then (w, Done ())
  else match AddBlob w ref (blob layer) with
       | (w1, Fail err) => (w1, Fail ("failed to push layer: " +:+ err))
       | (w1, Done _) => (removeTmp w1 (layer_tmp layer), Done ())
       end.

(** The error group, one layer after the other. *)
Fixpoint pushLayers (m : Manifest) (ref : string) (ls : list Layer) (w : world)
    : world * result unit :=
  match ls with
  | [] => (w, Done ())
  | layer :: ls' =>
      match pushLayer m ref w layer with
      | (w1, Done _) => pushLayers m ref ls' w1
      | (w1, Fail err) => (w1, Fail err)
      end
  end.

(** [Save] from "Pack the given blobs" on. *)
Definition saveManifest (m : Manifest) (ref : Reference) (now : string)
    (platform : Platform) (configBlob : Blob) (w : world)
    : world * Manifest * result Descriptor :=
  let annotations :=
    <[AnnotationImageName := RefString ref]>
      (<[AnnotationKraftKitVersion := Version]>
         (<[AnnotationCreated := now]>
            (<[AnnotationRefName := RefContext ref]> (annotations m)))) in
  let m1 := withAnnotations annotations m in
  let spec :=
    match manifest m1 with
    | Some spec => withSpecAnnotations annotations spec
    | None =>
        {| SchemaVersion := 2;
           SpecMediaType := MediaTypeImageManifest;
           SpecConfig := blob_desc configBlob;
           SpecLayers := (fun layer => blob_desc (blob layer)) <$> layers m1;
           SpecAnnotations := annotations |}
    end in
  let m2 := withManifest (Some spec) m1 in
  let manifestJson := marshalManifest spec in
  let manifestDesc :=
    match desc m2 with
    | Some d => d
    | None =>
        {| MediaType := MediaTypeImageManifest;
           Digest := digestFromBytes manifestJson;
           Size := Z.of_nat (String.length manifestJson);
           Annotations := SpecAnnotations spec;
           DescriptorPlatform := Some platform |}
    end in
  let m3 := withDesc (Some manifestDesc) m2 in
  match SaveDescriptor w (RefName ref) manifestDesc (FromBytes manifestJson) with
  | (w1, StoreFailed err) => (w1, m3, Fail ("failed to save manifest: " +:+ err))
  | (w1, _) =>
      let '(w2, added) :=
        if DigestInfo w1 (Digest (blob_desc configBlob)) then (w1, Done ())
        else match AddBlob w1 (RefName ref) configBlob with
             | (w2, Done _) => (w2, Done ())
             | (w2, Fail err) => (w2, Fail err)
             end in
      match added with
      | Fail err => (w2, m3, Fail err)
      | Done _ =>
          let m4 := withSaved true m3 in
          match pushLayers m4 (RefName ref) (layers m4) w2 with
          | (w3, Fail err) => (w3, m4, Fail err)
          | (w3, Done _) => (w3, m4, Done manifestDesc)
          end
      end
  end.

Definition Save (m : Manifest) (fullref now : string) (w : world)
    : world * Manifest * result Descriptor :=
  match (if saved m then desc m else None) with
  | Some d => (w, m, Done d)
  | None =>
    match (match desc m with
           | Some d => if DigestInfo w (Digest d) then Some d else None
           | None => None
           end) with
    | Some d => (w, m, Done d)
    | None =>
      match ParseReference fullref with
      | None => (w, m, Fail "could not parse reference")
      | Some ref =>
          let config2 := marshaledConfig m in
          let configJson := marshalImage config2 in
          let platform :=
            {| Architecture := ImageArchitecture config2;
               OS := ImageOS config2;
               OSVersion := ImageOSVersion config2;
               PlatformOSFeatures := Compact (OSFeatures config2) |} in
          let m1 :=
            withConfig
              (withOSFeatures (compactedInPlace (OSFeatures config2)) config2)
              m in
          match NewBlob w MediaTypeImageConfig configJson platform with
          | (w1, None) => (w1, m1, Fail "could not create blob")
          | (w1, Some configBlob) =>
              let '(w2, m2, r) := saveManifest m1 ref now platform configBlob w1 in
              ((Remove w2 (blob_tmp configBlob)).1, m2, r)
          end
      end
    end
  end.

End Assembler.

(** *** A storage in memory *)

Record store := {
  blobs : gset string;
  files : gmap string string;
  temps : nat
}.

Definition bracket (items : list string) : string :=
  "[" +:+ String.concat "," items +:+ "]".

Definition renderMap (m : gmap string string) : string :=
  bracket ((fun kv : string * string => kv.1 +:+ "=" +:+ kv.2) <$> map_to_list m).

Definition renderImage (c : Image) : string :=
  String.concat ";"
    [ImageArchitecture c; ImageOS c; ImageOSVersion c; bracket (OSFeatures c);
     bracket (Cmd c); bracket (Env c); renderMap (Labels c);
     RootFSType (ImageRootFS c); bracket (DiffIDs (ImageRootFS c))].

Definition renderManifest (spec : ManifestSpec) : string :=
  String.concat ";"
    [pretty (SchemaVersion spec); SpecMediaType spec;
     Digest (SpecConfig spec); bracket (Digest <$> SpecLayers spec);
     renderMap (SpecAnnotations spec)].

(** A storage that keeps the digests it was given, temporary files that
    are numbered, renderings that show every field, and the content as
    its own digest, so that different contents have different digests. *)
Definition memory : Environment :=
  {| world := store;
     DigestInfo := fun w d => bool_decide (d ∈ blobs w);
     SaveDescriptor := fun w _ d _ =>
       if bool_decide (Digest d ∈ blobs w) then (w, ErrAlreadyExists)
       else ({| blobs := {[Digest d]} ∪ blobs w; files := files w;
                temps := temps w |}, Stored);
     CreateTemp := fun w data =>
       let name := "/tmp/" +:+ pretty (temps w) in
       ({| blobs := blobs w; files := <[name := data]> (files w);
           temps := S (temps w) |}, Some name);
     ReadFile := fun w path => files w !! path;
     Remove := fun w path =>
       ({| blobs := blobs w; files := delete path (files w);
           temps := temps w |}, bool_decide (is_Some (files w !! path)));
     ParseReference := fun s =>
       if String.eqb s "" then None
       else Some {| RefContext := s; RefString := s +:+ ":latest";
                    RefName := s +:+ ":latest" |};
     marshalImage := renderImage;
     marshalManifest := renderManifest;
     tarFile := fun dst data => dst +:+ ":" +:+ data;
     digestFromBytes := fun data => "sha256:" +:+ data;
     AnnotationKraftKitVersion := "sh.kraftkit.version";
     Version := "v0" |}.

(** A disk with a kernel, a debug kernel and an initrd. *)
Definition disk : store :=
  {| blobs := ∅;
     files := {[ "/build/kernel" := "k"; "/build/kernel.dbg" := "kd";
                 "/build/initrd" := "i" ]};
     temps := 0 |}.

(** *** Saving twice *)

Section Save_again.

Context {env : Environment}.

Lemma saveManifest_desc m ref now platform configBlob w w' m' D :
  saveManifest m ref now platform configBlob w = (w', m', Done D) ->
  saved m' = true /\ desc m' = Some D
  /\ forall d, desc m = Some d -> D = d.
Proof.
  unfold saveManifest. intros H.
  repeat case_match; simplify_eq; cbn.
  all: split; [done|]; split; [done|].
  all: intros d Hd; cbn in *; congruence.
Qed.

(** A successful [Save] leaves the descriptor it returns in the
    manifest, and either marks the manifest saved or has changed
    nothing. *)
Lemma Save_desc m fullref now w w' m' D :
  Save m fullref now w = (w', m', Done D) ->
  desc m' = Some D
  /\ (forall d, desc m = Some d -> D = d)
  /\ (saved m' = true \/ (m' = m /\ w' = w)).
Proof.
  unfold Save.
  destruct (saved m) eqn:Hsaved.
  - destruct (desc m) as [d|] eqn:Hdesc.
    + intros [= <- <- <-]. split; [done|]. split; [congruence|by left].
    + destruct (ParseReference fullref) as [ref|]; [|discriminate].
      destruct (NewBlob _ _ _ _) as [w1 [configBlob|]]; [|discriminate].
      destruct (saveManifest _ _ _ _ _ _) as [[w2 m2] r] eqn:Hsave.
      intros [= <- <- ->]. apply saveManifest_desc in Hsave as (Hs & Hd & _).
      split; [done|]. split; [done|by left].
  - destruct (desc m) as [d|] eqn:Hdesc.
    + destruct (DigestInfo w (Digest d)).
      * intros [= <- <- <-]. split; [done|]. split; [congruence|by right].
      * destruct (ParseReference fullref) as [ref|]; [|discriminate].
        destruct (NewBlob _ _ _ _) as [w1 [configBlob|]]; [|discriminate].
        destruct (saveManifest _ _ _ _ _ _) as [[w2 m2] r] eqn:Hsave.
        intros [= <- <- ->].
        apply saveManifest_desc in Hsave as (Hs & Hd & Hkeep).
        split; [done|]. split; [|by left].
        intros d' [= <-]. by apply Hkeep.
    + destruct (ParseReference fullref) as [ref|]; [|discriminate].
      destruct (NewBlob _ _ _ _) as [w1 [configBlob|]]; [|discriminate].
      destruct (saveManifest _ _ _ _ _ _) as [[w2 m2] r] eqn:Hsave.
      intros [= <- <- ->]. apply saveManifest_desc in Hsave as (Hs & Hd & _).
      split; [done|]. split; [done|by left].
Qed.

(** C1, as the code has it.  After a [Save] that returned [D]: a second
    [Save] returns [D] again and changes nothing; and after [SetLabel]
    a [Save] that succeeds, on whatever storage, still returns a
    descriptor with the digest of [D], because the descriptor is
    computed only when the manifest has none. *)
Theorem Save_twice m fullref now w w1 m1 D :
  Save m fullref now w = (w1, m1, Done D) ->
  (forall fullref' now', Save m1 fullref' now' w1 = (w1, m1, Done D))
  /\ (forall key val fullref' now' w' w2 m2 D',
        Save (SetLabel key val m1) fullref' now' w' = (w2, m2, Done D') ->
        Digest D' = Digest D).
Proof.
  intros Hsave. pose proof (Save_desc _ _ _ _ _ _ _ Hsave) as (Hd & _ & Hs).
  split.
  - intros fullref' now'. destruct Hs as [Hs|[-> ->]].
    + unfold Save. by rewrite Hs, Hd.
    + unfold Save in *. destruct (saved m) eqn:Hsv; [by rewrite Hd in *|].
      rewrite Hd in *. destruct (DigestInfo w (Digest D)); [done|].
      destruct (ParseReference fullref) as [ref|]; [|discriminate].
      destruct (NewBlob _ _ _ _) as [w1 [configBlob|]]; [|discriminate].
      destruct (saveManifest _ _ _ _ _ _) as [[w2 m2] r] eqn:Hsave'.
      injection Hsave as Hw Hm ->.
      apply saveManifest_desc in Hsave' as (Hs' & _). subst m2.
      congruence.
  - intros key val fullref' now' w' w2 m2 D' Hsave'.
    apply Save_desc in Hsave' as (_ & Hkeep & _).
    by rewrite (Hkeep D Hd).
Qed.

End Save_again.

(** *** The three setters *)

Section setters.

Context {env : Environment}.

Lemma removeAnnotated_layers key ls : forall w,
  (removeAnnotated key ls w).2
  = filter (fun layer => hasAnnotation key layer = false) ls.
Proof.
  induction ls as [|layer ls IH]; intros w; [done|]. cbn [removeAnnotated].
  rewrite filter_cons. destruct (hasAnnotation key layer) eqn:Hann.
  - rewrite decide_False by done. apply IH.
  - rewrite decide_True by done. specialize (IH w).
    destruct (removeAnnotated key ls w) as [w' kept]. cbn in *. by rewrite IH.
Qed.

(** A setter that succeeds drops every layer that carries its
    annotation and appends one layer, which carries the annotation with
    the given value and is archived under the given destination. *)
Lemma setWellKnown_layers annotation dest value path m w w' m' :
  setWellKnown annotation dest value path m w = (w', m', Done ()) ->
  exists layer,
    layers m'
    = filter (fun l => hasAnnotation annotation l = false) (layers m) ++ [layer]
    /\ Annotations (blob_desc (blob layer)) = {[annotation := value]}
    /\ dst layer = dest.
Proof.
  unfold setWellKnown.
  pose proof (removeAnnotated_layers annotation (layers m) w) as Hkept.
  destruct (removeAnnotated annotation (layers m) w) as [w1 kept].
  cbn in Hkept. subst kept. unfold NewLayerFromFile.
  destruct (ReadFile w1 path) as [data|]; [|discriminate].
  destruct (CreateTemp w1 _) as [w2 [tmp|]]; [|discriminate].
  intros [= <- <-]. eexists. cbn. split; [reflexivity|]. by split.
Qed.

End setters.

Definition kernelOnly : store * Manifest :=
  (SetKernel (env := memory) "/build/kernel" NewManifest disk).1.

(** C3 at the failing input: on a manifest that holds a kernel,
    [SetKernelDbg] appends a layer that carries the debug-kernel
    annotation and is archived under the destination of the kernel, so
    the two layers share one destination. *)
Theorem SetKernelDbg_destination :
  (fun layer => (dst layer,
                 Annotations (blob_desc (blob layer)) !! AnnotationKernelDbgPath))
    <$> layers (SetKernelDbg (env := memory) "/build/kernel.dbg"
                  kernelOnly.2 kernelOnly.1).1.2
  = [ (WellKnownKernelPath, None);
      (WellKnownKernelPath, Some WellKnownKernelDbgPath) ].
Proof. vm_compute. reflexivity. Qed.

(** *** The features that are marshaled *)

Definition isDone {A} (r : result A) : bool :=
  match r with
  | Done _ => true
  | Fail _ => false
  end.

Definition returned (r : store * Manifest * result Descriptor) : Descriptor :=
  match r.2 with
  | Done d => d
  | Fail _ =>
      {| MediaType := ""; Digest := ""; Size := 0; Annotations := ∅;
         DescriptorPlatform := None |}
  end.

Definition numbersSave : store * Manifest * result Descriptor :=
  Save (env := memory) (SetOSFeature ["1"; "2"; "10"] NewManifest)
       "app" "2024-01-01T00:00:00Z" disk.

Lemma isDone_returned (r : store * Manifest * result Descriptor) :
  isDone r.2 = true -> r = (r.1.1, r.1.2, Done (returned r)).
Proof.
  destruct r as [[w m] [d|err]]; [reflexivity|discriminate].
Qed.

Lemma numbersSave_isDone : isDone numbersSave.2 = true.
Proof. vm_compute. reflexivity. Qed.

Lemma numbersSave_done :
  numbersSave = (numbersSave.1.1, numbersSave.1.2, Done (returned numbersSave)).
Proof. exact (isDone_returned _ numbersSave_isDone). Qed.

Lemma numbersSave_config :
  bool_decide ("sha256:;;;[10,2,1];[];[];[];;[]" ∈ blobs numbersSave.1.1) = true.
Proof. vm_compute. reflexivity. Qed.

(** C2 at the failing inputs: the numbers that [Save] writes into the
    image config are in descending order, and a feature that was set
    twice is written twice; [slices.Compact] runs after the config has
    been marshaled and only the platform gets its result. *)
Theorem Save_features_marshaled :
  OSFeatures (marshaledConfig (SetOSFeature ["1"; "2"; "10"] NewManifest))
    = ["10"; "2"; "1"]
  /\ OSFeatures (marshaledConfig (SetOSFeature ["a"; "a"] NewManifest))
    = ["a"; "a"]
  /\ (exists w m D,
        Save (env := memory) (SetOSFeature ["1"; "2"; "10"] NewManifest)
             "app" "2024-01-01T00:00:00Z" disk = (w, m, Done D)
        /\ "sha256:;;;[10,2,1];[];[];[];;[]" ∈ blobs w).
Proof.
  split; [vm_compute; reflexivity|]. split; [vm_compute; reflexivity|].
  exists numbersSave.1.1, numbersSave.1.2, (returned numbersSave).
  split; [exact numbersSave_done|].
  exact (bool_decide_eq_true_1 _ numbersSave_config).
Qed.

(** C1 as the specification words its second half: a [Save] after
    [SetLabel] returns a descriptor with another digest. *)
Definition resaveChangesDigest (m : Manifest) (fullref now : string)
    (w : store) (key val : string) : Prop :=
  forall w1 m1 D w2 m2 D',
    Save (env := memory) m fullref now w = (w1, m1, Done D) ->
    Save (env := memory) (SetLabel key val m1) fullref now w1
      = (w2, m2, Done D') ->
    Digest D' <> Digest D.

Definition firstSave : store * Manifest * result Descriptor :=
  Save (env := memory) kernelOnly.2 "app" "2024-01-01T00:00:00Z" kernelOnly.1.

Definition secondSave : store * Manifest * result Descriptor :=
  Save (env := memory) (SetLabel "maintainer" "me" firstSave.1.2) "app"
       "2024-01-01T00:00:00Z" firstSave.1.1.

Lemma firstSave_isDone : isDone firstSave.2 = true.
Proof. vm_compute. reflexivity. Qed.

Lemma secondSave_isDone : isDone secondSave.2 = true.
Proof. vm_compute. reflexivity. Qed.

Lemma firstSave_done :
  firstSave = (firstSave.1.1, firstSave.1.2, Done (returned firstSave)).
Proof. exact (isDone_returned _ firstSave_isDone). Qed.

Lemma secondSave_done :
  secondSave = (secondSave.1.1, secondSave.1.2, Done (returned secondSave)).
Proof. exact (isDone_returned _ secondSave_isDone). Qed.

(** The manifest has one layer; the second [Save] finds the digest of
    the first in the storage and returns the descriptor it has. *)
Lemma resave_keeps_digest :
  ~ resaveChangesDigest kernelOnly.2 "app" "2024-01-01T00:00:00Z"
      kernelOnly.1 "maintainer" "me".
Proof.
  intros Hclaim.
  apply (Hclaim _ _ _ _ _ _ firstSave_done secondSave_done).
  pose proof secondSave_done as Hsecond.
  apply (Save_desc (env := memory)) in Hsecond as (_ & Hkeep & _).
  pose proof firstSave_done as Hfirst.
  apply (Save_desc (env := memory)) in Hfirst as (Hd & _).
  by rewrite (Hkeep _ Hd).
Qed.

Lemma Save_twice_witness :
  (forall fullref' now',
     Save (env := memory) firstSave.1.2 fullref' now' firstSave.1.1
     = (firstSave.1.1, firstSave.1.2, Done (returned firstSave)))
  /\ (forall key val fullref' now' w' w2 m2 D',
        Save (env := memory) (SetLabel key val firstSave.1.2) fullref' now' w'
          = (w2, m2, Done D') ->
        Digest D' = Digest (returned firstSave)).
Proof.
  exact (Save_twice (env := memory) kernelOnly.2 "app" "2024-01-01T00:00:00Z"
           kernelOnly.1 _ _ _ firstSave_done).
Defined.

Example sortSlice_letters :
  sortSlice featureLess ["c"; "a"; "b"] = ["a"; "b"; "c"].
Proof. vm_compute. reflexivity. Qed.

(** *** The setters that keep the manifest saved *)

Definition withCmd (cmd : list string) (c : Image) : Image :=
  {| ImageArchitecture := ImageArchitecture c; ImageOS := ImageOS c;
     ImageOSVersion := ImageOSVersion c; OSFeatures := OSFeatures c;
     Cmd := cmd; Env := Env c; Labels := Labels c;
     ImageRootFS := ImageRootFS c |}.

Definition withEnv (env : list string) (c : Image) : Image :=
  {| ImageArchitecture := ImageArchitecture c; ImageOS := ImageOS c;
     ImageOSVersion := ImageOSVersion c; OSFeatures := OSFeatures c;
     Cmd := Cmd c; Env := env; Labels := Labels c;
     ImageRootFS := ImageRootFS c |}.

(** [SetCmd] and [SetEnv] write the config and leave [saved] alone. *)
Definition SetCmd (cmd : list string) (m : Manifest) : Manifest :=
  withConfig (withCmd cmd (config m)) m.

Definition SetEnv (env : list string) (m : Manifest) : Manifest :=
  withConfig (withEnv env (config m)) m.

Definition SetArchitecture (architecture : string) (m : Manifest) : Manifest :=
  withConfig
    {| ImageArchitecture := architecture; ImageOS := ImageOS (config m);
       ImageOSVersion := ImageOSVersion (config m);
       OSFeatures := OSFeatures (config m); Cmd := Cmd (config m);
       Env := Env (config m); Labels := Labels (config m);
       ImageRootFS := ImageRootFS (config m) |}
    (withSaved false m).

Definition SetOS (os : string) (m : Manifest) : Manifest :=
  withConfig
    {| ImageArchitecture := ImageArchitecture (config m); ImageOS := os;
       ImageOSVersion := ImageOSVersion (config m);
       OSFeatures := OSFeatures (config m); Cmd := Cmd (config m);
       Env := Env (config m); Labels := Labels (config m);
       ImageRootFS := ImageRootFS (config m) |}
    (withSaved false m).

Definition SetOSVersion (osversion : string) (m : Manifest) : Manifest :=
  withConfig
    {| ImageArchitecture := ImageArchitecture (config m);
       ImageOS := ImageOS (config m); ImageOSVersion := osversion;
       OSFeatures := OSFeatures (config m); Cmd := Cmd (config m);
       Env := Env (config m); Labels := Labels (config m);
       ImageRootFS := ImageRootFS (config m) |}
    (withSaved false m).

Section more_setters.

Context {env : Environment}.

Lemma filter_kept_has (key : string) (ls : list Layer) :
  filter (fun l => hasAnnotation key l = true)
         (filter (fun l => hasAnnotation key l = false) ls) = [].
Proof.
  induction ls as [|l ls IH]; [done|].
  rewrite filter_cons. destruct (hasAnnotation key l) eqn:Hl.
  - rewrite decide_False by done. exact IH.
  - rewrite decide_True by done. rewrite filter_cons, Hl.
    rewrite decide_False by done. exact IH.
Qed.

Lemma filter_kept_kept (key : string) (ls : list Layer) :
  filter (fun l => hasAnnotation key l = false)
         (filter (fun l => hasAnnotation key l = false) ls)
  = filter (fun l => hasAnnotation key l = false) ls.
Proof.
  induction ls as [|l ls IH]; [done|].
  rewrite filter_cons. destruct (hasAnnotation key l) eqn:Hl.
  - rewrite decide_False by done. exact IH.
  - rewrite decide_True by done. rewrite filter_cons, Hl.
    rewrite decide_True by done. by rewrite IH.
Qed.

(** X9.  After [SetKernel], [SetKernelDbg] or [SetInitrd] has succeeded,
    exactly one layer of the manifest carries the operation's
    annotation; the layers without it are the ones that were there
    before, in the same order, so calling the operation again replaces
    the layer rather than adding one. *)
Theorem setWellKnown_replaces annotation dest value path m w w' m' :
  setWellKnown annotation dest value path m w = (w', m', Done ()) ->
  length (filter (fun l => hasAnnotation annotation l = true) (layers m')) = 1%nat
  /\ filter (fun l => hasAnnotation annotation l = false) (layers m')
     = filter (fun l => hasAnnotation annotation l = false) (layers m)
  /\ (length (layers m') <= S (length (layers m)))%nat.
Proof.
  intros Hset. apply setWellKnown_layers in Hset as (layer & -> & Hann & _).
  assert (Hhas : hasAnnotation annotation layer = true).
  { unfold hasAnnotation. rewrite Hann, lookup_singleton_eq.
    by apply bool_decide_eq_true. }
  rewrite !filter_app, !filter_cons, !filter_nil.
  rewrite (decide_True _ _ Hhas).
  rewrite decide_False by (rewrite Hhas; done).
  rewrite app_nil_r, length_app. cbn [length].
  rewrite filter_kept_has, filter_kept_kept. split; [done|]. split; [done|].
  pose proof (length_filter (fun l => hasAnnotation annotation l = false)
                (layers m)).
  rewrite length_app. cbn [length]. lia.
Qed.

(** X10.  [SetCmd] and [SetEnv] do not mark the manifest as unsaved:
    after a [Save] that returned [D], a [Save] that follows them returns
    [D] again and touches neither the manifest nor the storage, so the
    new command and environment are not written. *)
Theorem Save_after_SetCmd m fullref now w w1 m1 D :
  Save m fullref now w = (w1, m1, Done D) ->
  forall cmd env' fullref' now',
    Save (SetEnv env' (SetCmd cmd m1)) fullref' now' w1
    = (w1, SetEnv env' (SetCmd cmd m1), Done D).
Proof.
  intros Hsave cmd env' fullref' now'.
  pose proof (Save_desc _ _ _ _ _ _ _ Hsave) as (Hd & _ & Hs).
  unfold Save at 1. cbn [SetEnv SetCmd withConfig saved desc].
  rewrite Hd. destruct Hs as [-> |[-> ->]]; [done|].
  unfold Save in Hsave. rewrite Hd in Hsave.
  destruct (saved m) eqn:Hsv; [done|].
  destruct (DigestInfo w (Digest D)); [done|].
  destruct (ParseReference fullref) as [ref|]; [|discriminate].
  destruct (NewBlob _ _ _ _) as [w1 [configBlob|]]; [|discriminate].
  destruct (saveManifest _ _ _ _ _ _) as [[w2 m2] r] eqn:Hsave'.
  injection Hsave as Hw Hm ->.
  apply saveManifest_desc in Hsave' as (Hs' & _). subst m2.
  congruence.
Qed.

End more_setters.

(** *** What the sort does with the features *)

Lemma sink_Permutation {A} (less : A -> A -> bool) x before :
  sink less x before ≡ₚ x :: before.
Proof.
  induction before as [|y before IH]; cbn; [done|].
  destruct (less x y); [|done]. rewrite IH. apply Permutation_swap.
Qed.

Lemma sortSlice_Permutation {A} (less : A -> A -> bool) l :
  sortSlice less l ≡ₚ l.
Proof.
  unfold sortSlice. rewrite reverse_Permutation.
  assert (H : forall before,
    fold_left (fun before x => sink less x before) l before ≡ₚ l ++ before).
  { induction l as [|x l IH]; intros before; cbn; [done|].
    rewrite IH, sink_Permutation. by rewrite Permutation_middle. }
  rewrite H. by rewrite app_nil_r.
Qed.

Section sorted.

Context {A : Type} (less : A -> A -> bool) (P : A -> Prop).

Hypothesis less_asym :
  forall x y, P x -> P y -> less x y = true -> less y x = false.

(** Towards the front of the slice nothing is [less] than what
    follows it. *)
Definition notAfter (y x : A) : Prop := less y x = false.

Lemma sink_Sorted x before :
  P x -> Forall P before -> Sorted notAfter before ->
  Sorted notAfter (sink less x before).
Proof.
  intros Hx. induction before as [|y before IH]; intros HP Hs; cbn.
  - repeat constructor.
  - apply Forall_cons in HP as [Hy HP]. apply Sorted_inv in Hs as [Hs Hhd].
    destruct (less x y) eqn:Hxy.
    + constructor; [by apply IH|].
      destruct before as [|y' before]; cbn.
      * constructor. by apply less_asym.
      * destruct (less x y'); constructor.
        -- by apply HdRel_inv in Hhd.
        -- by apply less_asym.
    + constructor; [by constructor|]. by constructor.
Qed.

Lemma Sorted_snoc (R : A -> A -> Prop) l x :
  Sorted R l -> (forall y, last l = Some y -> R y x) -> Sorted R (l ++ [x]).
Proof.
  induction l as [|a l IH]; intros Hs Hlast; cbn; [repeat constructor|].
  apply Sorted_inv in Hs as [Hs Hhd]. constructor.
  - apply IH; [done|]. intros y Hy. apply Hlast.
    destruct l; [done|]. exact Hy.
  - destruct l as [|b l]; cbn.
    + constructor. by apply Hlast.
    + constructor. by apply HdRel_inv in Hhd.
Qed.

Lemma Sorted_reverse (R : A -> A -> Prop) l :
  Sorted R l -> Sorted (flip R) (reverse l).
Proof.
  induction 1 as [|a l Hs IH Hhd]; [constructor|].
  rewrite reverse_cons. apply Sorted_snoc; [exact IH|].
  intros y Hy. rewrite last_reverse in Hy.
  destruct l as [|b l]; [done|]. cbn in Hy. injection Hy as <-.
  by apply HdRel_inv in Hhd.
Qed.

Lemma sortSlice_Sorted l :
  Forall P l -> Sorted (flip notAfter) (sortSlice less l).
Proof.
  intros HP. unfold sortSlice. apply Sorted_reverse.
  assert (H : forall before, Forall P before -> Sorted notAfter before ->
    Forall P (fold_left (fun before x => sink less x before) l before)
    /\ Sorted notAfter (fold_left (fun before x => sink less x before) l before)).
  { induction HP as [|x l Hx HP IH]; intros before Hb Hs; cbn; [done|].
    apply IH.
    - rewrite sink_Permutation. by constructor.
    - by apply sink_Sorted. }
  apply H; constructor.
Qed.

End sorted.

(** X11.  The features of the image config that [Save] marshals are the
    features that were set, in another order: sorting neither drops,
    adds nor merges a feature. *)
Theorem marshaledConfig_features (m : Manifest) :
  OSFeatures (marshaledConfig m) ≡ₚ OSFeatures (config m).
Proof.
  unfold marshaledConfig. cbn [OSFeatures withOSFeatures].
  rewrite sortSlice_Permutation.
  by destruct (0 <? length _)%nat.
Qed.

(** A feature that [strconv.Atoi] accepts. *)
Definition numeric (feature : string) : Prop := is_Some (Atoi feature).

(** The order that the comparator gives two numbers. *)
Definition descending (a b : string) : Prop :=
  exists za zb, Atoi a = Some za /\ Atoi b = Some zb /\ zb <= za.

Lemma featureLess_numbers_asym x y :
  numeric x -> numeric y -> featureLess x y = true -> featureLess y x = false.
Proof.
  intros [zx Hx] [zy Hy]. unfold featureLess. rewrite Hx, Hy. lia.
Qed.

Lemma ltb_asym (x y : string) :
  String.ltb x y = true -> String.ltb y x = false.
Proof.
  unfold String.ltb. rewrite (String.compare_antisym x y).
  by destruct (String.compare y x).
Qed.

Lemma ltb_total (x y : string) :
  String.ltb y x = false -> x <> y -> String.ltb x y = true.
Proof.
  unfold String.ltb. rewrite (String.compare_antisym x y).
  destruct (String.compare y x) eqn:Hc; try done.
  apply String.compare_eq_iff in Hc. congruence.
Qed.

Lemma featureLess_letters_asym x y :
  Atoi x = None -> Atoi y = None ->
  featureLess x y = true -> featureLess y x = false.
Proof.
  intros Hx Hy. unfold featureLess. rewrite Hx, Hy. apply ltb_asym.
Qed.

Lemma Sorted_impl {A} (R R' : A -> A -> Prop) (P : A -> Prop) l :
  (forall a b, P a -> P b -> R a b -> R' a b) ->
  Forall P l -> Sorted R l -> Sorted R' l.
Proof.
  intros Himpl HP Hs. induction Hs as [|a l Hs IH Hhd]; [constructor|].
  apply Forall_cons in HP as [Ha HP]. constructor; [by apply IH|].
  destruct Hhd as [|b l Hab]; constructor.
  apply Forall_cons in HP as [Hb _]. by apply Himpl.
Qed.

(** X12.  When every feature is a number, the image config that [Save]
    marshals lists them with every number at least as large as the one
    that follows it. *)
Theorem marshaledConfig_numbers (m : Manifest) :
  Forall numeric (OSFeatures (config m)) ->
  Sorted descending (OSFeatures (marshaledConfig m)).
Proof.
  intros Hnum.
  assert (Hfeat : OSFeatures (marshaledConfig m)
                  = sortSlice featureLess (OSFeatures (config m))).
  { unfold marshaledConfig. cbn [OSFeatures withOSFeatures].
    by destruct (0 <? length _)%nat. }
  rewrite Hfeat.
  apply (Sorted_impl (flip (notAfter featureLess)) descending numeric).
  - intros a b [za Ha] [zb Hb]. unfold flip, notAfter, featureLess.
    rewrite Ha, Hb. intros Hlt. exists za, zb. repeat split; try done. lia.
  - rewrite sortSlice_Permutation. exact Hnum.
  - apply (sortSlice_Sorted featureLess numeric); [|exact Hnum].
    apply featureLess_numbers_asym.
Qed.

Lemma Compact_head l : head (Compact l) = head l.
Proof.
  induction l as [|x l IH]; [done|]. cbn [Compact].
  destruct l as [|y l]; [done|].
  destruct (String.eqb_spec x y) as [-> |Hne]; [exact IH|done].
Qed.

Lemma Compact_elem l x : x ∈ Compact l <-> x ∈ l.
Proof.
  induction l as [|a l IH]; [done|]. cbn [Compact].
  destruct l as [|b l]; [done|].
  destruct (String.eqb_spec a b) as [-> |Hne].
  - rewrite IH, !elem_of_cons. tauto.
  - rewrite !elem_of_cons, IH, elem_of_cons. done.
Qed.

Lemma Compact_Sorted l :
  Sorted (flip (notAfter String.ltb)) l ->
  Sorted (fun a b => String.ltb a b = true) (Compact l).
Proof.
  induction 1 as [|a l Hs IH Hhd]; [constructor|]. cbn [Compact].
  destruct l as [|b l]; [repeat constructor|].
  destruct (String.eqb_spec a b) as [-> |Hne]; [exact IH|].
  constructor; [exact IH|].
  pose proof (Compact_head (b :: l)) as Hhead.
  destruct (Compact (b :: l)) as [|c cs]; [constructor|].
  injection Hhead as ->. constructor.
  apply HdRel_inv in Hhd. by apply ltb_total.
Qed.

Section platform.

Context {env : Environment}.

Lemma saveManifest_platform m ref now platform configBlob w w' m' D :
  saveManifest m ref now platform configBlob w = (w', m', Done D) ->
  desc m = None -> DescriptorPlatform D = Some platform.
Proof.
  unfold saveManifest. intros H Hdesc.
  cbn [desc withManifest withAnnotations withDesc] in H. rewrite Hdesc in H.
  repeat case_match; simplify_eq; done.
Qed.

(** X13.  When no feature is a number and the manifest has no
    descriptor yet, the descriptor that a successful [Save] returns
    carries a platform whose features are the features that were set,
    each once, in strictly ascending order. *)
Theorem Save_platform_letters m fullref now w w' m' D :
  Save m fullref now w = (w', m', Done D) ->
  desc m = None ->
  Forall (fun feature => Atoi feature = None) (OSFeatures (config m)) ->
  exists platform,
    DescriptorPlatform D = Some platform
    /\ Sorted (fun a b => String.ltb a b = true) (PlatformOSFeatures platform)
    /\ forall feature, feature ∈ PlatformOSFeatures platform
                       <-> feature ∈ OSFeatures (config m).
Proof.
  unfold Save. intros Hsave Hdesc Hletters. rewrite Hdesc in Hsave.
  destruct (saved m); cbv beta iota zeta in Hsave.
  all: destruct (ParseReference fullref) as [ref|]; [|discriminate].
  all: destruct (NewBlob _ _ _ _) as [w1 [configBlob|]]; [|discriminate].
  all: destruct (saveManifest _ _ _ _ _ _) as [[w2 m2] r] eqn:Hsm.
  all: injection Hsave as <- <- ->.
  all: apply saveManifest_platform in Hsm; [|exact Hdesc].
  all: eexists; split; [exact Hsm|]; cbn [PlatformOSFeatures].
  all: assert (Hfeat : OSFeatures (marshaledConfig m)
                       = sortSlice featureLess (OSFeatures (config m)))
         by (unfold marshaledConfig; cbn [OSFeatures withOSFeatures];
             by destruct (0 <? length _)%nat).
  all: rewrite Hfeat; split.
  all: try (intros feature; rewrite Compact_elem;
            by rewrite sortSlice_Permutation).
  all: apply Compact_Sorted.
  all: apply (Sorted_impl (flip (notAfter featureLess)) _
                (fun feature => Atoi feature = None));
         [ | by rewrite sortSlice_Permutation
           | apply (sortSlice_Sorted featureLess
                      (fun feature => Atoi feature = None));
               [apply featureLess_letters_asym|exact Hletters] ].
  all: intros a b Ha Hb; unfold flip, notAfter, featureLess; by rewrite Hb.
Qed.

End platform.

(** *** The record of pushed layers *)

(** The operations of the assembler on a manifest. *)
Inductive operation :=
  | OpSetLabel (key val : string)
  | OpSetAnnotation (key val : string)
  | OpSetArchitecture (architecture : string)
  | OpSetOS (os : string)
  | OpSetOSVersion (osversion : string)
  | OpSetOSFeature (feature : list string)
  | OpSetCmd (cmd : list string)
  | OpSetEnv (env : list string)
  | OpAddLayer (layer : Layer)
  | OpSetInitrd (path : string)
  | OpSetKernel (path : string)
  | OpSetKernelDbg (path : string)
  | OpSave (fullref now : string).

Section operations.

Context {env : Environment}.

(** One call; an error leaves the manifest as the call left it. *)
Definition perform (op : operation) (s : world * Manifest) : world * Manifest :=
  let '(w, m) := s in
  match op with
  | OpSetLabel key val => (w, SetLabel key val m)
  | OpSetAnnotation key val => (w, SetAnnotation key val m)
  | OpSetArchitecture architecture => (w, SetArchitecture architecture m)
  | OpSetOS os => (w, SetOS os m)
  | OpSetOSVersion osversion => (w, SetOSVersion osversion m)
  | OpSetOSFeature feature => (w, SetOSFeature feature m)
  | OpSetCmd cmd => (w, SetCmd cmd m)
  | OpSetEnv env => (w, SetEnv env m)
  | OpAddLayer layer => (w, (AddLayer layer m).1)
  | OpSetInitrd path => (SetInitrd path m w).1
  | OpSetKernel path => (SetKernel path m w).1
  | OpSetKernelDbg path => (SetKernelDbg path m w).1
  | OpSave fullref now => (Save m fullref now w).1
  end.

Definition performAll (ops : list operation) (s : world * Manifest)
    : world * Manifest :=
  fold_left (fun s op => perform op s) ops s.

(** Every digest on record is recorded as not pushed, and every layer
    is on record. *)
Definition unpushed (m : Manifest) : Prop :=
  map_Forall (fun _ isPushed => isPushed = false) (pushed m)
  /\ Forall (fun layer => pushed m !! Digest (blob_desc (blob layer)) = Some false)
            (layers m).

Lemma unpushed_AddLayer layer m :
  unpushed m -> unpushed (AddLayer layer m).1.
Proof.
  intros [Hmap Hlayers]. split; cbn.
  - by apply map_Forall_insert_2.
  - apply Forall_app. split.
    + eapply Forall_impl; [exact Hlayers|]. intros l Hl. cbn in Hl.
      destruct (decide (Digest (blob_desc (blob layer))
                        = Digest (blob_desc (blob l)))) as [->|Hne].
      * apply lookup_insert_eq.
      * by rewrite lookup_insert_ne.
    + repeat constructor. apply lookup_insert_eq.
Qed.

Lemma unpushed_setWellKnown annotation dest value path m w :
  unpushed m -> unpushed (setWellKnown annotation dest value path m w).1.2.
Proof.
  intros [Hmap Hlayers]. unfold setWellKnown.
  pose proof (removeAnnotated_layers annotation (layers m) w) as Hkept.
  destruct (removeAnnotated annotation (layers m) w) as [w1 kept].
  cbn in Hkept. subst kept.
  assert (Hm1 : unpushed (withLayers
            (filter (fun l => hasAnnotation annotation l = false) (layers m)) m)).
  { split; [exact Hmap|]. cbn.
    rewrite Forall_forall in Hlayers |- *. intros l Hl.
    apply Hlayers. by apply list_elem_of_filter in Hl as [_ Hl]. }
  destruct (NewLayerFromFile _ _ _ _ _ _) as [w2 [layer|]]; cbn [fst snd].
  - by apply unpushed_AddLayer.
  - exact Hm1.
Qed.

Lemma saveManifest_record m ref now platform configBlob w :
  pushed (saveManifest m ref now platform configBlob w).1.2 = pushed m
  /\ layers (saveManifest m ref now platform configBlob w).1.2 = layers m.
Proof.
  unfold saveManifest. repeat case_match; done.
Qed.

Lemma Save_record m fullref now w :
  pushed (Save m fullref now w).1.2 = pushed m
  /\ layers (Save m fullref now w).1.2 = layers m.
Proof.
  unfold Save. repeat case_match; try done.
  all: match goal with
       | H : saveManifest ?m1 ?ref ?now ?p ?b ?w1 = _ |- _ =>
           pose proof (saveManifest_record m1 ref now p b w1) as Hrec;
           rewrite H in Hrec
       end.
  all: exact Hrec.
Qed.

Lemma unpushed_perform op w m :
  unpushed m -> unpushed (perform op (w, m)).2.
Proof.
  intros Hm. destruct op; cbn [perform snd]; try exact Hm.
  - by apply unpushed_AddLayer.
  - by apply unpushed_setWellKnown.
  - by apply unpushed_setWellKnown.
  - by apply unpushed_setWellKnown.
  - destruct (Save_record m fullref now w) as [Hp Hl].
    destruct Hm as [Hmap Hlayers]. split; [by rewrite Hp|].
    by rewrite Hl, Hp.
Qed.

(** X14.  No operation of the assembler ever records a layer as pushed:
    on a manifest built from [NewManifest] by any sequence of setters,
    [AddLayer] and [Save] calls, failed ones included, every digest on
    record is recorded with [false] and every layer is on record, so the
    test on [pushed] in the loop that pushes the layers never skips
    one. *)
Theorem operations_never_push (ops : list operation) (w : world) :
  unpushed (performAll ops (w, NewManifest)).2
  /\ forall digest,
       pushed (performAll ops (w, NewManifest)).2 !! digest <> Some true.
Proof.
  assert (H : forall s, unpushed s.2 -> unpushed (performAll ops s).2).
  { unfold performAll. induction ops as [|op ops IH]; intros [w0 m0] Hs;
      [exact Hs|].
    cbn [fold_left]. apply IH.
    destruct (perform op (w0, m0)) as [w1 m1] eqn:Hop.
    pose proof (unpushed_perform op w0 m0 Hs) as Hm. by rewrite Hop in Hm. }
  assert (Hall : unpushed (performAll ops (w, NewManifest)).2).
  { apply H. split; [apply map_Forall_empty|constructor]. }
  split; [exact Hall|].
  intros digest Hd. destruct Hall as [Hmap _].
  by apply Hmap in Hd.
Qed.

End operations.

Section generated.

Context {env : Environment}.

Lemma saveManifest_generated m ref now platform configBlob w w' m' D :
  saveManifest m ref now platform configBlob w = (w', m', Done D) ->
  manifest m = None -> desc m = None ->
  exists spec,
    manifest m' = Some spec
    /\ SpecConfig spec = blob_desc configBlob
    /\ SpecLayers spec = (fun layer => blob_desc (blob layer)) <$> layers m
    /\ SpecAnnotations spec = annotations m'
    /\ Annotations D = annotations m'
    /\ config m' = config m
    /\ annotations m' !! AnnotationImageName = Some (RefString ref).
Proof.
  unfold saveManifest. intros H Hman Hdesc.
  cbn [desc manifest layers withManifest withAnnotations withDesc] in H.
  rewrite Hman, Hdesc in H.
  repeat case_match; simplify_eq; cbn.
  all: eexists; split; [reflexivity|]; cbn; repeat split.
  all: apply lookup_insert_eq.
Qed.

(** X15.  A successful [Save] of a manifest that has neither a generated
    manifest nor a descriptor generates a manifest that lists the
    descriptors of the layers in the order in which they were added.
    When the manifest has a layer, the [RootFS] of its image config is
    then of type [layers] and lists the digests of those descriptors in
    the same order; when it has none, the [RootFS] is left as it was.
    The config descriptor has the image-config media type, and the
    annotations of the manifest are those of the returned descriptor. *)
Theorem Save_generated m fullref now w w' m' D :
  Save m fullref now w = (w', m', Done D) ->
  manifest m = None -> desc m = None ->
  exists spec,
    manifest m' = Some spec
    /\ SpecLayers spec = (fun layer => blob_desc (blob layer)) <$> layers m
    /\ ImageRootFS (config m')
       = match layers m with
         | [] => ImageRootFS (config m)
         | _ :: _ => {| RootFSType := "layers";
                        DiffIDs := Digest <$> SpecLayers spec |}
         end
    /\ MediaType (SpecConfig spec) = MediaTypeImageConfig
    /\ SpecAnnotations spec = annotations m'
    /\ Annotations D = annotations m'.
Proof.
  unfold Save. intros Hsave Hman Hdesc. rewrite Hdesc in Hsave.
  destruct (saved m); cbv beta iota zeta in Hsave.
  all: destruct (ParseReference fullref) as [ref|]; [|discriminate].
  all: destruct (NewBlob _ _ _ _) as [w1 [configBlob|]] eqn:Hblob;
         [|discriminate].
  all: destruct (saveManifest _ _ _ _ _ _) as [[w2 m2] r] eqn:Hsm.
  all: injection Hsave as <- <- ->.
  all: apply saveManifest_generated in Hsm
         as (spec & Hspec & Hcfg & Hls & Hann & HD & Hconfig & _);
         [|exact Hman|exact Hdesc].
  all: exists spec; split; [exact Hspec|]; split; [exact Hls|].
  all: split; [|split; [|by split]].
  all: try (rewrite Hcfg; unfold NewBlob in Hblob;
            destruct (CreateTemp w _) as [w0 [tmp|]]; [|discriminate];
            by injection Hblob as <- <-).
  all: rewrite Hconfig, Hls; cbn.
  all: unfold marshaledConfig; cbn.
  all: destruct (layers m) as [|l ls]; [done|]; cbn.
  all: by rewrite <- list_fmap_compose.
Qed.

End generated.

(** *** The extra properties at work *)

Lemma setDone (r : store * Manifest * result unit) :
  isDone r.2 = true -> r = (r.1.1, r.1.2, Done ()).
Proof.
  destruct r as [[w m] [[]|err]]; [reflexivity|discriminate].
Qed.

Lemma kernelOnly_isDone :
  isDone (SetKernel (env := memory) "/build/kernel" NewManifest disk).2 = true.
Proof. vm_compute. reflexivity. Qed.

Lemma setWellKnown_replaces_witness :
  length (filter (fun l => hasAnnotation AnnotationKernelPath l = true)
                 (layers kernelOnly.2)) = 1%nat
  /\ filter (fun l => hasAnnotation AnnotationKernelPath l = false)
            (layers kernelOnly.2)
     = filter (fun l => hasAnnotation AnnotationKernelPath l = false)
              (layers NewManifest)
  /\ (length (layers kernelOnly.2) <= S (length (layers NewManifest)))%nat.
Proof.
  exact (setWellKnown_replaces (env := memory) _ _ _ _ NewManifest disk _ _
           (setDone _ kernelOnly_isDone)).
Defined.

Lemma Save_after_SetCmd_witness :
  Save (env := memory) (SetEnv ["A=1"] (SetCmd ["/app"] firstSave.1.2))
       "app" "2024-01-02T00:00:00Z" firstSave.1.1
  = (firstSave.1.1, SetEnv ["A=1"] (SetCmd ["/app"] firstSave.1.2),
     Done (returned firstSave)).
Proof.
  exact (Save_after_SetCmd (env := memory) kernelOnly.2 "app"
           "2024-01-01T00:00:00Z" kernelOnly.1 _ _ _ firstSave_done
           ["/app"] ["A=1"] "app" "2024-01-02T00:00:00Z").
Defined.

Lemma marshaledConfig_numbers_witness :
  Sorted descending
    (OSFeatures (marshaledConfig (SetOSFeature ["1"; "2"; "10"] NewManifest))).
Proof.
  apply (marshaledConfig_numbers (SetOSFeature ["1"; "2"; "10"] NewManifest)).
  repeat constructor; eexists; vm_compute; reflexivity.
Defined.

Definition lettersSave : store * Manifest * result Descriptor :=
  Save (env := memory) (SetOSFeature ["b"; "a"; "b"] NewManifest)
       "app" "2024-01-01T00:00:00Z" disk.

Lemma lettersSave_isDone : isDone lettersSave.2 = true.
Proof. vm_compute. reflexivity. Qed.

Lemma Save_platform_letters_witness :
  exists platform,
    DescriptorPlatform (returned lettersSave) = Some platform
    /\ Sorted (fun a b => String.ltb a b = true) (PlatformOSFeatures platform)
    /\ forall feature, feature ∈ PlatformOSFeatures platform
                       <-> feature ∈ ["b"; "a"; "b"].
Proof.
  apply (Save_platform_letters (env := memory)
           (SetOSFeature ["b"; "a"; "b"] NewManifest) "app"
           "2024-01-01T00:00:00Z" disk _ _ _
           (isDone_returned _ lettersSave_isDone)).
  - reflexivity.
  - repeat constructor.
Defined.

(** A manifest with a kernel and an initrd, and its [Save]. *)
Definition twoLayers : store * Manifest :=
  (SetInitrd (env := memory) "/build/initrd" kernelOnly.2 kernelOnly.1).1.

Definition twoLayersSave : store * Manifest * result Descriptor :=
  Save (env := memory) twoLayers.2 "app" "2024-01-01T00:00:00Z" twoLayers.1.

Lemma twoLayersSave_isDone : isDone twoLayersSave.2 = true.
Proof. vm_compute. reflexivity. Qed.

Lemma twoLayers_digests :
  (fun layer => Digest (blob_desc (blob layer))) <$> layers twoLayers.2
  = ["sha256:/unikraft/bin/kernel:k"; "sha256:/unikraft/initrd:i"].
Proof. vm_compute. reflexivity. Qed.

Lemma twoLayers_fresh :
  bool_decide (manifest twoLayers.2 = None /\ desc twoLayers.2 = None) = true.
Proof. vm_compute. reflexivity. Qed.

Lemma Save_generated_witness :
  exists spec,
    manifest twoLayersSave.1.2 = Some spec
    /\ Digest <$> SpecLayers spec
       = ["sha256:/unikraft/bin/kernel:k"; "sha256:/unikraft/initrd:i"]
    /\ ImageRootFS (config twoLayersSave.1.2)
       = {| RootFSType := "layers";
            DiffIDs := ["sha256:/unikraft/bin/kernel:k";
                        "sha256:/unikraft/initrd:i"] |}.
Proof.
  destruct (bool_decide_eq_true_1 _ twoLayers_fresh) as [Hman Hdesc].
  destruct (Save_generated (env := memory) twoLayers.2 "app"
              "2024-01-01T00:00:00Z" twoLayers.1 _ _ _
              (isDone_returned _ twoLayersSave_isDone) Hman Hdesc)
    as (spec & Hspec & Hls & Hroot & _).
  assert (Hd : Digest <$> SpecLayers spec
               = ["sha256:/unikraft/bin/kernel:k"; "sha256:/unikraft/initrd:i"]).
  { rewrite Hls, <- list_fmap_compose. exact twoLayers_digests. }
  exists spec. split; [exact Hspec|]. split; [exact Hd|].
  rewrite Hroot, Hd. pose proof twoLayers_digests as Hl.
  destruct (layers twoLayers.2); [discriminate Hl|reflexivity].
Defined.

End Oci.

(** ** Tar to CPIO: the two passes of [dockerfile.Build] in [initrd/dockerfile.go] *)

Module Initrd.

Local Open Scope Z_scope.

(** The type flags of [archive/tar] that the code tells apart. *)
Inductive Typeflag :=
  | TypeReg
  | TypeLink
  | TypeSymlink
  | TypeChar
  | TypeBlock
  | TypeDir
  | TypeFifo
  | TypeOther.

#[export] Instance Typeflag_eq_dec : EqDecision Typeflag.
Proof. solve_decision. Defined.

(** One entry of the tar stream as the reader hands it out: the header
    fields that are read, and the bytes that [io.ReadAll] returns for a
    regular file. *)
Record tarEntry := {
  flag : Typeflag;
  Name : string;
  Linkname : string;
  Perm : Z;
  ModTime : Z;
  Size : Z;
  Data : string
}.

Record inodeCount := { Count : Z; Inode : Z }.

(** [cpio.Header], and the bytes written after it. *)
Record Header := {
  HeaderName : string;
  Mode : Z;
  HeaderModTime : Z;
  HeaderSize : Z;
  HeaderLinkname : string;
  Links : Z;
  HeaderInode : Z
}.

Definition cpioEntry : Type := Header * string.

(** The file type bits of the newc format. *)
Definition cpioTypeReg : Z := 32768.
Definition cpioTypeDir : Z := 16384.
Definition cpioTypeSymlink : Z := 40960.

Section Pack.

(** [rand.Int32]: the value of the [n]-th call.  [filepath.Clean]. *)
Context (randInt32 : nat -> Z) (Clean : string -> string).

(** The zero value that a missing key of [fileCount] reads as. *)
Definition fileCountAt (fileCount : gmap string inodeCount) (key : string)
    : inodeCount :=
  default {| Count := 0; Inode := 0 |} (fileCount !! key).

(** The body of the loop "Pass once to count links"; the state is the
    map and the number of random numbers drawn. *)
Definition countLink (st : gmap string inodeCount * nat) (tarHeader : tarEntry)
    : gmap string inodeCount * nat :=
  let '(fileCount, drawn) := st in
  match flag tarHeader with
  | TypeLink =>
      match fileCount !! Linkname tarHeader with
      | None =>
          (<[Linkname tarHeader :=
               {| Count := 1; Inode := randInt32 drawn |}]> fileCount,
           S drawn)
      | Some _ =>
          (<[Linkname tarHeader :=
               {| Count := Count (fileCountAt fileCount (Linkname tarHeader)) + 1;
                  Inode := Inode (fileCountAt fileCount (Linkname tarHeader)) |}]>
             fileCount,
           drawn)
      end
  | TypeReg =>
      match fileCount !! Name tarHeader with
      | None =>
          (<[Name tarHeader :=
               {| Count := 1; Inode := randInt32 drawn |}]> fileCount,
           S drawn)
      | Some _ =>
          (<[Name tarHeader :=
               {| Count := Count (fileCountAt fileCount (Name tarHeader)) + 1;
                  Inode := Inode (fileCountAt fileCount (Linkname tarHeader)) |}]>
             fileCount,
           drawn)
      end
  | _ => st
  end.

Definition countLinks (tar : list tarEntry) : gmap string inodeCount :=
  (fold_left countLink tar (∅, 0%nat)).1.

Definition withLinks (fileCount : gmap string inodeCount) (key : string)
    (h : Header) : Header :=
  match fileCount !! key with
  | Some c =>
      {| HeaderName := HeaderName h; Mode := Mode h;
         HeaderModTime := HeaderModTime h; HeaderSize := HeaderSize h;
         HeaderLinkname := HeaderLinkname h; Links := Count c;
         HeaderInode := Inode c |}
  | None => h
  end.

(** The body of the second loop: what is handed to [WriteHeader] and to
    [Write] for one entry, if anything. *)
Definition packEntry (fileCount : gmap string inodeCount)
    (tarHeader : tarEntry) : option cpioEntry :=
  let internal := "./" +:+ Clean (Name tarHeader) in
  let cpioHeader (type size : Z) (linkname : string) : Header :=
    {| HeaderName := internal;
       Mode := Z.lor (Perm tarHeader) type;
       HeaderModTime := ModTime tarHeader;
       HeaderSize := size;
       HeaderLinkname := linkname;
       Links := 0;
       HeaderInode := 0 |} in
  match flag tarHeader with
  | TypeBlock | TypeChar | TypeFifo => None
  | TypeSymlink =>
      Some (cpioHeader cpioTypeSymlink
              (Z.of_nat (String.length (Linkname tarHeader)))
              (Linkname tarHeader),
            Linkname tarHeader)
  | TypeLink =>
      Some (withLinks fileCount (Linkname tarHeader)
              (cpioHeader cpioTypeReg 0 (Linkname tarHeader)),
            "")
  | TypeReg =>
      Some (withLinks fileCount (Name tarHeader)
              (cpioHeader cpioTypeReg (Size tarHeader) (Linkname tarHeader)),
            Data tarHeader)
  | TypeDir => Some (cpioHeader cpioTypeDir (Size tarHeader) "", "")
  | TypeOther => None
  end.

(** The archive: the entries written, in the order of the tar stream. *)
Definition pack (tar : list tarEntry) : list cpioEntry :=
  omap (packEntry (countLinks tar)) tar.

(** The entry belongs to the hard-link group of the path [key]. *)
Definition inGroup (key : string) (e : tarEntry) : Prop :=
  (flag e = TypeReg /\ Name e = key) \/ (flag e = TypeLink /\ Linkname e = key).

Lemma countLink_other st e key :
  ~ inGroup key e -> (countLink st e).1 !! key = st.1 !! key.
Proof.
  intros Hout. destruct st as [fileCount drawn]. unfold countLink.
  destruct (flag e) eqn:Hflag; try done.
  - assert (Name e <> key) by (intros ?; apply Hout; by left).
    destruct (fileCount !! Name e); cbn; by rewrite lookup_insert_ne.
  - assert (Linkname e <> key) by (intros ?; apply Hout; by right).
    destruct (fileCount !! Linkname e); cbn; by rewrite lookup_insert_ne.
Qed.

Lemma countLinks_other key l : forall st,
  Forall (fun e => ~ inGroup key e) l ->
  (fold_left countLink l st).1 !! key = st.1 !! key.
Proof.
  induction l as [|e l IH]; intros st Hl; [done|].
  apply Forall_cons in Hl as [He Hl]. cbn [fold_left].
  rewrite IH by done. by apply countLink_other.
Qed.

(** A regular file that is followed by one hard link to it, and no other
    member of its group: the map counts two and holds one inode. *)
Lemma countLinks_pair pre a mid b post :
  flag a = TypeReg -> flag b = TypeLink -> Linkname b = Name a ->
  Forall (fun e => ~ inGroup (Name a) e) (pre ++ mid ++ post) ->
  exists inode,
    countLinks (pre ++ a :: mid ++ b :: post) !! Name a
    = Some {| Count := 2; Inode := inode |}.
Proof.
  intros Ha Hb Hlink Hrest.
  apply Forall_app in Hrest as [Hpre Hrest].
  apply Forall_app in Hrest as [Hmid Hpost].
  unfold countLinks. rewrite fold_left_app. cbn [fold_left].
  destruct (fold_left countLink pre (∅, 0%nat)) as [fc0 n0] eqn:Hfold0.
  assert (H0 : fc0 !! Name a = None).
  { pose proof (countLinks_other (Name a) pre (∅, 0%nat) Hpre) as H.
    rewrite Hfold0 in H. cbn in H. by rewrite lookup_empty in H. }
  exists (randInt32 n0).
  rewrite fold_left_app. cbn [fold_left].
  rewrite countLinks_other by done.
  set (st1 := countLink (fc0, n0) a).
  assert (H1 : st1.1 !! Name a = Some {| Count := 1; Inode := randInt32 n0 |}).
  { subst st1. unfold countLink. rewrite Ha, H0. cbn.
    by rewrite lookup_insert_eq. }
  destruct (fold_left countLink mid st1) as [fc2 n2] eqn:Hfold2.
  assert (H2 : fc2 !! Name a = Some {| Count := 1; Inode := randInt32 n0 |}).
  { pose proof (countLinks_other (Name a) mid st1 Hmid) as H.
    rewrite Hfold2 in H. cbn in H. by rewrite H. }
  unfold countLink. rewrite Hb, Hlink. unfold fileCountAt. rewrite H2. cbn.
  by rewrite lookup_insert_eq.
Qed.

Lemma omap_cons_Some {A B} (f : A -> option B) x y l :
  f x = Some y -> omap f (x :: l) = y :: omap f l.
Proof. intros H. cbn. by rewrite H. Qed.

(** C7.  A tar stream holds the regular file [a] and, after it, the
    hard link [b] whose target is the name of [a], and no other entry
    of that hard-link group.  The archive then has, at their places,
    one entry for [a] and one for [b] with the same inode number, both
    with link count 2; the bytes of the file follow the entry of [a];
    the entry of [b] has size 0, no bytes, and the target in
    [Linkname]. *)
Theorem pack_hard_link pre a mid b post :
  flag a = TypeReg -> flag b = TypeLink -> Linkname b = Name a ->
  Forall (fun e => ~ inGroup (Name a) e) (pre ++ mid ++ post) ->
  let tar := pre ++ a :: mid ++ b :: post in
  exists inode ha hb,
    pack tar
    = omap (packEntry (countLinks tar)) pre
      ++ (ha, Data a)
      :: omap (packEntry (countLinks tar)) mid
      ++ (hb, "") :: omap (packEntry (countLinks tar)) post
    /\ HeaderName ha = "./" +:+ Clean (Name a)
    /\ HeaderName hb = "./" +:+ Clean (Name b)
    /\ HeaderInode ha = inode /\ HeaderInode hb = inode
    /\ Links ha = 2 /\ Links hb = 2
    /\ HeaderSize ha = Size a
    /\ HeaderSize hb = 0 /\ HeaderLinkname hb = Name a.
Proof.
  intros Ha Hb Hlink Hrest tar.
  destruct (countLinks_pair pre a mid b post Ha Hb Hlink Hrest)
    as [inode Hcount].
  fold tar in Hcount.
  assert (Hpa : exists ha, packEntry (countLinks tar) a = Some (ha, Data a)
    /\ HeaderName ha = "./" +:+ Clean (Name a) /\ HeaderInode ha = inode
    /\ Links ha = 2 /\ HeaderSize ha = Size a).
  { unfold packEntry, withLinks. rewrite Ha, Hcount. eexists.
    split; [reflexivity|]. by cbn. }
  assert (Hpb : exists hb, packEntry (countLinks tar) b = Some (hb, "")
    /\ HeaderName hb = "./" +:+ Clean (Name b) /\ HeaderInode hb = inode
    /\ Links hb = 2 /\ HeaderSize hb = 0 /\ HeaderLinkname hb = Name a).
  { unfold packEntry, withLinks. rewrite Hb, Hlink, Hcount. eexists.
    split; [reflexivity|]. by cbn. }
  destruct Hpa as (ha & Hpa & Ha1 & Ha2 & Ha3 & Ha4).
  destruct Hpb as (hb & Hpb & Hb1 & Hb2 & Hb3 & Hb4 & Hb5).
  exists inode, ha, hb. split; [|done].
  change (omap (packEntry (countLinks tar)) (pre ++ a :: mid ++ b :: post)
          = omap (packEntry (countLinks tar)) pre
            ++ (ha, Data a)
            :: omap (packEntry (countLinks tar)) mid
            ++ (hb, "") :: omap (packEntry (countLinks tar)) post).
  rewrite omap_app, (omap_cons_Some _ _ _ _ Hpa).
  by rewrite omap_app, (omap_cons_Some _ _ _ _ Hpb).
Qed.

End Pack.

Definition fileA : tarEntry :=
  {| flag := TypeReg; Name := "a"; Linkname := ""; Perm := 420; ModTime := 0;
     Size := 4; Data := "data" |}.

Definition linkB : tarEntry :=
  {| flag := TypeLink; Name := "b"; Linkname := "a"; Perm := 420; ModTime := 0;
     Size := 0; Data := "" |}.

Example pack_a_b :
  pack (fun n => 7 + Z.of_nat n) id [fileA; linkB]
  = [ ({| HeaderName := "./a"; Mode := 33188; HeaderModTime := 0;
          HeaderSize := 4; HeaderLinkname := ""; Links := 2;
          HeaderInode := 7 |}, "data");
      ({| HeaderName := "./b"; Mode := 33188; HeaderModTime := 0;
          HeaderSize := 0; HeaderLinkname := "a"; Links := 2;
          HeaderInode := 7 |}, "") ].
Proof. vm_compute. reflexivity. Qed.

Definition linkC : tarEntry :=
  {| flag := TypeLink; Name := "c"; Linkname := "a"; Perm := 420; ModTime := 0;
     Size := 0; Data := "" |}.

(** C7 as the specification words it, for one stream that holds [a]
    and then [b]: the archive has an entry for each, the two have one
    inode number and link count 2. *)
Definition pairHasTwoLinks (tar : list tarEntry) (a b : tarEntry) : Prop :=
  exists ha hb,
    (ha, Data a) ∈ pack (fun n => 7 + Z.of_nat n) id tar
    /\ (hb, "") ∈ pack (fun n => 7 + Z.of_nat n) id tar
    /\ HeaderName ha = "./" +:+ Name a /\ HeaderName hb = "./" +:+ Name b
    /\ HeaderInode ha = HeaderInode hb
    /\ Links ha = 2 /\ Links hb = 2.

(** With a second hard link to [a] in the stream the entries of [a] and
    of [b] carry link count 3. *)
Lemma three_links : ~ pairHasTwoLinks [fileA; linkB; linkC] fileA linkB.
Proof.
  intros (ha & hb & Hina & _ & _ & _ & _ & Hlinks & _).
  assert (Hall : Forall (fun e : cpioEntry => Links e.1 = 3)
                   (pack (fun n => 7 + Z.of_nat n) id [fileA; linkB; linkC])).
  { vm_compute. repeat constructor. }
  rewrite Forall_forall in Hall. apply Hall in Hina. cbn in Hina. lia.
Qed.

Lemma pack_hard_link_witness :
  exists inode ha hb,
    pack (fun n => 7 + Z.of_nat n) id ([] ++ fileA :: [] ++ linkB :: [])
    = [] ++ (ha, "data") :: [] ++ [(hb, "")]
    /\ HeaderName ha = "./a" /\ HeaderName hb = "./b"
    /\ HeaderInode ha = inode /\ HeaderInode hb = inode
    /\ Links ha = 2 /\ Links hb = 2
    /\ HeaderSize ha = 4
    /\ HeaderSize hb = 0 /\ HeaderLinkname hb = "a".
Proof.
  apply (pack_hard_link (fun n => 7 + Z.of_nat n) id [] fileA [] linkB []);
    [reflexivity|reflexivity|reflexivity|constructor].
Defined.

(** *** The whole stream *)

#[export] Instance inGroup_dec key e : Decision (inGroup key e).
Proof. unfold inGroup. apply _. Defined.

(** The entries for which the second pass writes something. *)
Definition written (e : tarEntry) : bool :=
  match flag e with
  | TypeReg | TypeLink | TypeSymlink | TypeDir => true
  | TypeChar | TypeBlock | TypeFifo | TypeOther => false
  end.

Section Stream.

Context (randInt32 : nat -> Z) (Clean : string -> string).

Lemma countLink_group st e key :
  inGroup key e ->
  Count (fileCountAt (countLink randInt32 st e).1 key)
  = Count (fileCountAt st.1 key) + 1
  /\ is_Some ((countLink randInt32 st e).1 !! key).
Proof.
  intros Hin. destruct st as [fileCount drawn]. unfold countLink, fileCountAt.
  destruct Hin as [[-> <-]|[-> <-]].
  - destruct (fileCount !! Name e) eqn:Hk; cbn;
      rewrite lookup_insert_eq; cbn; split; try done; by rewrite Hk.
  - destruct (fileCount !! Linkname e) eqn:Hk; cbn;
      rewrite lookup_insert_eq; cbn; split; try done; by rewrite Hk.
Qed.

Lemma countLink_is_Some st e key :
  is_Some (st.1 !! key) -> is_Some ((countLink randInt32 st e).1 !! key).
Proof.
  intros Hk. destruct (decide (inGroup key e)) as [Hin|Hout].
  - by apply countLink_group.
  - by rewrite countLink_other.
Qed.

Lemma fold_countLink key tar : forall st,
  Count (fileCountAt (fold_left (countLink randInt32) tar st).1 key)
  = Count (fileCountAt st.1 key) + Z.of_nat (length (filter (inGroup key) tar))
  /\ (is_Some ((fold_left (countLink randInt32) tar st).1 !! key)
      <-> is_Some (st.1 !! key) \/ Exists (inGroup key) tar).
Proof.
  induction tar as [|e tar IH]; intros st; cbn [fold_left].
  - rewrite filter_nil. cbn. split; [lia|]. rewrite Exists_nil. tauto.
  - destruct (IH (countLink randInt32 st e)) as [IHc IHs].
    rewrite IHc, IHs, Exists_cons, filter_cons.
    destruct (decide (inGroup key e)) as [Hin|Hout].
    + destruct (countLink_group st e key Hin) as [Hc Hs].
      rewrite Hc. cbn [length]. split; [lia|]. tauto.
    + unfold fileCountAt. rewrite countLink_other by done.
      split; [done|]. tauto.
Qed.

(** X16.  After the first pass the count recorded for a path is the
    number of entries of the stream in its hard-link group (the regular
    files with that name and the hard links with that target), and a
    path is in the map exactly when its group is not empty; so the
    second pass finds every regular file and every hard link in the
    map. *)
Theorem countLinks_count (tar : list tarEntry) (key : string) :
  Count (fileCountAt (countLinks randInt32 tar) key)
  = Z.of_nat (length (filter (inGroup key) tar))
  /\ (is_Some (countLinks randInt32 tar !! key) <-> Exists (inGroup key) tar).
Proof.
  unfold countLinks.
  destruct (fold_countLink key tar (∅, 0%nat)) as [Hc Hs].
  rewrite Hc, Hs. cbn. unfold fileCountAt. rewrite lookup_empty. cbn.
  split; [done|]. split; [|by right].
  intros [[? Hk]|H]; [|done]. rewrite ?lookup_empty in Hk. done.
Qed.

(** What the second pass hands to [Write] for an entry. *)
Definition body (e : tarEntry) : string :=
  match flag e with
  | TypeReg => Data e
  | TypeSymlink => Linkname e
  | _ => ""
  end.

Lemma withLinks_name fileCount key h :
  HeaderName (withLinks fileCount key h) = HeaderName h.
Proof. unfold withLinks. by destruct (fileCount !! key). Qed.

Lemma packEntry_written fileCount (e : tarEntry) :
  match packEntry Clean fileCount e with
  | Some (h, data) =>
      written e = true
      /\ HeaderName h = "./" +:+ Clean (Name e) /\ data = body e
  | None => written e = false
  end.
Proof.
  unfold packEntry, written, body.
  destruct (flag e); rewrite ?withLinks_name; done.
Qed.

(** X18.  The archive has one entry for each regular file, hard link,
    symlink and directory of the stream, in the order of the stream, and
    none for a device, a fifo or any other type; the entry is named
    [./] followed by the cleaned tar name, and bytes follow it only for a
    regular file (its content) and a symlink (its target). *)
Theorem pack_entries (tar : list tarEntry) :
  (fun e : cpioEntry => (HeaderName e.1, e.2)) <$> pack randInt32 Clean tar
  = (fun e => ("./" +:+ Clean (Name e), body e))
      <$> filter (fun e => written e = true) tar.
Proof.
  unfold pack. generalize (countLinks randInt32 tar). intros fileCount.
  induction tar as [|e tar IH]; [done|].
  rewrite filter_cons. cbn [omap list_omap].
  pose proof (packEntry_written fileCount e) as He.
  destruct (packEntry Clean fileCount e) as [[h data]|].
  - destruct He as (Hw & Hname & Hdata).
    rewrite decide_True by done. cbn. rewrite Hname, Hdata. f_equal. exact IH.
  - rewrite decide_False by (rewrite He; done). exact IH.
Qed.

(** X17.  When the hard link [b] comes before its target, the regular
    file [a], in the stream (and the group has no other entry, and
    nothing has the link name of [a] as its path), the first pass
    records link count 2 with inode number 0 for the path: the inode
    drawn for the link is replaced by the one read at [Linkname] of the
    file, which reads the zero value.  Both entries are written with
    link count 2 and inode number 0. *)
Theorem pack_link_before_file pre b mid a post :
  flag b = TypeLink -> flag a = TypeReg -> Linkname b = Name a ->
  Linkname a <> Name a ->
  Forall (fun e => ~ inGroup (Name a) e) (pre ++ mid ++ post) ->
  Forall (fun e => ~ inGroup (Linkname a) e) (pre ++ mid) ->
  let tar := pre ++ b :: mid ++ a :: post in
  countLinks randInt32 tar !! Name a = Some {| Count := 2; Inode := 0 |}
  /\ (exists hb, packEntry Clean (countLinks randInt32 tar) b = Some (hb, "")
                 /\ Links hb = 2 /\ HeaderInode hb = 0)
  /\ (exists ha, packEntry Clean (countLinks randInt32 tar) a = Some (ha, Data a)
                 /\ Links ha = 2 /\ HeaderInode ha = 0).
Proof.
  intros Hb Ha Hlink Hne Hrest Hother tar.
  apply Forall_app in Hrest as [Hpre Hrest].
  apply Forall_app in Hrest as [Hmid Hpost].
  apply Forall_app in Hother as [Hpre' Hmid'].
  assert (Hcount : countLinks randInt32 tar !! Name a
                   = Some {| Count := 2; Inode := 0 |}).
  { subst tar. unfold countLinks. rewrite fold_left_app. cbn [fold_left].
    destruct (fold_left (countLink randInt32) pre (∅, 0%nat))
      as [fc0 n0] eqn:Hfold0.
    assert (H0 : fc0 !! Name a = None /\ fc0 !! Linkname a = None).
    { pose proof (countLinks_other randInt32 (Name a) pre (∅, 0%nat) Hpre) as H.
      pose proof (countLinks_other randInt32 (Linkname a) pre (∅, 0%nat) Hpre')
        as H'.
      rewrite Hfold0 in H, H'. cbn in H, H'.
      by rewrite lookup_empty in H, H'. }
    destruct H0 as [H0 H0'].
    rewrite fold_left_app. cbn [fold_left].
    rewrite countLinks_other by done.
    set (st1 := countLink randInt32 (fc0, n0) b).
    assert (H1 : st1.1 !! Name a
                 = Some {| Count := 1; Inode := randInt32 n0 |}
                 /\ st1.1 !! Linkname a = None).
    { subst st1. unfold countLink. rewrite Hb, Hlink, H0. cbn.
      rewrite lookup_insert_eq. by rewrite lookup_insert_ne. }
    destruct H1 as [H1 H1'].
    destruct (fold_left (countLink randInt32) mid st1) as [fc2 n2] eqn:Hfold2.
    assert (H2 : fc2 !! Name a
                 = Some {| Count := 1; Inode := randInt32 n0 |}
                 /\ fc2 !! Linkname a = None).
    { pose proof (countLinks_other randInt32 (Name a) mid st1 Hmid) as H.
      pose proof (countLinks_other randInt32 (Linkname a) mid st1 Hmid') as H'.
      rewrite Hfold2 in H, H'. cbn in H, H'. by rewrite H, H'. }
    destruct H2 as [H2 H2'].
    unfold countLink. rewrite Ha. unfold fileCountAt. rewrite H2, H2'. cbn.
    by rewrite lookup_insert_eq. }
  split; [exact Hcount|]. split.
  - unfold packEntry, withLinks. rewrite Hb, Hlink, Hcount. eexists.
    split; [reflexivity|]. by cbn.
  - unfold packEntry, withLinks. rewrite Ha, Hcount. eexists.
    split; [reflexivity|]. by cbn.
Qed.

End Stream.

Lemma pack_link_before_file_witness :
  countLinks (fun n => 7 + Z.of_nat n) [linkB; fileA] !! "a"
  = Some {| Count := 2; Inode := 0 |}
  /\ (exists hb,
        packEntry id (countLinks (fun n => 7 + Z.of_nat n) [linkB; fileA]) linkB
        = Some (hb, "")
        /\ Links hb = 2 /\ HeaderInode hb = 0)
  /\ (exists ha,
        packEntry id (countLinks (fun n => 7 + Z.of_nat n) [linkB; fileA]) fileA
        = Some (ha, "data")
        /\ Links ha = 2 /\ HeaderInode ha = 0).
Proof.
  apply (pack_link_before_file (fun n => 7 + Z.of_nat n) id [] linkB [] fileA []);
    [reflexivity|reflexivity|reflexivity|discriminate|constructor|constructor].
Defined.

End Initrd.

(** ** [kraft compose create]: the error paths of [CreateOptions.Run] *)

Module Create.

Inductive MachineState :=
  | MachineStateUnknown
  | MachineStateCreated
  | MachineStateRunning
  | MachineStateExited.

#[export] Instance MachineState_eq_dec : EqDecision MachineState.
Proof. solve_decision. Defined.

Record Machine := { MachineName : string; State : MachineState }.

Record Service := { Name : string; ContainerName : string; Image : string }.

(** What [Run] calls and what each call answers: [None] and [inr] are
    the nil error.  Every call is made at most once per argument. *)
Class Calls := {
  NewProjectFromComposeFile : option string;
  Validate : option string;
  AssignIPs : option string;
  RemoveOrphans : option string;
  composeGet : string + list string;
  networkList : option string;
  networksToCreate : list string;
  createNetwork : string -> option string;
  volumeList : option string;
  volumesToCreate : list string;
  createVolume : string -> option string;
  machineList : string + list Machine;
  orderedServices : string + list Service;
  removeMachine : string -> option string;
  buildService : Service -> option string;
  ensureServiceIsPackaged : Service -> option string;
  createService : Service -> option string;
  machineGet : string -> string + Machine;
  composeUpdate : option string
}.

(** The records that the body of the loop over the services writes
    itself: the [Debugf] at its head and the [Errorf] after a failed
    [createService].  What the calls it makes write to the same logger
    (the [Infof] of [createService], of [buildService], ...) belongs to
    those calls, which are answers here, and is not among the events. *)
Inductive event :=
  | Creating (service : string)
  | FailedToCreate (service err : string).

Inductive result (A : Type) :=
  | Returned (a : A)
  | Failed (err : string).
Arguments Returned {A} a.
Arguments Failed {A} err.

(** The names in [projectMachines], and the events of the loop body. *)
Record progress := { projectMachines : list string; log : list event }.

Section Run.

Context {calls : Calls}.

(** The loop over [machines.Items] at the head of the body. *)
Inductive scanned :=
  | AlreadyCreated
  | RemoveFailed (err : string)
  | Fresh (projectMachines : list string).

Fixpoint removeFirst (name : string) (l : list string) : list string :=
  match l with
  | [] => []
  | m :: l' => if String.eqb m name then l' else m :: removeFirst name l'
  end.

Fixpoint scanMachines (service : Service) (machines : list Machine)
    (projectMachines : list string) : scanned :=
  match machines with
  | [] => Fresh projectMachines
  | machine :: machines' =>
      if negb (String.eqb (ContainerName service) (MachineName machine))
      then scanMachines service machines' projectMachines
      else if bool_decide (State machine = MachineStateRunning)
              || bool_decide (State machine = MachineStateCreated)
      then AlreadyCreated
      else match removeMachine (ContainerName service) with
           | Some err => RemoveFailed err
           | None => Fresh (removeFirst (MachineName machine) projectMachines)
           end
  end.

(** The body of [for _, service := range orderedServices]. *)
Definition createOne (machines : list Machine) (st : progress)
    (service : Service) : result progress :=
  let log1 := log st ++ [Creating (Name service)] in
  match scanMachines service machines (projectMachines st) with
  | AlreadyCreated => Returned {| projectMachines := projectMachines st; log := log1 |}
  | RemoveFailed err => Failed err
  | Fresh machines1 =>
      match (if String.eqb (Image service) "" then buildService service
             else ensureServiceIsPackaged service) with
      | Some err => Failed err
      | None =>
          let log2 :=
            match createService service with
            | Some err => log1 ++ [FailedToCreate (Name service) err]
            | None => log1
            end in
          match machineGet (ContainerName service) with
          | inr machine =>
              Returned
                {| projectMachines :=
                     if bool_decide (State machine = MachineStateCreated)
                     then machines1 ++ [MachineName machine]
                     else machines1;
                   log := log2 |}
          | inl err => Failed err
          end
      end
  end.

Fixpoint createAll (machines : list Machine) (services : list Service)
    (st : progress) : result progress :=
  match services with
  | [] => Returned st
  | service :: services' =>
      match createOne machines st service with
      | Returned st' => createAll machines services' st'
      | Failed err => Failed err
      end
  end.

(** A loop that returns the first error. *)
Fixpoint each (call : string -> option string) (names : list string)
    : option string :=
  match names with
  | [] => None
  | name :: names' =>
      match call name with
      | Some err => Some err
      | None => each call names'
      end
  end.

Definition check (step : option string) (rest : result progress)
    : result progress :=
  match step with
  | Some err => Failed err
  | None => rest
  end.

(** [Run], with [--remove-orphans] given or not. *)
Definition Run (removeOrphans : bool) : result progress :=
  check NewProjectFromComposeFile
  (check Validate
  (check AssignIPs
  (check (if removeOrphans then RemoveOrphans else None)
  match composeGet with
  | inl err => Failed err
  | inr embedded =>
    check networkList
    (check (each createNetwork networksToCreate)
    (check volumeList
    (check (each createVolume volumesToCreate)
    match machineList with
    | inl err => Failed err
    | inr machines =>
      match orderedServices with
      | inl err => Failed err
      | inr services =>
        match createAll machines services
                {| projectMachines := embedded; log := [] |} with
        | Failed err => Failed err
        | Returned st => check composeUpdate (Returned st)
        end
      end
    end)))
  end))).

(** The call that stands between a service and its machine. *)
Definition prepare (service : Service) : option string :=
  if String.eqb (Image service) "" then buildService service
  else ensureServiceIsPackaged service.

(** The phases of [Run] before the loop over the services went through. *)
Definition reachesServices (removeOrphans : bool) (embedded : list string)
    (machines : list Machine) (services : list Service) : Prop :=
  NewProjectFromComposeFile = None /\ Validate = None /\ AssignIPs = None
  /\ (if removeOrphans then RemoveOrphans else None) = None
  /\ composeGet = inr embedded
  /\ networkList = None /\ each createNetwork networksToCreate = None
  /\ volumeList = None /\ each createVolume volumesToCreate = None
  /\ machineList = inr machines /\ orderedServices = inr services.

Lemma createAll_app machines l1 : forall l2 st,
  createAll machines (l1 ++ l2) st
  = match createAll machines l1 st with
    | Returned st' => createAll machines l2 st'
    | Failed err => Failed err
    end.
Proof.
  induction l1 as [|service l1 IH]; intros l2 st; [done|]. cbn.
  destruct (createOne machines st service); [apply IH|done].
Qed.


End Run.

Definition api : Service := {| Name := "api"; ContainerName := "app-api"; Image := "" |}.
Definition cache : Service :=
  {| Name := "cache"; ContainerName := "app-cache"; Image := "cache:latest" |}.

(** A run in which every call succeeds but the build of [api]. *)
Definition buildFails : Calls :=
  {| NewProjectFromComposeFile := None; Validate := None; AssignIPs := None;
     RemoveOrphans := None; composeGet := inr (@nil string);
     networkList := None; networksToCreate := []; createNetwork := fun _ => None;
     volumeList := None; volumesToCreate := []; createVolume := fun _ => None;
     machineList := inr (@nil Machine); orderedServices := inr [api; cache];
     removeMachine := fun _ => None;
     buildService := fun _ => Some "solve failed";
     ensureServiceIsPackaged := fun _ => None;
     createService := fun _ => None;
     machineGet := fun name =>
       inr {| MachineName := name; State := MachineStateCreated |};
     composeUpdate := None |}.

(** C9 as the specification words its middle part: after a failure to
    build a service the run goes on and attempts every service. *)
Definition buildFailureIsLocal (calls : Calls) : Prop :=
  forall services service err,
    orderedServices = inr services -> service ∈ services ->
    buildService service = Some err ->
    exists st, Run false = Returned st
               /\ forall s, s ∈ services -> Creating (Name s) ∈ log st.



End Create.

(** ** Xenstore wire packets: [machine/xen/xenstore_client.go] *)

Module Xenstore.

Local Open Scope Z_scope.

(** A byte is a number below 256 and a [uint32] one below [2^32]; the
    sum of two [uint32] values wraps around.  A Go string is its
    bytes. *)
Definition byte := Z.

Definition add32 (a b : Z) : Z := (a + b) mod 2 ^ 32.

(** A byte slice: the bytes of its backing array from the first element
    of the slice up to its capacity, and its length.  What lies between
    the length and the capacity is not seen by [append], [range] or
    [bytes.Split], and is seen again by a slice expression. *)
Record Slice := { array : list byte; len : nat }.

Definition cap (s : Slice) : nat := length (array s).

(** The elements of the slice, up to its length. *)
Definition bytesOf (s : Slice) : list byte := take (len s) (array s).

Definition WatchOp : Z := 4.
Definition UnwatchOp : Z := 5.
Definition WatchEvent : Z := 15.
Definition Error : Z := 16.

Record XsHeader := { Op : Z; ReqID : Z; TxID : Z; Lenght : Z }.

(** The payload of a packet is read within its length only (by
    [append] in [pack] and by [bytes.Split] in [SplitData]), so it is
    kept as its elements. *)
Record XsPacket := { Header : XsHeader; Data : list byte }.

(** [binary.LittleEndian.AppendUint32] and [binary.LittleEndian.Uint32],
    on the elements. *)
Definition AppendUint32 (b : list byte) (v : Z) : list byte :=
  b ++ [Z.land v 255; Z.land (Z.shiftr v 8) 255;
        Z.land (Z.shiftr v 16) 255; Z.land (Z.shiftr v 24) 255].

Definition Uint32 (b : list byte) : Z :=
  Z.lor (Z.lor (Z.lor (nth 0 b 0) (Z.shiftl (nth 1 b 0) 8))
               (Z.shiftl (nth 2 b 0) 16))
        (Z.shiftl (nth 3 b 0) 24).

(** The slice expression [data[lo:hi]]: it panics ([None]) unless
    [0 <= lo <= hi <= cap(data)], whatever the length of [data] is. *)
Definition slice (data : Slice) (lo hi : Z) : option Slice :=
  if (0 <=? lo) && (lo <=? hi) && (hi <=? Z.of_nat (cap data))
  then Some {| array := drop (Z.to_nat lo) (array data);
               len := Z.to_nat (hi - lo) |}
  else None.

(** The bytes that [pack] appends, one after the other. *)
Definition wire (packet : XsPacket) : list byte :=
  let data := [] in
  let data := AppendUint32 data (Op (Header packet)) in
  let data := AppendUint32 data (ReqID (Header packet)) in
  let data := AppendUint32 data (TxID (Header packet)) in
  let data := AppendUint32 data (Lenght (Header packet)) in
  data ++ Data packet.

(** [pack]: the slice that the chain of [append] calls returns.  Its
    capacity exceeds its length by as much as the runtime chose when it
    grew the array ([spare]); the bytes there are zero. *)
Definition pack (spare : nat) (packet : XsPacket) : Slice :=
  {| array := wire packet ++ replicate spare 0;
     len := length (wire packet) |}.

(** [unpack]; the upper bound of the payload is the [uint32] sum
    [16+header.Lenght]. *)
Definition unpack (data : Slice) : option XsPacket :=
  op ← slice data 0 4;
  reqID ← slice data 4 8;
  txID ← slice data 8 12;
  lenght ← slice data 12 16;
  let header := {| Op := Uint32 (bytesOf op); ReqID := Uint32 (bytesOf reqID);
                   TxID := Uint32 (bytesOf txID);
                   Lenght := Uint32 (bytesOf lenght) |} in
  payload ← slice data 16 (add32 16 (Lenght header));
  Some {| Header := header; Data := bytesOf payload |}.

(** [bytes.Split(s, sep)] for a separator of one byte. *)
Fixpoint Split (s : list byte) (sep : byte) : list (list byte) :=
  match s with
  | [] => [[]]
  | b :: s' =>
      if b =? sep then [] :: Split s' sep
      else match Split s' sep with
           | piece :: pieces => (b :: piece) :: pieces
           | [] => [[b]]
           end
  end.

Definition SplitData (packet : XsPacket) : list (list byte) :=
  let splitPayload := [] in
  fold_left (fun splitPayload byteSl => splitPayload ++ [byteSl])
            (Split (Data packet) 0) splitPayload.

(** The payload that [xsWatchRequest] sends, and its packet; the length
    is converted to [uint32]. *)
Definition watchData (xsPath token : list byte) : list byte :=
  ((xsPath ++ [0]) ++ token) ++ [0].

Definition watchPacket (xsPath token : list byte) : XsPacket :=
  let data := watchData xsPath token in
  {| Header := {| Op := WatchOp; ReqID := 0; TxID := 0;
                  Lenght := Z.of_nat (length data) mod 2 ^ 32 |};
     Data := data |}.

Definition uint32 (v : Z) : Prop := 0 <= v < 2 ^ 32.

Lemma Uint32_AppendUint32 v :
  uint32 v -> Uint32 (AppendUint32 [] v) = v.
Proof.
  intros Hv. unfold Uint32, AppendUint32. cbn [app nth].
  apply Z.bits_inj'. intros n Hn.
  rewrite !Z.lor_spec, !Z.shiftl_spec by lia.
  change 255 with (Z.ones 8).
  assert (Hbyte : forall k m, 0 <= k ->
    Z.testbit (Z.land (Z.shiftr v k) (Z.ones 8)) m
    = if (0 <=? m) && (m <? 8) then Z.testbit v (m + k) else false).
  { intros k m Hk. destruct (Z.leb_spec 0 m); cbn [andb].
    - rewrite Z.land_spec, Z.shiftr_spec by lia.
      destruct (Z.ltb_spec m 8).
      + rewrite Z.ones_spec_low by lia. apply andb_true_r.
      + rewrite Z.ones_spec_high by lia. apply andb_false_r.
    - apply Z.testbit_neg_r. lia. }
  rewrite <- (Z.shiftr_0_r v) at 1. rewrite !Hbyte by lia.
  destruct (Z.lt_ge_cases n 8); [| destruct (Z.lt_ge_cases n 16);
    [| destruct (Z.lt_ge_cases n 24); [| destruct (Z.lt_ge_cases n 32)]]];
    repeat match goal with
    | |- context [?a <=? ?b] => destruct (Z.leb_spec a b); try lia
    | |- context [?a <? ?b] => destruct (Z.ltb_spec a b); try lia
    end; cbn [andb orb]; rewrite ?orb_false_r; try (f_equal; lia).
  symmetry. destruct Hv as [Hv0 Hv1].
  destruct (Z.eq_dec v 0) as [-> |Hne]; [apply Z.bits_0|].
  apply Z.bits_above_log2; [lia|].
  assert (Z.log2 v < 32) by (apply Z.log2_lt_pow2; lia). lia.
Qed.

Definition isByte (b : byte) : Prop := 0 <= b < 256.

Lemma lor_bound (a b n : Z) :
  0 <= n -> 0 <= a < 2 ^ n -> 0 <= b < 2 ^ n -> 0 <= Z.lor a b < 2 ^ n.
Proof.
  intros Hn Ha Hb. split; [apply Z.lor_nonneg; lia|].
  destruct (Z.eq_dec (Z.lor a b) 0) as [-> |Hne]; [lia|].
  apply Z.log2_lt_pow2; [pose proof (proj2 (Z.lor_nonneg a b)); lia|].
  rewrite Z.log2_lor by lia.
  destruct (Z.eq_dec a 0) as [-> |Ha0], (Z.eq_dec b 0) as [-> |Hb0].
  - done.
  - rewrite Z.max_r by (cbn; apply Z.log2_nonneg).
    apply Z.log2_lt_pow2; lia.
  - rewrite Z.max_l by (cbn; apply Z.log2_nonneg).
    apply Z.log2_lt_pow2; lia.
  - apply Z.max_lub_lt; apply Z.log2_lt_pow2; lia.
Qed.

Lemma shiftl_byte_bound (b k : Z) :
  isByte b -> 0 <= k <= 24 -> 0 <= Z.shiftl b k < 2 ^ 32.
Proof.
  intros [Hb0 Hb1] Hk. rewrite Z.shiftl_mul_pow2 by lia. split; [nia|].
  apply Z.lt_le_trans with (256 * 2 ^ k); [nia|].
  change 256 with (2 ^ 8). rewrite <- Z.pow_add_r by lia.
  apply Z.pow_le_mono_r; lia.
Qed.

Lemma Uint32_bound b : Forall isByte b -> 0 <= Uint32 b < 2 ^ 32.
Proof.
  intros Hb. unfold Uint32.
  assert (Hnth : forall i, isByte (nth i b 0)).
  { intros i. destruct (nth_in_or_default i b 0) as [Hin|Heq].
    - rewrite Forall_forall in Hb. by apply list_elem_of_In, Hb in Hin.
    - rewrite Heq. unfold isByte. lia. }
  repeat apply lor_bound; try lia; try (apply shiftl_byte_bound; [apply Hnth|lia]).
  pose proof (Hnth 0%nat) as [? ?]. lia.
Qed.

Lemma slice_Some (data : Slice) (lo hi : Z) :
  0 <= lo <= hi -> hi <= Z.of_nat (cap data) ->
  slice data lo hi
  = Some {| array := drop (Z.to_nat lo) (array data);
            len := Z.to_nat (hi - lo) |}.
Proof.
  intros Hlo Hhi. unfold slice.
  destruct (Z.leb_spec 0 lo); [|lia]. destruct (Z.leb_spec lo hi); [|lia].
  by destruct (Z.leb_spec hi (Z.of_nat (cap data))); [|lia].
Qed.

Lemma slice_None (data : Slice) (lo hi : Z) :
  0 <= lo ->
  slice data lo hi = None <-> hi < lo \/ Z.of_nat (cap data) < hi.
Proof.
  intros Hlo. unfold slice. destruct (Z.leb_spec 0 lo); [|lia].
  destruct (Z.leb_spec lo hi), (Z.leb_spec hi (Z.of_nat (cap data))); cbn;
    split; (done || lia || (intros [?|?]; lia)).
Qed.

Lemma slice_bytes (data s : Slice) (lo hi : Z) :
  slice data lo hi = Some s ->
  bytesOf s = take (Z.to_nat (hi - lo)) (drop (Z.to_nat lo) (array data))
  /\ 0 <= lo <= hi /\ hi <= Z.of_nat (cap data).
Proof.
  unfold slice.
  destruct (Z.leb_spec 0 lo); [|done]. destruct (Z.leb_spec lo hi); [|done].
  destruct (Z.leb_spec hi (Z.of_nat (cap data))); [|done].
  intros [= <-]. split; [done|lia].
Qed.

Lemma take_drop_middle {A} (pre mid post : list A) :
  take (length mid) (drop (length pre) (pre ++ mid ++ post)) = mid.
Proof. by rewrite drop_app_length, take_app_length. Qed.

(** What [unpack] reads from a slice whose array begins with the bytes
    of a packet: only the array counts, not the length of the slice. *)
Lemma unpack_wire (packet : XsPacket) (rest : list byte) (n : nat) :
  uint32 (Op (Header packet)) -> uint32 (ReqID (Header packet)) ->
  uint32 (TxID (Header packet)) -> uint32 (Lenght (Header packet)) ->
  unpack {| array := wire packet ++ rest; len := n |}
  = if (Lenght (Header packet) <? 2 ^ 32 - 16)
       && (Lenght (Header packet) <=? Z.of_nat (length (Data packet ++ rest)))
    then Some {| Header := Header packet;
                 Data := take (Z.to_nat (Lenght (Header packet)))
                              (Data packet ++ rest) |}
    else None.
Proof.
  destruct packet as [[op reqID txID lenght] data].
  cbn [Header Data Op ReqID TxID Lenght].
  intros Hop Hreq Htx Hlen. unfold unpack, wire.
  cbn [Header Data Op ReqID TxID Lenght].
  assert (Happ : forall b v, AppendUint32 b v = b ++ AppendUint32 [] v) by done.
  rewrite (Happ (AppendUint32 _ txID)), (Happ (AppendUint32 _ reqID)),
    (Happ (AppendUint32 [] op)).
  set (hop := AppendUint32 [] op). set (hreq := AppendUint32 [] reqID).
  set (htx := AppendUint32 [] txID). set (hlen := AppendUint32 [] lenght).
  set (buffer := {| array := _; len := n |}).
  assert (Harr : array buffer
                 = hop ++ hreq ++ htx ++ hlen ++ (data ++ rest)).
  { subst buffer. cbn [array]. by rewrite <- !app_assoc. }
  assert (Hcap : Z.of_nat (cap buffer) = 16 + Z.of_nat (length (data ++ rest))).
  { unfold cap. rewrite Harr, !length_app. subst hop hreq htx hlen. cbn. lia. }
  assert (Hhead : forall lo hi (pre mid post : list byte),
    array buffer = pre ++ mid ++ post ->
    lo = Z.of_nat (length pre) -> hi = lo + Z.of_nat (length mid) ->
    exists s, slice buffer lo hi = Some s /\ bytesOf s = mid).
  { intros lo hi pre mid post Harr' -> ->. eexists. split.
    - apply slice_Some; [lia|]. unfold cap. rewrite Harr', !length_app. lia.
    - unfold bytesOf. cbn [array len]. rewrite Harr', Nat2Z.id.
      replace (Z.to_nat _) with (length mid) by lia.
      apply take_drop_middle. }
  destruct (Hhead 0 4 [] hop (hreq ++ htx ++ hlen ++ (data ++ rest)))
    as (s0 & -> & E0); [done..|].
  destruct (Hhead 4 8 hop hreq (htx ++ hlen ++ (data ++ rest)))
    as (s1 & -> & E1); [done..|].
  destruct (Hhead 8 12 (hop ++ hreq) htx (hlen ++ (data ++ rest)))
    as (s2 & -> & E2); [by rewrite Harr, <- !app_assoc|done..|].
  destruct (Hhead 12 16 (hop ++ hreq ++ htx) hlen (data ++ rest))
    as (s3 & -> & E3); [by rewrite Harr, <- !app_assoc|done..|].
  cbn [mbind option_bind Lenght]. rewrite E0, E1, E2, E3.
  subst hop hreq htx hlen. rewrite !Uint32_AppendUint32 by assumption.
  fold (AppendUint32 [] op) (AppendUint32 [] reqID) (AppendUint32 [] txID)
    (AppendUint32 [] lenght) in Harr.
  destruct Hlen as [Hlen0 Hlen1]. unfold add32.
  destruct (Z.ltb_spec lenght (2 ^ 32 - 16)) as [Hsmall|Hbig]; cbn [andb].
  - rewrite Z.mod_small by lia.
    destruct (Z.leb_spec lenght (Z.of_nat (length (data ++ rest)))) as [Hfit|Hout].
    + rewrite slice_Some by lia. cbn [mbind option_bind]. do 2 f_equal.
      unfold bytesOf. cbn [array len]. rewrite Harr.
      replace (16 + lenght - 16) with lenght by lia. reflexivity.
    + assert (Hnone : slice buffer 16 (16 + lenght) = None)
        by (apply slice_None; lia).
      by rewrite Hnone.
  - assert (Hwrap : (16 + lenght) mod 2 ^ 32 = 16 + lenght - 2 ^ 32).
    { symmetry. apply Z.mod_unique_pos with 1; lia. }
    rewrite Hwrap.
    assert (Hnone : slice buffer 16 (16 + lenght - 2 ^ 32) = None)
      by (apply slice_None; lia).
    by rewrite Hnone.
Qed.

(** X5.  Reading back with [unpack] the slice that [pack] returned, for
    a packet whose header fields are [uint32] values: it returns the
    header unchanged and [Lenght] bytes, those of the payload followed by
    zero bytes from the spare capacity of the slice, when [Lenght] is
    below [2^32 - 16] and at most the payload length plus the spare
    capacity; otherwise it panics (the sum [16+Lenght] wraps below 16,
    or it exceeds the capacity).  When [Lenght] is the payload length,
    below [2^32 - 16], it returns the packet itself. *)
Theorem unpack_pack (spare : nat) (packet : XsPacket) :
  uint32 (Op (Header packet)) -> uint32 (ReqID (Header packet)) ->
  uint32 (TxID (Header packet)) -> uint32 (Lenght (Header packet)) ->
  unpack (pack spare packet)
  = (if (Lenght (Header packet) <? 2 ^ 32 - 16)
        && (Lenght (Header packet)
            <=? Z.of_nat (length (Data packet) + spare))
     then Some {| Header := Header packet;
                  Data := take (Z.to_nat (Lenght (Header packet)))
                               (Data packet ++ replicate spare 0) |}
     else None)
  /\ (Lenght (Header packet) = Z.of_nat (length (Data packet)) ->
      Lenght (Header packet) < 2 ^ 32 - 16 ->
      unpack (pack spare packet) = Some packet).
Proof.
  intros Hop Hreq Htx Hlen. unfold pack.
  rewrite unpack_wire by assumption. rewrite length_app, length_replicate.
  split; [done|]. intros Hexact Hsmall.
  destruct (Z.ltb_spec (Lenght (Header packet)) (2 ^ 32 - 16)); [|lia].
  destruct (Z.leb_spec (Lenght (Header packet))
              (Z.of_nat (length (Data packet) + spare))); [|lia].
  cbn [andb]. rewrite Hexact, Nat2Z.id, take_app_length.
  by destruct packet.
Qed.

(** X6.  On a slice of bytes, [unpack] panics exactly when the capacity
    of the slice is below the 16 bytes of the header, or the length that
    the header announces is [2^32 - 16] or more (the sum [16+Lenght]
    wraps), or 16 plus that length exceeds the capacity; otherwise the
    payload it returns is the [Lenght] bytes that follow the header in the
    array, whatever the length of the slice is. *)
Theorem unpack_bounds (data : Slice) :
  Forall isByte (array data) ->
  match unpack data with
  | Some packet =>
      Lenght (Header packet) = Uint32 (take 4 (drop 12 (array data)))
      /\ Lenght (Header packet) < 2 ^ 32 - 16
      /\ 16 + Lenght (Header packet) <= Z.of_nat (cap data)
      /\ Data packet
         = take (Z.to_nat (Lenght (Header packet))) (drop 16 (array data))
      /\ Z.of_nat (length (Data packet)) = Lenght (Header packet)
  | None =>
      Z.of_nat (cap data) < 16
      \/ 2 ^ 32 - 16 <= Uint32 (take 4 (drop 12 (array data)))
      \/ Z.of_nat (cap data) < 16 + Uint32 (take 4 (drop 12 (array data)))
  end.
Proof.
  intros Hbytes. unfold unpack.
  destruct (slice data 0 4) as [op|] eqn:E0; cbn [mbind option_bind];
    [|apply slice_None in E0; lia].
  destruct (slice data 4 8) as [reqID|] eqn:E1; cbn [mbind option_bind];
    [|apply slice_None in E1; lia].
  destruct (slice data 8 12) as [txID|] eqn:E2; cbn [mbind option_bind];
    [|apply slice_None in E2; lia].
  destruct (slice data 12 16) as [lenght|] eqn:E3; cbn [mbind option_bind];
    [|apply slice_None in E3; lia].
  cbn [Lenght].
  destruct (slice_bytes _ _ _ _ E3) as (Hlen & _ & Hcap). rewrite Hlen.
  change (Z.to_nat (16 - 12)) with 4%nat. change (Z.to_nat 12) with 12%nat.
  set (announced := Uint32 (take 4 (drop 12 (array data)))).
  assert (Hbound : 0 <= announced < 2 ^ 32).
  { apply Uint32_bound. by apply Forall_take, Forall_drop. }
  unfold add32.
  destruct (slice data 16 _) as [payload|] eqn:E4; cbn [mbind option_bind].
  - cbn [Header Data Lenght].
    destruct (slice_bytes _ _ _ _ E4) as (Hpay & Hlo & Hhi).
    assert (Hsmall : announced < 2 ^ 32 - 16).
    { destruct (Z.lt_ge_cases announced (2 ^ 32 - 16)); [done|].
      assert ((16 + announced) mod 2 ^ 32 = 16 + announced - 2 ^ 32)
        by (symmetry; apply Z.mod_unique_pos with 1; lia).
      lia. }
    rewrite Z.mod_small in Hpay, Hhi by lia.
    replace (16 + announced - 16) with announced in Hpay by lia.
    change (Z.to_nat 16) with 16%nat in Hpay.
    split; [done|]. split; [done|]. split; [done|]. split; [done|].
    rewrite Hpay, length_take, length_drop. unfold cap in Hhi. lia.
  - apply slice_None in E4; [|lia].
    destruct (Z.lt_ge_cases announced (2 ^ 32 - 16)) as [Hsmall|Hbig];
      [|right; by left].
    rewrite Z.mod_small in E4 by lia. right. right. lia.
Qed.

Lemma fold_left_append {A} (l acc : list A) :
  fold_left (fun acc x => acc ++ [x]) l acc = acc ++ l.
Proof.
  revert acc. induction l as [|x l IH]; intros acc; cbn.
  - by rewrite app_nil_r.
  - by rewrite IH, <- app_assoc.
Qed.

(** [bytes.Join(pieces, sep)] for a separator of one byte. *)
Fixpoint Join (pieces : list (list byte)) (sep : byte) : list byte :=
  match pieces with
  | [] => []
  | [piece] => piece
  | piece :: pieces' => piece ++ sep :: Join pieces' sep
  end.

Lemma Split_nonempty s sep : Split s sep <> [].
Proof.
  destruct s as [|b s]; cbn; [done|].
  destruct (b =? sep); [done|]. by destruct (Split s sep).
Qed.

(** X7.  [SplitData] cuts the payload at its zero bytes: joining the
    pieces with a zero byte gives the payload back, no piece holds a zero
    byte, and there is one piece more than there are zero bytes (so
    always at least one). *)
Theorem SplitData_pieces (packet : XsPacket) :
  Join (SplitData packet) 0 = Data packet
  /\ Forall (fun piece => 0 ∉ piece) (SplitData packet)
  /\ length (SplitData packet)
     = S (length (filter (fun b => b = 0) (Data packet))).
Proof.
  unfold SplitData. rewrite fold_left_append. cbn [app].
  induction (Data packet) as [|b s (IHj & IHf & IHl)]; cbn [Split].
  - split; [done|]. split; [|done]. repeat constructor. apply not_elem_of_nil.
  - pose proof (Split_nonempty s 0) as Hne.
    destruct (Z.eqb_spec b 0) as [-> |Hb].
    + split; [|split].
      * cbn. destruct (Split s 0) as [|p ps]; [done|]. by rewrite IHj.
      * constructor; [apply not_elem_of_nil|done].
      * cbn [length]. rewrite filter_cons_True by done. cbn. by rewrite IHl.
    + destruct (Split s 0) as [|p ps]; [done|].
      split; [|split].
      * rewrite <- IHj. by destruct ps.
      * apply Forall_cons in IHf as [Hp Hps].
        constructor; [|done]. rewrite not_elem_of_cons. by split.
      * rewrite filter_cons_False by done. exact IHl.
Qed.

Lemma Split_app_sep (piece rest : list byte) (sep : byte) :
  sep ∉ piece ->
  Split (piece ++ sep :: rest) sep = piece :: Split rest sep.
Proof.
  induction piece as [|b piece IH]; intros Hnot; cbn.
  - by rewrite Z.eqb_refl.
  - destruct (Z.eqb_spec b sep) as [-> |Hb]; [set_solver|].
    rewrite IH by set_solver. reflexivity.
Qed.

(** X8.  The payload that [xsWatchRequest] sends survives the wire: when
    neither the path nor the token holds a zero byte and the payload is
    shorter than [2^32 - 16] bytes, a slice whose array begins with the
    bytes that [pack] wrote for the request (the slice that [pack]
    returned, or a buffer into which the bytes were read, whatever
    follows them) unpacks to a payload that [SplitData] cuts into the
    path, the token and an empty last piece, the pieces that [Watch]
    compares with its own path and token. *)
Theorem watch_request_round_trip (xsPath token rest : list byte) (n : nat) :
  0 ∉ xsPath -> 0 ∉ token ->
  Z.of_nat (length (watchData xsPath token)) < 2 ^ 32 - 16 ->
  SplitData
    <$> unpack {| array := wire (watchPacket xsPath token) ++ rest; len := n |}
  = Some [xsPath; token; []].
Proof.
  intros Hpath Htoken Hlen.
  assert (Hl : Z.of_nat (length (watchData xsPath token)) mod 2 ^ 32
               = Z.of_nat (length (watchData xsPath token)))
    by (apply Z.mod_small; lia).
  rewrite unpack_wire; cbn [watchPacket Header Data Op ReqID TxID Lenght];
    rewrite ?Hl; try (unfold uint32, WatchOp; lia).
  destruct (Z.ltb_spec (Z.of_nat (length (watchData xsPath token)))
              (2 ^ 32 - 16)); [|lia].
  destruct (Z.leb_spec (Z.of_nat (length (watchData xsPath token)))
              (Z.of_nat (length (watchData xsPath token ++ rest))));
    [|rewrite length_app in *; lia].
  cbn [andb fmap option_fmap option_map]. f_equal.
  unfold SplitData. rewrite fold_left_append. cbn [app Data].
  rewrite Nat2Z.id, take_app_length. unfold watchData.
  rewrite <- !app_assoc. cbn [app].
  rewrite Split_app_sep by done. rewrite Split_app_sep by done. reflexivity.
Qed.

Definition samplePath : list byte := [47; 49].
Definition sampleToken : list byte := [107; 49].

(** The packet of a watch request, and one whose header announces more
    than its payload holds. *)
Definition sampleRequest : XsPacket := watchPacket samplePath sampleToken.

Definition overstated : XsPacket :=
  {| Header := {| Op := WatchOp; ReqID := 0; TxID := 0; Lenght := 7 |};
     Data := samplePath |}.

Lemma unpack_pack_witness :
  (unpack (pack 10 overstated)
   = Some {| Header := Header overstated; Data := [47; 49; 0; 0; 0; 0; 0] |}
   /\ unpack (pack 4 overstated) = None)
  /\ unpack (pack 10 sampleRequest) = Some sampleRequest.
Proof.
  split; [split|].
  - refine (proj1 (unpack_pack 10 overstated _ _ _ _)); split; by vm_compute.
  - refine (proj1 (unpack_pack 4 overstated _ _ _ _)); split; by vm_compute.
  - refine (proj2 (unpack_pack 10 sampleRequest _ _ _ _) _ _);
      try (split; by vm_compute); by vm_compute.
Defined.

Lemma unpack_bounds_witness :
  Z.of_nat (cap {| array := [4; 0; 0; 0]; len := 4 |}) < 16
  \/ 2 ^ 32 - 16 <= Uint32 (take 4 (drop 12 [4; 0; 0; 0]))
  \/ Z.of_nat (cap {| array := [4; 0; 0; 0]; len := 4 |})
     < 16 + Uint32 (take 4 (drop 12 [4; 0; 0; 0])).
Proof.
  refine (unpack_bounds {| array := [4; 0; 0; 0]; len := 4 |} _).
  repeat constructor; unfold isByte; lia.
Defined.

Lemma watch_request_round_trip_witness :
  SplitData <$> unpack (pack 10 sampleRequest)
  = Some [samplePath; sampleToken; []].
Proof.
  refine (watch_request_round_trip samplePath sampleToken (replicate 10 0)
            (length (wire sampleRequest)) _ _ _).
  - unfold samplePath. rewrite !not_elem_of_cons. repeat split; try lia.
    apply not_elem_of_nil.
  - unfold sampleToken. rewrite !not_elem_of_cons. repeat split; try lia.
    apply not_elem_of_nil.
  - cbn. lia.
Defined.

End Xenstore.
